(** * A shallow embedding of the file-backed object store

    The development follows [internals/filestore]: one file per bucket,
    records of the form [<objId> <len> <data>\n], an in-memory index of
    offsets kept as a doubly linked chain, and every change going through a
    temporary file that is renamed over the bucket file. *)

From Stdlib Require Import ZArith NArith Lia Ascii String.
From Stdlib Require Import Strings.Byte Numbers.DecimalString Numbers.DecimalN.
From stdpp Require Import base option list gmap strings.

Local Open Scope Z_scope.

(** ** Machine integers *)

Definition max_int64 : Z := 2 ^ 63 - 1.
Definition min_int64 : Z := - 2 ^ 63.

(** Two's complement wrap-around of Go's [int64]. *)
Definition wrap64 (z : Z) : Z := (z + 2 ^ 63) mod 2 ^ 64 - 2 ^ 63.
Definition add64 (a b : Z) : Z := wrap64 (a + b).
Definition sub64 (a b : Z) : Z := wrap64 (a - b).

(** Wrap-around of Go's [uint32]. *)
Definition wrap32 (z : Z) : Z := z mod 2 ^ 32.

Definition in_int64 (z : Z) : Prop := min_int64 <= z <= max_int64.

(** ** Bytes and strings

    Go strings are byte sequences; identifiers and paths are kept as
    [string], file contents and payloads as [list byte]. *)

Definition bytes_of (s : string) : list byte := list_byte_of_string s.
Definition string_of (l : list byte) : string := string_of_list_byte l.

Definition space : byte := x20.
(** [const separator = byte('\n')] *)
Definition separator : byte := x0a.

Definition byte_val (b : byte) : Z := Z.of_N (Byte.to_N b).

(** ** Operating-system calls and errors

    Every call into the operating system may fail.  An environment says, for
    one run of an operation, which of its calls the system lets through; the
    calls of an operation are told apart by the place they are made from. *)

Inductive syscall :=
  | SysStatDir      (* os.Stat of the store folder *)
  | SysGlob         (* filepath.Glob over the store folder *)
  | SysRead         (* reads of the buffered reader of the loader *)
  | SysCreate       (* os.OpenFile, creating the empty file of a new bucket *)
  | SysTempFile     (* ioutil.TempFile *)
  | SysOpen         (* os.Open of a bucket file *)
  | SysCopy         (* io.Copy of the (rest of the) bucket file *)
  | SysCopyPrefix   (* io.CopyN of the bytes before the object *)
  | SysCopyMeta     (* io.CopyN of the old metadata of the object *)
  | SysStat         (* file.Stat of the temporary file *)
  | SysWriteMeta    (* file.Write of [<objId> <len> ] *)
  | SysWriteObj     (* file.Write of the object *)
  | SysWriteSep     (* file.Write of the separator *)
  | SysSeek         (* bf.Seek *)
  | SysRename       (* os.Rename *)
  | SysRemove       (* os.Remove of a bucket file *)
  | SysReadAt.      (* bf.ReadAt *)

Definition env := syscall -> bool.

(** The environment in which no call fails. *)
Definition io_ok : env := fun _ => true.

Inductive error :=
  | ErrOs (c : syscall)          (* the error of a failed system call *)
  | EOF                          (* io.EOF *)
  | ErrNegativeCount             (* bufio.ErrNegativeCount *)
  | ErrHash                      (* "cannot compute bucketMetadata ID hash" *)
  | ErrHashWrite (e : error)
  | ErrParseSize                 (* "error parsing object size: ..." *)
  | ErrReadObject (e : error)    (* "error reading object from bucket file: ..." *)
  | ErrOpenBucket (e : error)    (* "error opening bucket file: ..." *)
  | ErrStoreFolder (e : error).  (* "store folder does not exist", "cannot access store folder: ..." *)

Inductive res (A : Type) :=
  | Ok (a : A)
  | Err (e : error).
Arguments Ok {A} a.
Arguments Err {A} e.

Definition res_bind {A B} (m : res A) (k : A -> res B) : res B :=
  match m with
  | Ok a => k a
  | Err e => Err e
  end.

Notation "'do' x <- m ; k" := (res_bind m (fun x => k))
  (at level 10, x pattern, m at level 100, k at level 200).

(** ** The stripe index of a bucket *)

(** [const numMutexes = 100] *)
Definition numMutexes : Z := 100.

Module fnv.
(** [hash/fnv]: the 32-bit FNV-1 hash behind [fnv.New32()]. *)
Definition offset32 : Z := 2166136261.
Definition prime32 : Z := 16777619.

Definition New32 : Z := offset32.

Definition step (h : Z) (c : byte) : Z :=
  Z.lxor (wrap32 (h * prime32)) (byte_val c).

(** [Write] folds the bytes into the state and reports how many it took;
    the second component is the (always nil) error. *)
Definition Write {E : Type} (h : Z) (data : list byte) : Z * (Z * option E) :=
  (fold_left step data h, (Z.of_nat (length data), None)).

Definition Sum32 (h : Z) : Z := h.
End fnv.

(** [bucketIdToMutexIndex]: the index in the mutex array, from a hash of the
    bucket id. *)
Definition bucketIdToMutexIndex (bucketId : string) : Z * option error :=
  let f := fnv.New32 in
  let '(f, (n, err)) := fnv.Write f (bytes_of bucketId) in
  if n <? Z.of_nat (length (bytes_of bucketId)) then
    (0, Some ErrHash)
  else
    match err with
    | Some e => (0, Some (ErrHashWrite e))
    | None =>
        let index := fnv.Sum32 f in
        (index mod numMutexes, None)
    end.



(** ** Formatting and parsing of the length field *)

(** [%d] of [fmt.Sprintf]. *)
Definition fmt_d (n : Z) : string := NilZero.string_of_int (Z.to_int n).

(** [strconv.ParseInt(s, 10, 64)]: an optional sign, then one or more decimal
    digits, the value within the range of [int64]. *)
Definition ParseInt (s : string) : res Z :=
  let '(neg, digits) :=
    match s with
    | String "+" s' => (false, s')
    | String "-" s' => (true, s')
    | _ => (false, s)
    end in
  match digits with
  | EmptyString => Err ErrParseSize
  | _ =>
      match NilEmpty.uint_of_string digits with
      | None => Err ErrParseSize
      | Some d =>
          let un := Z.of_N (N.of_uint d) in
          if neg then
            if un <=? 2 ^ 63 then Ok (- un) else Err ErrParseSize
          else
            if un <=? max_int64 then Ok un else Err ErrParseSize
      end
  end.


(** ** Data model *)

(** Pointers to [objectMetadata] are indices into the arena of the bucket the
    object belongs to; [nil] is [None].  Nodes are never freed. *)
Abbreviation ptr := nat.

Record objectMetadata := mkObject {
  offset : Z;             (* Offset in bytes of the object within the bucket file *)
  size : Z;               (* Size in bytes of the object *)
  metaSize : Z;           (* Size of the object metadata (<objId> <obj size>) *)
  prev : option ptr;      (* Previous object in the bucket file *)
  next : option ptr       (* Following object in the bucket file *)
}.

Record bucketMetadata := mkBucket {
  filePath : string;
  muIndex : Z;                    (* Index of the mutex in the bucketsMu *)
  lastObject : option ptr;        (* Last object in the buckets file *)
  objects : gmap string ptr;      (* Map to store each object metadata *)
  arena : list objectMetadata     (* the objectMetadata values the pointers refer to *)
}.

(** The files on disk, by path. *)
Abbreviation disk := (gmap string (list byte)).

(** A [FileStore] together with the disk it works on.  The temporary file of
    an operation is not part of [files]: it lives under a fresh name, and is
    renamed or removed before the operation returns. *)
Record world := mkWorld {
  files : disk;
  storePath : string;
  buckets : gmap string bucketMetadata
}.

Definition set_offset (v : Z) (om : objectMetadata) : objectMetadata :=
  mkObject v (size om) (metaSize om) (prev om) (next om).
Definition set_sizes (ms sz : Z) (om : objectMetadata) : objectMetadata :=
  mkObject (offset om) sz ms (prev om) (next om).
Definition set_prev (p : option ptr) (om : objectMetadata) : objectMetadata :=
  mkObject (offset om) (size om) (metaSize om) p (next om).
Definition set_next (n : option ptr) (om : objectMetadata) : objectMetadata :=
  mkObject (offset om) (size om) (metaSize om) (prev om) n.

(** Go slices: [nil] is [None]. *)
Definition slice_len (obj : option (list byte)) : Z :=
  Z.of_nat (length (default [] obj)).

(** ** Files *)

(** [path.Join(storePath, bucketId+".dat")], for a cleaned store path other
    than the root or the current folder and a name without separators. *)
Definition path_Join (dir name : string) : string := dir +:+ "/" +:+ name.

(** A write to the temporary file [file].  A file never grows beyond the
    sizes [Stat] and [Seek] can express: such a write fails. *)
Definition file_Write (io : env) (c : syscall) (file data : list byte)
  : res (list byte) :=
  if io c && (Z.of_nat (length file + length data) <=? max_int64)
  then Ok (file ++ data) else Err (ErrOs c).

(** [os.Open]: the content of the file, read from position 0. *)
Definition os_Open (io : env) (d : disk) (name : string) : res (list byte) :=
  if io SysOpen then
    match d !! name with
    | Some content => Ok content
    | None => Err (ErrOs SysOpen)
    end
  else Err (ErrOs SysOpen).

(** What a reader of [content] standing at position [pos] still has to read. *)
Definition remaining (content : list byte) (pos : Z) : list byte :=
  drop (Z.to_nat pos) content.

(** [io.Copy(file, bf)] with [bf] at position [pos]. *)
Definition io_Copy (io : env) (file content : list byte) (pos : Z)
  : res (list byte) :=
  file_Write io SysCopy file (remaining content pos).

(** [io.CopyN(file, bf, n)] with [bf] at position [pos]: the new content of
    [file] and the new position of [bf].  A count that is not positive copies
    nothing; a source that ends early gives [io.EOF]. *)
Definition io_CopyN (io : env) (c : syscall) (file content : list byte)
  (pos n : Z) : res (list byte * Z) :=
  if n <=? 0 then Ok (file, pos)
  else
    let src := remaining content pos in
    if Z.of_nat (length src) <? n then
      if io c then Err EOF else Err (ErrOs c)
    else
      do file <- file_Write io c file (take (Z.to_nat n) src);
      Ok (file, pos + n).

(** [bf.ReadAt(obj, off)] for a buffer of [n] bytes. *)
Definition file_ReadAt (io : env) (content : list byte) (n off : Z)
  : res (list byte) :=
  if negb (io SysReadAt) then Err (ErrOs SysReadAt)
  else if off <? 0 then Err (ErrOs SysReadAt)
  else if n =? 0 then Ok []
  else
    let src := remaining content off in
    if Z.of_nat (length src) <? n then Err EOF
    else Ok (take (Z.to_nat n) src).

(** ** Writing records *)

(** [appendObjectToBucketFile] appends the object [obj] to the end of the
    file [file].  If [offset] is negative it takes the size of the file as
    the offset of the new object.  Returns the new content of the file, the
    offset of the object, the length of its metadata and its own length. *)
Definition appendObjectToBucketFile (io : env) (obj : option (list byte))
  (objId : string) (file : list byte) (offset : Z)
  : res (list byte * (Z * Z * Z)) :=
  do offset <-
    (if offset <? 0 then
       if io SysStat then Ok (Z.of_nat (length file)) else Err (ErrOs SysStat)
     else Ok offset);
  let metaStr := (objId +:+ " " +:+ fmt_d (slice_len obj) +:+ " ")%string in
  do file <- file_Write io SysWriteMeta file (bytes_of metaStr);
  do file <- file_Write io SysWriteObj file (default [] obj);
  do file <- file_Write io SysWriteSep file [separator];
  Ok (file, (offset, Z.of_nat (String.length metaStr) - 1, slice_len obj)).

(** [replaceObjectInBucketFile] replaces the object at the position given by
    [objMeta], copying from the bucket file [bfName] to the temporary file
    [file].  With a nil [obj] it deletes the object at that position.
    Returns the new content of [file] and the new metadata and object
    lengths. *)
Definition replaceObjectInBucketFile (io : env) (d : disk)
  (obj : option (list byte)) (objId : string) (objMeta : objectMetadata)
  (bfName : string) (file : list byte) : res (list byte * (Z * Z)) :=
  do bf <- os_Open io d bfName;
  (* copy old bucket file content up to the object to be replaced *)
  let firstHalf := offset objMeta in
  do (file, pos) <- io_CopyN io SysCopyPrefix file bf 0 firstHalf;
  let newObjSize := slice_len obj in
  do (file, pos, newMetaSize) <-
    match obj with
    | Some _ =>
        if negb (newObjSize =? size objMeta) then
          (* Insert new object *)
          do (file, (_, newMetaSize, _)) <-
            appendObjectToBucketFile io obj objId file (offset objMeta);
          Ok (file, pos, newMetaSize)
        else
          (* Just copy the old metadata and replace the object *)
          do (file, pos) <-
            io_CopyN io SysCopyMeta file bf pos (add64 (metaSize objMeta) 1);
          do file <- file_Write io SysWriteObj file (default [] obj);
          do file <- file_Write io SysWriteSep file [separator];
          Ok (file, pos, 0)
    | None => Ok (file, pos, 0)
    end;
  (* copy the remaining objects if any *)
  let offset :=
    add64 (add64 (add64 (offset objMeta) (metaSize objMeta)) (size objMeta)) 2 in
  do pos <-
    (if 0 <? offset then
       if io SysSeek then Ok offset else Err (ErrOs SysSeek)
     else Ok pos);
  do file <- io_Copy io file bf pos;
  Ok (file, (newMetaSize, newObjSize)).

(** ** The operations of the store

    An operation that does not return (a loop over a cyclic chain, the
    dereference of a pointer outside the arena, a run-time panic) gives
    [None].  The locks are not modelled: operations run one at a time. *)

(** The loop
    [for nextObj := start; nextObj != nil; nextObj = nextObj.next { nextObj.offset = f(nextObj.offset) }]. *)
Fixpoint walk_offsets (fuel : nat) (a : list objectMetadata)
  (nextObj : option ptr) (f : Z -> Z) : option (list objectMetadata) :=
  match nextObj with
  | None => Some a
  | Some p =>
      match fuel with
      | O => None
      | S fuel =>
          match a !! p with
          | None => None
          | Some om =>
              walk_offsets fuel (<[p := set_offset (f (offset om)) om]> a)
                (next om) f
          end
      end
  end.

Definition Result := (bool * option error)%type.

(** The metadata update of [Store] for a new object: the node is linked
    after the last object of the bucket and becomes the last one. *)
Definition link_new_object (bucketMeta : bucketMetadata) (objId : string)
  (off ms sz : Z) : bucketMetadata :=
  let p := length (arena bucketMeta) in
  let objMeta := mkObject off sz ms (lastObject bucketMeta) None in
  let a := arena bucketMeta ++ [objMeta] in
  let a :=
    match lastObject bucketMeta with
    | Some l => alter (set_next (Some p)) l a
    | None => a
    end in
  mkBucket (filePath bucketMeta) (muIndex bucketMeta) (Some p)
    (<[objId := p]> (objects bucketMeta)) a.

(** The metadata update of [Store] for a replaced object. *)
Definition update_replaced_object (bucketMeta : bucketMetadata) (p : ptr)
  (objMeta : objectMetadata) (newObjMetaSize newObjSize : Z)
  : option bucketMetadata :=
  if negb (newObjSize =? size objMeta) then
    (* Object has been replaced, need to update other objects metadata *)
    let offsetShift :=
      sub64 (sub64 (add64 newObjMetaSize newObjSize) (metaSize objMeta))
        (size objMeta) in
    match walk_offsets (length (arena bucketMeta)) (arena bucketMeta)
            (next objMeta) (fun o => add64 o offsetShift) with
    | None => None
    | Some a =>
        Some (mkBucket (filePath bucketMeta) (muIndex bucketMeta)
                (lastObject bucketMeta) (objects bucketMeta)
                (alter (set_sizes newObjMetaSize newObjSize) p a))
    end
  else
    (* new object has the same size of the old one, no need to update *)
    Some bucketMeta.

Definition set_bucket (w : world) (d : disk) (bucketId : string)
  (bucketMeta : bucketMetadata) : world :=
  mkWorld d (storePath w) (<[bucketId := bucketMeta]> (buckets w)).

(** The first part of [Store]: the metadata of the bucket, created together
    with an empty bucket file when the bucket is new, and whether the bucket
    was there already; or the result [Store] returns at once. *)
Definition resolve_bucket (io : env) (bucketId : string) (w : world)
  : world * bucketMetadata * bool + world * Result :=
  match buckets w !! bucketId with
  | Some bucketMeta => inl (w, bucketMeta, true)
  | None =>
      (* New bucket, create its metadata *)
      match bucketIdToMutexIndex bucketId with
      | (_, Some err) => inr (w, (false, Some err))
      | (muIndex, None) =>
          let bucketFilePath := path_Join (storePath w) (bucketId +:+ ".dat") in
          let bucketMeta := mkBucket bucketFilePath muIndex None ∅ [] in
          let w := set_bucket w (files w) bucketId bucketMeta in
          (* and create new empty bucket file *)
          if io SysCreate then
            inl (mkWorld (<[bucketFilePath := []]> (files w)) (storePath w)
                   (buckets w), bucketMeta, false)
          else inr (w, (false, Some (ErrOs SysCreate)))
      end
  end.

(** The second part of [Store], under the lock of the bucket: the new content
    of the bucket file is written to a temporary file, the temporary file is
    renamed over the bucket file, and then the metadata is updated. *)
Definition store_object (io : env) (obj : option (list byte))
  (objId bucketId : string) (bucketOk : bool) (bucketMeta : bucketMetadata)
  (w : world) : option (world * Result) :=
  (* temporary bucket file to write changes to *)
  if negb (io SysTempFile) then Some (w, (false, Some (ErrOs SysTempFile)))
  else
    let tmpFile : list byte := [] in
    match objects bucketMeta !! objId with
    | None =>
        (* New object, append it to the temp file *)
        let written :=
          do tmpFile <-
            (if bucketOk then
               (* Copy bucket data to temp file *)
               do bf <- os_Open io (files w) (filePath bucketMeta);
               io_Copy io tmpFile bf 0
             else Ok tmpFile);
          appendObjectToBucketFile io obj objId tmpFile (-1) in
        match written with
        | Err e => Some (w, (false, Some e))
        | Ok (tmpFile, (off, ms, sz)) =>
            if negb (io SysRename) then
              Some (w, (false, Some (ErrOs SysRename)))
            else
              let d := <[filePath bucketMeta := tmpFile]> (files w) in
              Some (set_bucket w d bucketId
                      (link_new_object bucketMeta objId off ms sz),
                    (false, None))
        end
    | Some p =>
        match arena bucketMeta !! p with
        | None => None
        | Some objMeta =>
            match replaceObjectInBucketFile io (files w) obj objId objMeta
                    (filePath bucketMeta) tmpFile with
            | Err e => Some (w, (false, Some e))
            | Ok (tmpFile, (newObjMetaSize, newObjSize)) =>
                if negb (io SysRename) then
                  Some (w, (false, Some (ErrOs SysRename)))
                else
                  let d := <[filePath bucketMeta := tmpFile]> (files w) in
                  (* Store ok, update metadata *)
                  match update_replaced_object bucketMeta p objMeta
                          newObjMetaSize newObjSize with
                  | None => None
                  | Some bucketMeta =>
                      Some (set_bucket w d bucketId bucketMeta, (true, None))
                  end
            end
        end
    end.

(** [Store] stores the given object with ID [objId] in bucket [bucketId].
    Returns whether the object has been replaced along with any error.
    If [bucketId] is a new bucket it gets created. *)
Definition Store (io : env) (obj : option (list byte)) (objId bucketId : string)
  (w : world) : option (world * Result) :=
  match resolve_bucket io bucketId w with
  | inr out => Some out
  | inl (w, bucketMeta, bucketOk) =>
      store_object io obj objId bucketId bucketOk bucketMeta w
  end.

(** [Retrieve] retrieves the object [objId] in bucket [bucketId]: the object
    (or nil if it was not found), whether it has been found, and any error. *)
Definition Retrieve (io : env) (objId bucketId : string) (w : world)
  : option (option (list byte) * bool * option error) :=
  match buckets w !! bucketId with
  | None => Some (None, false, None)
  | Some bucketMeta =>
      match objects bucketMeta !! objId with
      | None => Some (None, false, None)
      | Some p =>
          match arena bucketMeta !! p with
          | None => None
          | Some objMeta =>
              match os_Open io (files w) (filePath bucketMeta) with
              | Err e => Some (None, false, Some e)
              | Ok bf =>
                  (* make([]byte, objMeta.size) panics on a negative length *)
                  if size objMeta <? 0 then None
                  else
                    match file_ReadAt io bf (size objMeta)
                            (add64 (add64 (offset objMeta) (metaSize objMeta)) 1)
                    with
                    | Err e => Some (None, false, Some (ErrReadObject e))
                    | Ok obj => Some (Some obj, true, None)
                    end
              end
          end
      end
  end.

(** The metadata update of [Delete]: the node is unlinked from the chain and
    the objects after it move down by the bytes removed. *)
Definition unlink_object (bucketMeta : bucketMetadata) (objId : string)
  (objMeta : objectMetadata) : option bucketMetadata :=
  let objs := delete objId (objects bucketMeta) in
  let a := arena bucketMeta in
  let a :=
    match prev objMeta with
    | Some q => alter (set_next (next objMeta)) q a
    | None => a
    end in
  match next objMeta with
  | None =>
      Some (mkBucket (filePath bucketMeta) (muIndex bucketMeta) (prev objMeta)
              objs a)
  | Some n =>
      let a := alter (set_prev (prev objMeta)) n a in
      (* update metadata *)
      let removedBytes := add64 (add64 (metaSize objMeta) (size objMeta)) 2 in
      match walk_offsets (length a) a (next objMeta)
              (fun o => sub64 o removedBytes) with
      | None => None
      | Some a =>
          Some (mkBucket (filePath bucketMeta) (muIndex bucketMeta)
                  (lastObject bucketMeta) objs a)
      end
  end.

(** [Delete] deletes the object [objId] in bucket [bucketId].  If the bucket
    is emptied it removes both the bucket file and the bucket metadata.
    Returns whether the object has been deleted along with any error. *)
Definition Delete (io : env) (objId bucketId : string) (w : world)
  : option (world * Result) :=
  match buckets w !! bucketId with
  | None => Some (w, (false, None))
  | Some bucketMeta =>
      match objects bucketMeta !! objId with
      | None => Some (w, (false, None))
      | Some p =>
          match arena bucketMeta !! p with
          | None => None
          | Some objMeta =>
              (* if bucket will be emptied remove its metadata and file *)
              if bool_decide (base.size (objects bucketMeta) = 1%nat) then
                if io SysRemove
                   && bool_decide (is_Some (files w !! filePath bucketMeta))
                then
                  Some (mkWorld (delete (filePath bucketMeta) (files w))
                          (storePath w) (delete bucketId (buckets w)),
                        (true, None))
                else Some (w, (true, None))
              else if negb (io SysTempFile) then
                Some (w, (false, Some (ErrOs SysTempFile)))
              else
                let tmpFile : list byte := [] in
                match replaceObjectInBucketFile io (files w) None objId objMeta
                        (filePath bucketMeta) tmpFile with
                | Err e => Some (w, (false, Some e))
                | Ok (tmpFile, _) =>
                    (* move the tmp file to the actual bucket file *)
                    if negb (io SysRename) then
                      Some (w, (false, Some (ErrOs SysRename)))
                    else
                      let d := <[filePath bucketMeta := tmpFile]> (files w) in
                      match unlink_object bucketMeta objId objMeta with
                      | None => None
                      | Some bucketMeta =>
                          Some (set_bucket w d bucketId bucketMeta, (true, None))
                      end
                end
            end
      end
  end.

(** ** Loading the metadata from disk *)

(** The line up to and including the first [delim], and what follows it. *)
Fixpoint read_until (delim : byte) (r : list byte)
  : option (list byte * list byte) :=
  match r with
  | [] => None
  | b :: r' =>
      if Byte.eqb b delim then Some ([b], r')
      else
        match read_until delim r' with
        | Some (line, rest) => Some (b :: line, rest)
        | None => None
        end
  end.

(** [r.ReadString(delim)]: the bytes read, the rest of the input and the
    error.  Without a delimiter it returns what is left together with
    [io.EOF]. *)
Definition ReadString (io : env) (delim : byte) (r : list byte)
  : list byte * list byte * option error :=
  if negb (io SysRead) then ([], r, Some (ErrOs SysRead))
  else
    match read_until delim r with
    | Some (line, rest) => (line, rest, None)
    | None => (r, [], Some EOF)
    end.

(** [r.Discard(n)] *)
Definition Discard (io : env) (r : list byte) (n : Z) : res (list byte) :=
  if n <? 0 then Err ErrNegativeCount
  else if n =? 0 then Ok r
  else if negb (io SysRead) then Err (ErrOs SysRead)
  else if Z.of_nat (length r) <? n then Err EOF
  else Ok (drop (Z.to_nat n) r).

(** [s[:len(s)-1]] *)
Definition chop (s : list byte) : list byte := take (length s - 1) s.

(** The loop of [getObjectsMetadata]; [None] when the fuel runs out. *)
Fixpoint getObjectsMetadata_loop (fuel : nat) (io : env) (r : list byte)
  (objectsMeta : gmap string ptr) (a : list objectMetadata) (objOffset : Z)
  (lastObjMeta : option ptr)
  : option (res (gmap string ptr * option ptr * list objectMetadata)) :=
  match fuel with
  | O => None
  | S fuel =>
      let '(objId, r, err) := ReadString io space r in
      match err with
      | Some EOF => Some (Ok (objectsMeta, lastObjMeta, a))
      | Some err => Some (Err err)
      | None =>
          let objId := chop objId in
          let '(objSizeStr, r, err) := ReadString io space r in
          match err with
          | Some err => Some (Err err)
          | None =>
              let objSizeStr := chop objSizeStr in
              (* add space size *)
              let objMetaSize :=
                add64 (Z.of_nat (length objId + length objSizeStr)) 1 in
              match ParseInt (string_of objSizeStr) with
              | Err _ => Some (Err ErrParseSize)
              | Ok objSize =>
                  match Discard io r (add64 objSize 1) with
                  | Err err => Some (Err err)
                  | Ok r =>
                      let p := length a in
                      let objectMeta :=
                        mkObject objOffset objSize objMetaSize lastObjMeta None in
                      let a := a ++ [objectMeta] in
                      let a :=
                        match lastObjMeta with
                        | Some l => alter (set_next (Some p)) l a
                        | None => a
                        end in
                      (* add space and newline size *)
                      getObjectsMetadata_loop fuel io r
                        (<[string_of objId := p]> objectsMeta) a
                        (add64 objOffset (add64 (add64 objMetaSize objSize) 2))
                        (Some p)
                  end
              end
          end
      end
  end.

(** [getObjectsMetadata] calculates objects metadata of a bucket file.  Every
    turn of the loop consumes input, so the length of the file bounds the
    number of turns. *)
Definition getObjectsMetadata (io : env) (bf : list byte)
  : option (res (gmap string ptr * option ptr * list objectMetadata)) :=
  getObjectsMetadata_loop (S (length bf)) io bf ∅ [] 0 None.

(** [strings.Split(s, c)] for a one-character separator. *)
Fixpoint strings_Split (s : string) (c : ascii) : list string :=
  match s with
  | EmptyString => [EmptyString]
  | String x s' =>
      if Ascii.eqb x c then EmptyString :: strings_Split s' c
      else
        match strings_Split s' c with
        | h :: t => String x h :: t
        | [] => [String x EmptyString]
        end
  end.

(** [strings.Join(l, sep)] *)
Fixpoint strings_Join (l : list string) (sep : string) : string :=
  match l with
  | [] => EmptyString
  | [x] => x
  | x :: l' => x +:+ sep +:+ strings_Join l' sep
  end.

Definition nonempty (s : string) : bool :=
  match s with EmptyString => false | _ => true end.

(** [path.Base] *)
Definition path_Base (p : string) : string :=
  match last (filter (fun s => nonempty s = true) (strings_Split p "/")) with
  | Some x => x
  | None => match p with EmptyString => "." | _ => "/" end
  end.

Fixpoint strip_prefix (pre s : string) : option string :=
  match pre with
  | EmptyString => Some s
  | String a pre' =>
      match s with
      | String b s' => if Ascii.eqb a b then strip_prefix pre' s' else None
      | EmptyString => None
      end
  end.

Fixpoint has_suffix (suf s : string) : bool :=
  String.eqb s suf
  || match s with
     | String _ s' => has_suffix suf s'
     | EmptyString => false
     end.

Fixpoint contains (c : ascii) (s : string) : bool :=
  match s with
  | EmptyString => false
  | String x s' => Ascii.eqb x c || contains c s'
  end.

(** Whether [p] is matched by [path.Join(dir, "*.dat")]: a file of the folder
    [dir] whose name ends in [.dat]. *)
Definition glob_match (dir p : string) : bool :=
  match strip_prefix (dir +:+ "/") p with
  | Some name => negb (contains "/" name) && has_suffix ".dat" name
  | None => false
  end.

(** [filepath.Glob(path.Join(storePath, "*.dat"))].  The order in which the
    files come is that of the map, not the lexical order of Go. *)
Definition Glob (dir : string) (d : disk) : list string :=
  filter (fun p => glob_match dir p = true) (map fst (map_to_list d)).

(** The loop of [loadDataFromDisk] over the bucket files.  The files removed
    stay removed when a later file fails to load. *)
Fixpoint load_buckets (io : env) (bucketFiles : list string) (d : disk)
  (bs : gmap string bucketMetadata)
  : option (disk * res (gmap string bucketMetadata)) :=
  match bucketFiles with
  | [] => Some (d, Ok bs)
  | bfPath :: bucketFiles =>
      let fileNameParts := strings_Split (path_Base bfPath) "." in
      let bucketId := strings_Join (removelast fileNameParts) "." in
      match bucketIdToMutexIndex bucketId with
      | (_, Some err) => Some (d, Err err)
      | (muIndex, None) =>
          match os_Open io d bfPath with
          | Err e => Some (d, Err (ErrOpenBucket e))
          | Ok bf =>
              match getObjectsMetadata io bf with
              | None => None
              | Some (Err err) => Some (d, Err err)
              | Some (Ok (objectsMeta, lastObject, a)) =>
                  if bool_decide (0 < base.size objectsMeta)%nat then
                    load_buckets io bucketFiles d
                      (<[bucketId := mkBucket bfPath muIndex lastObject
                                       objectsMeta a]> bs)
                  else
                    (* remove empty bucket file *)
                    load_buckets io bucketFiles
                      (if io SysRemove then delete bfPath d else d) bs
              end
          end
      end
  end.

(** [loadDataFromDisk] calculates buckets metadata from files in the given
    store path. *)
Definition loadDataFromDisk (io : env) (storePath : string) (d : disk)
  : option (disk * res (gmap string bucketMetadata)) :=
  if negb (io SysGlob) then Some (d, Err (ErrOs SysGlob))
  else load_buckets io (Glob storePath d) d ∅.

(** [NewStore]: the store over the folder [storePath], a path taken to be
    clean already.  The error is nil exactly when a store is returned. *)
Definition NewStore (io : env) (storePath : string) (d : disk)
  : option (disk * res world) :=
  (* Check store folder *)
  if negb (io SysStatDir) then Some (d, Err (ErrStoreFolder (ErrOs SysStatDir)))
  else
    (* Load metadata of existing buckets *)
    match loadDataFromDisk io storePath d with
    | None => None
    | Some (d, Err err) => Some (d, Err err)
    | Some (d, Ok bs) => Some (d, Ok (mkWorld d storePath bs))
    end.

(** * Specification

    What the bytes of a bucket file and the metadata held in memory have to
    do with each other, and the states a store can be in. *)

(** ** Identifiers *)

(** The characters of [[a-z0-9_-]]. *)
Definition id_char (c : ascii) : bool :=
  let n := nat_of_ascii c in
  ((97 <=? n) && (n <=? 122) || (48 <=? n) && (n <=? 57)
   || (n =? 95) || (n =? 45))%nat.

Fixpoint all_chars (f : ascii -> bool) (s : string) : bool :=
  match s with
  | EmptyString => true
  | String c s' => f c && all_chars f s'
  end.

(** The identifiers the request layer lets through: [[a-z0-9_-]+]. *)
Definition valid_id (s : string) : bool := nonempty s && all_chars id_char s.

(** ** The records of a bucket file *)

(** A record as it is meant: the node that describes it, the identifier of
    the object and the object. *)
Record entry := mkEntry {
  e_ptr : ptr;
  e_id : string;
  e_data : list byte
}.

Definition e_size (e : entry) : Z := Z.of_nat (length (e_data e)).

(** [<objId> <obj len> ], the trailing space included. *)
Definition meta_str (e : entry) : string :=
  e_id e +:+ " " +:+ fmt_d (e_size e) +:+ " ".

Definition e_metaSize (e : entry) : Z :=
  Z.of_nat (String.length (meta_str e)) - 1.

(** [<objId> <obj len> <obj data>\n] *)
Definition record_of (e : entry) : list byte :=
  bytes_of (meta_str e) ++ e_data e ++ [separator].

Definition e_len (e : entry) : Z := e_metaSize e + e_size e + 2.

Fixpoint file_of (es : list entry) : list byte :=
  match es with
  | [] => []
  | e :: es' => record_of e ++ file_of es'
  end.

Definition total_len (es : list entry) : Z := Z.of_nat (length (file_of es)).

Definition hd_ptr (es : list entry) (dflt : option ptr) : option ptr :=
  match es with
  | [] => dflt
  | e :: _ => Some (e_ptr e)
  end.

Definition last_ptr (es : list entry) (dflt : option ptr) : option ptr :=
  match last es with
  | None => dflt
  | Some e => Some (e_ptr e)
  end.

(** The nodes of [es] form, in the arena [a], a piece of chain that starts at
    offset [off], comes after [prv] and is followed by [nxt]. *)
Fixpoint chain (a : list objectMetadata) (prv : option ptr) (off : Z)
  (es : list entry) (nxt : option ptr) : Prop :=
  match es with
  | [] => True
  | e :: es' =>
      a !! e_ptr e
        = Some (mkObject off (e_size e) (e_metaSize e) prv (hd_ptr es' nxt))
      /\ chain a (Some (e_ptr e)) (off + e_len e) es' nxt
  end.

Definition index_of (es : list entry) : list (string * ptr) :=
  (fun e => (e_id e, e_ptr e)) <$> es.

(** The metadata [bucketMeta] of the bucket [b] describes the records [es],
    and so does the file of the bucket. *)
Record bucket_inv (sp : string) (d : disk) (b : string)
  (bucketMeta : bucketMetadata) (es : list entry) : Prop := mkBucketInv {
  bi_path : filePath bucketMeta = path_Join sp (b +:+ ".dat");
  bi_mu : muIndex bucketMeta = (bucketIdToMutexIndex b).1;
  bi_ids : NoDup (e_id <$> es);
  bi_ptrs : NoDup (e_ptr <$> es);
  bi_valid : Forall (fun e => valid_id (e_id e) = true) es;
  bi_objects : objects bucketMeta = list_to_map (index_of es);
  bi_last : lastObject bucketMeta = last_ptr es None;
  bi_chain : chain (arena bucketMeta) None 0 es None;
  bi_file :
    match d !! filePath bucketMeta with
    | Some content => content = file_of es
    | None => es = []
    end;
  bi_fits : total_len es <= max_int64
}.

(** The invariant of the store. *)
Record store_inv (w : world) : Prop := mkStoreInv {
  si_buckets : forall b bucketMeta,
    buckets w !! b = Some bucketMeta ->
    valid_id b = true
    /\ exists es, bucket_inv (storePath w) (files w) b bucketMeta es;
  si_files : forall p content,
    files w !! p = Some content ->
    glob_match (storePath w) p = true ->
    content = []
    \/ exists b bucketMeta,
         buckets w !! b = Some bucketMeta /\ filePath bucketMeta = p
}.

(** ** The states of a store

    A store starts over a folder without bucket files; objects with valid
    identifiers are stored and deleted, calls of the operating system fail
    at will, and the store may be started again over the files it left. *)
Inductive reachable (sp : string) : world -> Prop :=
  | reach_new (d : disk) :
      (forall p, is_Some (d !! p) -> glob_match sp p = false) ->
      reachable sp (mkWorld d sp ∅)
  | reach_Store w io obj objId bucketId w' r :
      reachable sp w ->
      valid_id objId = true -> valid_id bucketId = true ->
      Store io (Some obj) objId bucketId w = Some (w', r) ->
      reachable sp w'
  | reach_Delete w io objId bucketId w' r :
      reachable sp w ->
      Delete io objId bucketId w = Some (w', r) ->
      reachable sp w'
  | reach_restart w io d' w' :
      reachable sp w ->
      NewStore io sp (files w) = Some (d', Ok w') ->
      reachable sp w'.

(** ** What the metadata says about an object *)

Definition object_meta (w : world) (b o : string) : option objectMetadata :=
  bucketMeta ← buckets w !! b;
  p ← objects bucketMeta !! o;
  arena bucketMeta !! p.

(** [(offset, headerSize, payloadSize)] *)
Definition triple (om : objectMetadata) : Z * Z * Z :=
  (offset om, metaSize om, size om).

(** In bucket [b], the [next] link of object [o] leads to object [o']. *)
Definition next_object (w : world) (b o o' : string) : Prop :=
  exists bucketMeta p p' om,
    buckets w !! b = Some bucketMeta
    /\ objects bucketMeta !! o = Some p
    /\ objects bucketMeta !! o' = Some p'
    /\ arena bucketMeta !! p = Some om
    /\ next om = Some p'.

(** In bucket [b], the [prev] link of object [o] leads to object [o']. *)
Definition prev_object (w : world) (b o o' : string) : Prop :=
  exists bucketMeta p p' om,
    buckets w !! b = Some bucketMeta
    /\ objects bucketMeta !! o = Some p
    /\ objects bucketMeta !! o' = Some p'
    /\ arena bucketMeta !! p = Some om
    /\ prev om = Some p'.

(** The encoded size of a record: metadata, separator space, object and
    terminator. *)
Definition encoded_size (om : objectMetadata) : Z :=
  metaSize om + size om + 2.

(** ** Auxiliary notions *)

Definition is_digit (c : ascii) : bool :=
  let n := nat_of_ascii c in ((48 <=? n) && (n <=? 57))%nat.

(** The node [om] describes the record [e], which stands in its file after
    the records [es1]. *)
Definition describes (om : objectMetadata) (es1 : list entry) (e : entry)
  : Prop :=
  offset om = total_len es1 /\ size om = e_size e /\ metaSize om = e_metaSize e.

(** The metadata of a bucket that has just been created. *)
Definition fresh_bucket (sp b : string) : bucketMetadata :=
  mkBucket (path_Join sp (b +:+ ".dat")) (bucketIdToMutexIndex b).1 None ∅ [].

(** The records of bucket [b] in the state [w]: none when the bucket is not
    registered. *)
Definition records_of (w : world) (b : string) (es : list entry) : Prop :=
  match buckets w !! b with
  | Some bm => bucket_inv (storePath w) (files w) b bm es
  | None => es = []
  end.

(** The records [es] as a loader numbers their nodes: in the order of the
    file, from [k] on. *)
Fixpoint renum (k : nat) (es : list entry) : list entry :=
  match es with
  | [] => []
  | e :: es' => mkEntry k (e_id e) (e_data e) :: renum (S k) es'
  end.

(** The part of [bucket_inv] that does not look at the disk. *)
Definition bucket_meta_inv (sp b : string) (bucketMeta : bucketMetadata)
  (es : list entry) : Prop :=
  bucket_inv sp (<[filePath bucketMeta := file_of es]> ∅) b bucketMeta es.

(** [o'] comes right after [o] in the list [ids]. *)
Definition adjacent (ids : list string) (o o' : string) : Prop :=
  exists l1 l2, ids = l1 ++ o :: o' :: l2.

(** The node of the record [e] that stands after the records [es1] and
    before the records [es2]. *)
Definition node_of (es1 : list entry) (e : entry) (es2 : list entry)
  : objectMetadata :=
  mkObject (total_len es1) (e_size e) (e_metaSize e) (last_ptr es1 None)
    (hd_ptr es2 None).


(** The layout of the chains of a state: a node that has a [next] is
    followed at once by that node, and the node without a [prev] stands at
    the start of the file. *)
Definition layout_ok (w : world) : Prop :=
  forall b o bucketMeta om,
    buckets w !! b = Some bucketMeta ->
    object_meta w b o = Some om ->
    (forall p', next om = Some p' ->
       exists om', arena bucketMeta !! p' = Some om'
         /\ offset om' = offset om + metaSize om + size om + 2)
    /\ (prev om = None -> offset om = 0).

(** ** Example states *)

(** A store over the empty folder [st]. *)
Definition st0 : world := mkWorld ∅ "st" ∅.

Definition after (r : option (world * Result)) : world :=
  match r with
  | Some (w, _) => w
  | None => st0
  end.

(** [Store("a","o1","b")], [Store("bbb","o2","b")], [Delete("o1","b")],
    [Delete("o2","b")] *)
Definition st1 : world := after (Store io_ok (Some (bytes_of "a")) "o1" "b" st0).
Definition st2 : world := after (Store io_ok (Some (bytes_of "bbb")) "o2" "b" st1).
Definition st3 : world := after (Delete io_ok "o1" "b" st2).
Definition st4 : world := after (Delete io_ok "o2" "b" st3).

(** [Store("xyz","o1","b")] on [st2]: a replacement of another size. *)
Definition st2x : world :=
  after (Store io_ok (Some (bytes_of "xyz")) "o1" "b" st2).

(** An environment in which no temporary file can be created. *)
Definition io_no_tmp : env :=
  fun c => match c with SysTempFile => false | _ => true end.

(** A bucket file whose last record stops inside the identifier. *)
Definition truncated_file : list byte := bytes_of "o1 5 hello
o2".


(** A folder with the truncated file as the file of bucket [b]. *)
Definition truncated_disk : disk := {[ "st/b.dat"%string := truncated_file ]}.

(** ** The data of the tests of the package *)

Definition testBucket1 : list byte := bytes_of "o1a 5 1stob
o2-a 12 2nd nice obj
o3.0a 7 3rd obj
".

Definition testBucket2 : list byte := bytes_of "obj1b 9 1st obj b
ob02b 8 2nd ob b
o3-0bb 19 3rd obj in bucket b
".

(** The folder of the tests, here called [st], with both bucket files. *)
Definition test_disk : disk :=
  <[ "st/testBucket1.dat"%string := testBucket1 ]>
    {[ "st/testBucket2.dat"%string := testBucket2 ]}.

(** The store the tests start from. *)
Definition test_store : world :=
  match NewStore io_ok "st" test_disk with
  | Some (_, Ok w) => w
  | _ => st0
  end.

(** [offset], [size] and [metaSize] of an object, as the tests list them. *)
Definition test_meta (w : world) (b o : string) : option (Z * Z * Z) :=
  (fun om => (offset om, size om, metaSize om)) <$> object_meta w b o.

(** The content of the file of bucket [b]. *)
Definition bucket_content (w : world) (b : string) : option string :=
  string_of <$> files w !! path_Join (storePath w) (b +:+ ".dat").

(** An environment in which no file can be removed. *)
Definition io_no_remove : env :=
  fun c => match c with SysRemove => false | _ => true end.

(** The metadata of bucket [b] and of object [o] in a state, for the
    examples. *)
Definition bucket_of (w : world) (b : string) : bucketMetadata :=
  default (fresh_bucket (storePath w) b) (buckets w !! b).

Definition node_at (w : world) (b o : string) : objectMetadata :=
  default (mkObject 0 0 0 None None) (object_meta w b o).

(** * The in-memory store

    [internals/memstore]: the objects are kept as strings in a map of maps,
    [buckets[bucketId][objId]].  The mutex is not modelled. *)

Module memstore.

Record MemStore := mkMemStore {
  buckets : gmap string (gmap string string)  (* Map where objects are actually stored *)
}.

Definition NewStore : MemStore := mkMemStore ∅.

(** [Store]: the bucket is created when it is not there; the object is
    written over the one of the same id; the result says whether there was
    one.  [string(obj)] of the nil slice is the empty string. *)
Definition Store (obj : option (list byte)) (objId bucketId : string)
  (s : MemStore) : MemStore * (bool * option error) :=
  let bucket :=
    match buckets s !! bucketId with
    | Some bucket => bucket
    | None => ∅
    end in
  let ok := bool_decide (is_Some (bucket !! objId)) in
  let bucket := <[objId := string_of (default [] obj)]> bucket in
  (mkMemStore (<[bucketId := bucket]> (buckets s)), (ok, None)).

Definition Retrieve (objId bucketId : string) (s : MemStore)
  : option (list byte) * bool * option error :=
  match buckets s !! bucketId with
  | None => (None, false, None)
  | Some bucket =>
      match bucket !! objId with
      | None => (None, false, None)
      | Some obj => (Some (bytes_of obj), true, None)
      end
  end.

Definition Delete (objId bucketId : string) (s : MemStore)
  : MemStore * (bool * option error) :=
  match buckets s !! bucketId with
  | None => (s, (false, None))
  | Some bucket =>
      match bucket !! objId with
      | None => (s, (false, None))
      | Some _ =>
          let bucket := delete objId bucket in
          (* if bucket has been emptied, delete it *)
          if bool_decide (base.size bucket = 0%nat)
          then (mkMemStore (delete bucketId (buckets s)), (true, None))
          else (mkMemStore (<[bucketId := bucket]> (buckets s)), (true, None))
      end
  end.

(** The states of a store: those [Store] and [Delete] lead to from
    [NewStore]. *)
Inductive valid : MemStore -> Prop :=
  | valid_new : valid NewStore
  | valid_Store s obj o b :
      valid s -> valid (Store obj o b s).1
  | valid_Delete s o b :
      valid s -> valid (Delete o b s).1.

End memstore.

(** The file store and the in-memory store hold the same objects: every
    [Retrieve], with a disk that can be read, gives the same answer. *)
Definition same_objects (w : world) (s : memstore.MemStore) : Prop :=
  forall o b, Retrieve io_ok o b w = Some (memstore.Retrieve o b s).

(** The object with the identifier [o] among the records [es]. *)
Fixpoint data_of (es : list entry) (o : string) : option (list byte) :=
  match es with
  | [] => None
  | e :: es' => if decide (e_id e = o) then Some (e_data e) else data_of es' o
  end.

(** What [Retrieve] returns for an object that is, or is not, there. *)
Definition retrieved (obj : option (list byte))
  : option (list byte) * bool * option error :=
  match obj with
  | Some data => (Some data, true, None)
  | None => (None, false, None)
  end.

(** ** Runs of a store *)

Inductive op :=
  | OpStore (obj : list byte) (objId bucketId : string)
  | OpRetrieve (objId bucketId : string)
  | OpDelete (objId bucketId : string).

(** What an operation returns when it returns no error. *)
Inductive answer :=
  | Stored (replaced : bool)
  | Retrieved (obj : option (list byte)) (found : bool)
  | Deleted (deleted : bool).

Definition valid_op (x : op) : bool :=
  match x with
  | OpStore _ o b | OpRetrieve o b | OpDelete o b => valid_id o && valid_id b
  end.

(** The operations [ops] on the file store, one after the other, with no
    failing call: the answers and the last state, if no operation returns an
    error. *)
Fixpoint run_file (ops : list op) (w : world) : option (list answer * world) :=
  match ops with
  | [] => Some ([], w)
  | OpStore obj o b :: ops' =>
      match Store io_ok (Some obj) o b w with
      | Some (w', (replaced, None)) =>
          match run_file ops' w' with
          | Some (answers, w'') => Some (Stored replaced :: answers, w'')
          | None => None
          end
      | _ => None
      end
  | OpRetrieve o b :: ops' =>
      match Retrieve io_ok o b w with
      | Some (obj, found, None) =>
          match run_file ops' w with
          | Some (answers, w'') => Some (Retrieved obj found :: answers, w'')
          | None => None
          end
      | _ => None
      end
  | OpDelete o b :: ops' =>
      match Delete io_ok o b w with
      | Some (w', (deleted, None)) =>
          match run_file ops' w' with
          | Some (answers, w'') => Some (Deleted deleted :: answers, w'')
          | None => None
          end
      | _ => None
      end
  end.


(** * The request layer

    [internals/rest]: the handlers of [PUT], [GET] and [DELETE] on
    [/objects/<bucket>/<objectId>], over any store that implements
    [ObjectStore].  A handler is given the identifiers the router has taken
    from the path ([getBucketObjectId]), the request and a response writer.
    The texts of the error messages are kept as values of [message]; the
    JSON encoding of the stored response is kept as the value it encodes. *)

Module rest.

(** [defaultMaxMem] is the default maximum memory usable for an object read
    from the PUT request: [10 << 20], 10MiB. *)
Definition defaultMaxMem : Z := Z.shiftl 10 20.

(** [ObjectStore] is the interface representing an object store.  The state
    of the store is passed along; [None] stands for a call that does not
    return. *)
Class ObjectStore (S : Type) := {
  Store : option (list byte) -> string -> string -> S
          -> option (S * (bool * option error));
  Retrieve : string -> string -> S
             -> option (option (list byte) * bool * option error);
  Delete : string -> string -> S -> option (S * (bool * option error))
}.

Record storedResponse := mkStoredResponse { Id : string }.

(** ** Status codes of [net/http] *)

Definition StatusOK : Z := 200.
Definition StatusCreated : Z := 201.
Definition StatusBadRequest : Z := 400.
Definition StatusNotFound : Z := 404.
Definition StatusRequestEntityTooLarge : Z := 413.
Definition StatusUnsupportedMediaType : Z := 415.
Definition StatusInternalServerError : Z := 500.

(** ** [formatSizeBinary] *)

(** What [formatSizeBinary] prints: the bytes as they are, or the arguments
    of its last [Sprintf("%.1f %ciB", float64(b)/float64(div), unit)]. *)
Inductive sizeText :=
  | Bytes (s : string)
  | Scaled (b div : Z) (unit : ascii).

Definition unit : Z := 1024.

(** The loop [for n := b / unit; n >= unit; n /= unit { div *= unit; exp++ }];
    [None] when the fuel runs out. *)
Fixpoint formatSizeBinary_loop (fuel : nat) (n div exp : Z) : option (Z * Z) :=
  match fuel with
  | O => None
  | S fuel =>
      if n >=? unit
      then formatSizeBinary_loop fuel (Z.quot n unit) (wrap64 (div * unit))
             (exp + 1)
      else Some (div, exp)
  end.

(** [formatSizeBinary] formats a number representing a size in bytes to a
    string with binary unit.  Indexing ["KMGTPE"] out of its range panics:
    [None]. *)
Definition formatSizeBinary (b : Z) : option sizeText :=
  if b <? unit then Some (Bytes (fmt_d b +:+ " Bytes"))
  else
    match formatSizeBinary_loop 64 (Z.quot b unit) unit 0 with
    | None => None
    | Some (div, exp) =>
        if exp <? 0 then None
        else
          match String.get (Z.to_nat exp) "KMGTPE" with
          | Some c => Some (Scaled b div c)
          | None => None
          end
    end.

(** ** Requests and responses *)

(** The messages of [http.Error]. *)
Inductive message :=
  | ContentTypeNotSupported (ct : string) (* "Content typwe %q not supported" *)
  | ContentNotSet                         (* "Object content not set" *)
  | SizeExceedsMaximum (size : sizeText)  (* "Object size exceeds maximum size of " + ... *)
  | CannotReadObject (err : error)        (* "Cannot read object: " + ... *)
  | ErrorStoring (err : error)            (* "Error storing object: " + ... *)
  | ErrorMarshalling (err : error)        (* "Error marshalling response" + ... *)
  | ErrorRetrieving (err : error)         (* "Error retrieving object: " + ... *)
  | ErrorDeleting (err : error)           (* "Error deleting object: " + ... *)
  | ObjectNotFound (bucketId objectId : string). (* "Object %s/%s not found" *)

(** What is written to the body of a response. *)
Inductive chunk :=
  | Data (obj : list byte)
  | Line (m : message)          (* fmt.Fprintln of a message *)
  | Json (r : storedResponse).  (* the bytes of json.Marshal *)

(** The body of a request: the bytes it delivers and the error, if any,
    that a read after the last of them reports in place of [io.EOF]. *)
Record BodyReader := mkBody {
  content : list byte;
  failure : option error
}.

Record Request := mkRequest {
  Method : string;
  URL_Path : string;
  Header_ContentType : string;    (* r.Header.Get("Content-Type") *)
  Body : option BodyReader;       (* nil is None *)
  ContentLength : Z
}.

(** [io.ReadAll(io.LimitReader(body, n))] *)
Definition ReadAll_LimitReader (body : BodyReader) (n : Z) : res (list byte) :=
  if n <=? 0 then Ok []
  else if n <=? Z.of_nat (length (content body))
  then Ok (take (Z.to_nat n) (content body))
  else
    match failure body with
    | None => Ok (content body)
    | Some err => Err err
    end.

(** [http.ResponseWriter] *)
Class ResponseWriter (W : Type) := {
  Header_Set : string -> string -> W -> W;
  Write : chunk -> W -> W;
  WriteHeader : Z -> W -> W
}.

(** A response as the client gets it: the status code, once the header has
    been written, the header fields and the body.  The first [WriteHeader]
    counts; a [Write] before it writes the header with [StatusOK]; header
    fields set after the header has been written are not sent. *)
Record Response := mkResponse {
  Code : option Z;
  HeaderMap : gmap string string;
  Written : list chunk
}.

Definition NewResponse : Response := mkResponse None ∅ [].

Definition Response_WriteHeader (code : Z) (w : Response) : Response :=
  match Code w with
  | Some _ => w
  | None => mkResponse (Some code) (HeaderMap w) (Written w)
  end.

#[global] Instance Response_Writer : ResponseWriter Response := {|
  Header_Set k v w :=
    match Code w with
    | Some _ => w
    | None => mkResponse (Code w) (<[k := v]> (HeaderMap w)) (Written w)
    end;
  Write c w :=
    let w := Response_WriteHeader StatusOK w in
    mkResponse (Code w) (HeaderMap w) (Written w ++ [c]);
  WriteHeader := Response_WriteHeader
|}.

(** The status the client gets: [StatusOK] when the handler has not written
    the header. *)
Definition status (w : Response) : Z := default StatusOK (Code w).

(** [http.Error] *)
Definition http_Error {W} {RW : ResponseWriter W} (w : W) (m : message) (code : Z)
  : W :=
  let w := Header_Set "Content-Type" "text/plain; charset=utf-8" w in
  let w := Header_Set "X-Content-Type-Options" "nosniff" w in
  let w := WriteHeader code w in
  Write (Line m) w.

(** [json.Marshal] of a [storedResponse], which has no value it fails on. *)
Definition json_Marshal (r : storedResponse) : res storedResponse := Ok r.

(** ** The handlers *)

Record Handler := mkHandler { maxMem : Z }.

(** [NewRouter]: the handler the routes are bound to. *)
Definition NewRouter (maxMem : Z) : Handler :=
  mkHandler (if maxMem =? 0 then defaultMaxMem else maxMem).

Definition HandleStore {W S} {RW : ResponseWriter W} {OS : ObjectStore S}
  (h : Handler) (bucketId objectId : string) (w : W) (r : Request) (s : S)
  : option (W * S) :=
  let ct := Header_ContentType r in
  if negb (String.eqb ct "text/plain") then
    Some (http_Error w (ContentTypeNotSupported ct) StatusUnsupportedMediaType, s)
  else
    match Body r with
    | None => Some (http_Error w ContentNotSet StatusBadRequest, s)
    | Some body =>
        if ContentLength r >? maxMem h then
          match formatSizeBinary (maxMem h) with
          | None => None
          | Some size =>
              Some (http_Error w (SizeExceedsMaximum size)
                      StatusRequestEntityTooLarge, s)
          end
        else
          match ReadAll_LimitReader body (maxMem h) with
          | Err err =>
              Some (http_Error w (CannotReadObject err)
                      StatusInternalServerError, s)
          | Ok body =>
              match Store (Some body) objectId bucketId s with
              | None => None
              | Some (s, (_, Some err)) =>
                  Some (http_Error w (ErrorStoring err)
                          StatusInternalServerError, s)
              | Some (s, (replaced, None)) =>
                  (* there is no return after the error of json.Marshal *)
                  let '(w, resBody) :=
                    match json_Marshal (mkStoredResponse objectId) with
                    | Err err =>
                        (http_Error w (ErrorMarshalling err)
                           StatusInternalServerError, Data [])
                    | Ok resBody => (w, Json resBody)
                    end in
                  let w := Header_Set "Content-Type" "application/json" w in
                  let w :=
                    if replaced then
                      (* in case the object was replaced, a 200 might be a
                         better status code *)
                      WriteHeader StatusOK w
                    else WriteHeader StatusCreated w in
                  Some (Write resBody w, s)
              end
          end
    end.

Definition HandleRetrieve {W S} {RW : ResponseWriter W} {OS : ObjectStore S}
  (h : Handler) (bucketId objectId : string) (w : W) (r : Request) (s : S)
  : option (W * S) :=
  match Retrieve objectId bucketId s with
  | None => None
  | Some (_, _, Some err) =>
      Some (http_Error w (ErrorRetrieving err) StatusInternalServerError, s)
  | Some (obj, ok, None) =>
      if negb ok then
        (* a 404 might be a more precise status code in this case *)
        Some (http_Error w (ObjectNotFound bucketId objectId) StatusNotFound, s)
      else
        let w := Header_Set "Content-Type" "text/plain" w in
        Some (Write (Data (default [] obj)) w, s)
  end.

Definition HandleDelete {W S} {RW : ResponseWriter W} {OS : ObjectStore S}
  (h : Handler) (bucketId objectId : string) (w : W) (r : Request) (s : S)
  : option (W * S) :=
  match Delete objectId bucketId s with
  | None => None
  | Some (s, (_, Some err)) =>
      Some (http_Error w (ErrorDeleting err) StatusInternalServerError, s)
  | Some (s, (ok, None)) =>
      if negb ok then
        Some (http_Error w (ObjectNotFound bucketId objectId) StatusNotFound, s)
      else Some (WriteHeader StatusOK w, s)
  end.

(** ** The logging middleware *)

Record loggingResponseWriter (W : Type) := mkLogging {
  ResponseWriter_ : W;      (* the embedded http.ResponseWriter *)
  statusCode : Z
}.
Arguments mkLogging {W}.
Arguments ResponseWriter_ {W}.
Arguments statusCode {W}.


(** [Header] and [Write] are those of the embedded writer; [WriteHeader]
    keeps the code. *)
#[global] Instance Logging_Writer {W} {RW : ResponseWriter W}
  : ResponseWriter (loggingResponseWriter W) := {|
  Header_Set k v lrw :=
    mkLogging (Header_Set k v (ResponseWriter_ lrw)) (statusCode lrw);
  Write c lrw := mkLogging (Write c (ResponseWriter_ lrw)) (statusCode lrw);
  WriteHeader code lrw :=
    mkLogging (WriteHeader code (ResponseWriter_ lrw)) code
|}.




(** ** The store of the tests *)

Record mockStore := mkMock {
  obj : option (list byte);
  ok : bool;
  err : option error
}.

#[global] Instance mockStore_ObjectStore : ObjectStore mockStore := {|
  Store o _ _ s := Some (mkMock o (ok s) (err s), (ok s, err s));
  Retrieve _ _ s := Some (obj s, ok s, err s);
  Delete _ _ s := Some (mkMock None (ok s) (err s), (ok s, err s))
|}.

End rest.

(** The two stores of the service as [ObjectStore]s; the file store in an
    environment [io]. *)
#[global] Instance MemStore_ObjectStore : rest.ObjectStore memstore.MemStore := {|
  rest.Store o objId bucketId s := Some (memstore.Store o objId bucketId s);
  rest.Retrieve objId bucketId s := Some (memstore.Retrieve objId bucketId s);
  rest.Delete objId bucketId s := Some (memstore.Delete objId bucketId s)
|}.

Definition FileStore_ObjectStore (io : env) : rest.ObjectStore world := {|
  rest.Store := Store io;
  rest.Retrieve := Retrieve io;
  rest.Delete := Delete io
|}.

(** A request as the tests of the handlers make it: [text/plain], the
    length of the body as its content length. *)
Definition test_request (method : string) (body : option (list byte))
  : rest.Request :=
  rest.mkRequest method "/objects/bid/oid" "text/plain"
    ((fun b => rest.mkBody b None) <$> body)
    (Z.of_nat (length (default [] body))).


(** * The command

    [cmd/objectstore-restapi]: the address the web server listens at, as
    [main] makes it from the configured [listen_address]. *)

Module main.

Definition defaultListenAddr : string := "0.0.0.0".
Definition defaultListenPort : Z := 8080.

(** [\w] of a Go regular expression: [[0-9A-Za-z_]]. *)
Definition word_char (c : ascii) : bool :=
  let n := nat_of_ascii c in
  ((48 <=? n) && (n <=? 57) || (65 <=? n) && (n <=? 90)
   || (97 <=? n) && (n <=? 122) || (n =? 95))%nat.

(** [[\w.-]] *)
Definition host_char (c : ascii) : bool :=
  let n := nat_of_ascii c in
  (word_char c || (n =? 46) || (n =? 45))%nat.

(** The longest prefix of [s] made of characters in [f], and the rest. *)
Fixpoint span (f : ascii -> bool) (s : string) : string * string :=
  match s with
  | String c s' =>
      if f c then let '(run, rest) := span f s' in (String c run, rest)
      else (EmptyString, s)
  | EmptyString => (EmptyString, EmptyString)
  end.

(** [listenAddrRe.FindStringSubmatch(s)] for
    [listenAddrRe = `([\w.-]+:)?([0-9]+)?`]: the two groups.  Both groups
    are optional, so the expression matches at the first character of [s],
    the empty string if nothing else, and that is the leftmost match.  The
    first group takes the longest run of [[\w.-]] when a colon follows it (a
    shorter run is followed by a character of the run, not by a colon); the
    second takes the digits that follow.  A group that takes no part in the
    match is the empty string. *)
Definition FindStringSubmatch (s : string) : string * string :=
  let '(run, rest) := span host_char s in
  let '(host, rest) :=
    match run, rest with
    | String _ _, String ":" rest' => (run +:+ ":", rest')
    | _, _ => (EmptyString, s)
    end in
  (host, (span is_digit rest).1).

(** The address [main] hands to the web server. *)
Definition serverAddr (rawListenAddress : string) : string :=
  let '(host, port) := FindStringSubmatch rawListenAddress in
  let host :=
    if String.eqb host "" then defaultListenAddr +:+ ":"
    else if String.eqb host "*:" then "0.0.0.0:"
    else host in
  let port :=
    if String.eqb port "" then fmt_d defaultListenPort  (* strconv.Itoa *)
    else port in
  host +:+ port.

End main.

(** * Properties *)

(** ** Machine integers *)

Lemma wrap64_small z : in_int64 z -> wrap64 z = z.
Proof.
  unfold in_int64, wrap64, min_int64, max_int64. intros H.
  rewrite Z.mod_small by lia. lia.
Qed.

Lemma add64_small a b : in_int64 (a + b) -> add64 a b = a + b.
Proof. apply wrap64_small. Qed.

Lemma sub64_small a b : in_int64 (a - b) -> sub64 a b = a - b.
Proof. apply wrap64_small. Qed.

Ltac zbool :=
  repeat match goal with
    | H : (_ <=? _) = true |- _ => apply Z.leb_le in H
    | H : (_ <=? _) = false |- _ => apply Z.leb_gt in H
    | H : (_ <? _) = true |- _ => apply Z.ltb_lt in H
    | H : (_ <? _) = false |- _ => apply Z.ltb_ge in H
    | H : (_ =? _) = true |- _ => apply Z.eqb_eq in H
    | H : (_ =? _) = false |- _ => apply Z.eqb_neq in H
    end.

Ltac zlia := zbool; lia.

Ltac int64 := unfold in_int64, min_int64, max_int64 in *; lia.

(** ** The model against the tests of the package *)

Example muIndex_testBucket1 : bucketIdToMutexIndex "testBucket1" = (8, None).
Proof. reflexivity. Qed.

Example muIndex_testBucket2 : bucketIdToMutexIndex "testBucket2" = (11, None).
Proof. reflexivity. Qed.

Example fmt_d_12 : fmt_d 12 = "12"%string.
Proof. reflexivity. Qed.

Example fmt_d_0 : fmt_d 0 = "0"%string.
Proof. reflexivity. Qed.

Example ParseInt_12 : ParseInt "12" = Ok 12.
Proof. reflexivity. Qed.

Example ParseInt_plus : ParseInt "+7" = Ok 7.
Proof. reflexivity. Qed.

Example ParseInt_neg : ParseInt "-1" = Ok (-1).
Proof. reflexivity. Qed.

Example ParseInt_bad : ParseInt "1x" = Err ErrParseSize.
Proof. reflexivity. Qed.

Example ParseInt_empty : ParseInt "" = Err ErrParseSize.
Proof. reflexivity. Qed.

Example ParseInt_range : ParseInt "9223372036854775808" = Err ErrParseSize.
Proof. reflexivity. Qed.

(** ** Strings and bytes *)

Lemma app_nil_s (t : string) : "" +:+ t = t.
Proof. reflexivity. Qed.

Lemma app_String c (s t : string) : String c s +:+ t = String c (s +:+ t).
Proof. reflexivity. Qed.

Lemma bytes_of_length s : length (bytes_of s) = String.length s.
Proof.
  unfold bytes_of, list_byte_of_string. rewrite List.length_map.
  induction s as [|c s IH]; simpl; congruence.
Qed.

Lemma bytes_of_app s t : bytes_of (s +:+ t) = bytes_of s ++ bytes_of t.
Proof.
  unfold bytes_of, list_byte_of_string.
  induction s as [|c s IH]; rewrite ?app_nil_s, ?app_String; simpl; [done|].
  by rewrite IH.
Qed.

Lemma bytes_of_String c s : bytes_of (String c s) = byte_of_ascii c :: bytes_of s.
Proof. reflexivity. Qed.

Lemma string_of_bytes_of s : string_of (bytes_of s) = s.
Proof. apply string_of_list_byte_of_string. Qed.

Lemma string_length_app s t :
  String.length (s +:+ t) = (String.length s + String.length t)%nat.
Proof.
  induction s as [|c s IH]; rewrite ?app_nil_s, ?app_String; simpl; congruence.
Qed.

Lemma string_app_assoc (s t u : string) : (s +:+ t) +:+ u = s +:+ (t +:+ u).
Proof.
  induction s as [|c s IH]; rewrite ?app_nil_s, ?app_String; congruence.
Qed.

Lemma string_app_inv_head (s t u : string) : s +:+ t = s +:+ u -> t = u.
Proof.
  induction s as [|c s IH]; rewrite ?app_nil_s, ?app_String; [done|].
  intros [= H]. auto.
Qed.

Lemma string_app_inv_tail (s t u : string) : s +:+ u = t +:+ u -> s = t.
Proof.
  intros H.
  assert (Hl : String.length s = String.length t).
  { apply (f_equal String.length) in H. rewrite !string_length_app in H. lia. }
  revert t H Hl. induction s as [|c s IH]; intros [|c' t]; simpl; try done.
  rewrite !app_String. intros [= -> H] [= Hl]. f_equal. auto.
Qed.

Lemma byte_eqb_refl b : Byte.eqb b b = true.
Proof. by apply Byte.byte_dec_lb. Qed.

Lemma byte_eqb_neq a b : a <> b -> Byte.eqb a b = false.
Proof.
  intros H. destruct (Byte.eqb a b) eqn:E; [|done].
  by apply Byte.byte_dec_bl in E.
Qed.

(** ** Identifiers *)

Lemma id_char_not_space c : id_char c = true -> byte_of_ascii c <> space.
Proof.
  destruct c as [[|] [|] [|] [|] [|] [|] [|] [|]]; vm_compute;
    intros H1; first [ discriminate H1 | intros H2; discriminate H2 | reflexivity ].
Qed.

Lemma id_char_not_slash c : id_char c = true -> Ascii.eqb c "/" = false.
Proof.
  destruct c as [[|] [|] [|] [|] [|] [|] [|] [|]]; vm_compute;
    intros H1; first [ discriminate H1 | intros H2; discriminate H2 | reflexivity ].
Qed.

Lemma all_id_chars_no_space s :
  all_chars id_char s = true -> space ∉ bytes_of s.
Proof.
  induction s as [|c s IH]; simpl.
  - intros _. apply not_elem_of_nil.
  - intros [Hc Hs]%andb_prop. rewrite bytes_of_String.
    apply not_elem_of_cons. split; [|auto].
    intros E. by apply (id_char_not_space c).
Qed.

Lemma valid_id_no_space s : valid_id s = true -> space ∉ bytes_of s.
Proof. intros [_ H]%andb_prop. by apply all_id_chars_no_space. Qed.

Lemma valid_id_no_slash s : valid_id s = true -> contains "/" s = false.
Proof.
  intros [_ H]%andb_prop. induction s as [|c s IH]; simpl in *; [done|].
  apply andb_prop in H as [Hc Hs]. by rewrite id_char_not_slash, IH.
Qed.

(** ** The length field *)

Lemma string_of_uint_digits d :
  all_chars is_digit (NilEmpty.string_of_uint d) = true.
Proof. induction d; simpl; auto. Qed.

Lemma is_digit_not_space c : is_digit c = true -> byte_of_ascii c <> space.
Proof.
  destruct c as [[|] [|] [|] [|] [|] [|] [|] [|]]; vm_compute;
    intros H1; first [ discriminate H1 | intros H2; discriminate H2 | reflexivity ].
Qed.

Lemma digits_no_space s : all_chars is_digit s = true -> space ∉ bytes_of s.
Proof.
  induction s as [|c s IH]; simpl.
  - intros _. apply not_elem_of_nil.
  - intros [Hc Hs]%andb_prop. rewrite bytes_of_String.
    apply not_elem_of_cons. split; [|auto].
    intros E. by apply (is_digit_not_space c).
Qed.

Lemma fmt_d_nonneg n :
  0 <= n ->
  exists d, d <> Decimal.Nil
    /\ fmt_d n = NilEmpty.string_of_uint d
    /\ Z.of_N (N.of_uint d) = n.
Proof.
  intros Hn. destruct n as [|p|p]; [| |lia].
  - exists (Decimal.D0 Decimal.Nil). by repeat split.
  - exists (Pos.to_uint p). split; [|split].
    + intros E. pose proof (DecimalPos.Unsigned.of_to p) as H.
      rewrite E in H. discriminate.
    + unfold fmt_d. simpl. unfold NilZero.string_of_uint.
      destruct (Pos.to_uint p) eqn:E; try reflexivity.
      pose proof (DecimalPos.Unsigned.of_to p) as H. rewrite E in H. discriminate.
    + unfold N.of_uint. by rewrite DecimalPos.Unsigned.of_to.
Qed.

Lemma fmt_d_no_space n : 0 <= n -> space ∉ bytes_of (fmt_d n).
Proof.
  intros (d & _ & -> & _)%fmt_d_nonneg.
  apply digits_no_space, string_of_uint_digits.
Qed.

Lemma ParseInt_fmt_d n : 0 <= n <= max_int64 -> ParseInt (fmt_d n) = Ok n.
Proof.
  intros [Hn Hmax]. destruct (fmt_d_nonneg n Hn) as (d & Hd & -> & Hv).
  unfold ParseInt.
  assert (Hu := NilEmpty.usu d).
  destruct d; try done; simpl in *; rewrite NilEmpty.usu in *; simpl;
    rewrite Hv; (destruct (n <=? max_int64) eqn:E; [done|zlia]).
Qed.

(** ** Reading up to a delimiter *)

Lemma read_until_app delim l rest :
  delim ∉ l ->
  read_until delim (l ++ delim :: rest) = Some (l ++ [delim], rest).
Proof.
  induction l as [|b l IH]; simpl; intros H.
  - by rewrite byte_eqb_refl.
  - apply not_elem_of_cons in H as [Hb Hl].
    rewrite byte_eqb_neq by done. by rewrite IH.
Qed.

Lemma read_until_None delim l : delim ∉ l -> read_until delim l = None.
Proof.
  induction l as [|b l IH]; simpl; intros H; [done|].
  apply not_elem_of_cons in H as [Hb Hl].
  rewrite byte_eqb_neq by done. by rewrite IH.
Qed.

Lemma read_until_length delim r line rest :
  read_until delim r = Some (line, rest) ->
  (length r = length line + length rest)%nat /\ (0 < length line)%nat.
Proof.
  revert line rest. induction r as [|b r IH]; simpl; intros line rest; [done|].
  destruct (Byte.eqb b delim).
  - intros [= <- <-]. simpl. lia.
  - destruct (read_until delim r) as [[l' r']|]; [|done].
    intros [= <- <-]. destruct (IH _ _ eq_refl). simpl. lia.
Qed.

Lemma chop_app l (b : byte) : chop (l ++ [b]) = l.
Proof.
  unfold chop. rewrite length_app. simpl.
  replace (length l + 1 - 1)%nat with (length l) by lia.
  by rewrite take_app_length.
Qed.
(** ** Records and chains *)

Lemma e_size_nonneg e : 0 <= e_size e.
Proof. unfold e_size. lia. Qed.

Lemma meta_str_length e :
  Z.of_nat (String.length (meta_str e)) = e_metaSize e + 1.
Proof. unfold e_metaSize. lia. Qed.

Lemma e_metaSize_pos e : 2 <= e_metaSize e.
Proof.
  unfold e_metaSize, meta_str. rewrite !string_length_app. simpl.
  destruct (fmt_d_nonneg (e_size e) (e_size_nonneg e)) as (d & Hd & -> & _).
  destruct d; try done; simpl; lia.
Qed.

Lemma record_length e : Z.of_nat (length (record_of e)) = e_len e.
Proof.
  unfold record_of, e_len. rewrite !length_app, bytes_of_length. simpl.
  pose proof (meta_str_length e). unfold e_size. lia.
Qed.

Lemma e_len_pos e : 4 <= e_len e.
Proof.
  unfold e_len. pose proof (e_metaSize_pos e). pose proof (e_size_nonneg e). lia.
Qed.

Lemma total_len_nil : total_len [] = 0.
Proof. reflexivity. Qed.

Lemma total_len_cons e es : total_len (e :: es) = e_len e + total_len es.
Proof.
  unfold total_len. simpl. rewrite length_app, <- record_length. lia.
Qed.

Lemma file_of_app es1 es2 : file_of (es1 ++ es2) = file_of es1 ++ file_of es2.
Proof.
  induction es1 as [|e es1 IH]; simpl; [done|]. by rewrite IH, <- app_assoc.
Qed.

Lemma total_len_app es1 es2 :
  total_len (es1 ++ es2) = total_len es1 + total_len es2.
Proof. unfold total_len. rewrite file_of_app, length_app. lia. Qed.

Lemma total_len_nonneg es : 0 <= total_len es.
Proof. unfold total_len. lia. Qed.

Lemma total_len_pos es : es <> [] -> 4 <= total_len es.
Proof.
  destruct es as [|e es]; [done|]. intros _. rewrite total_len_cons.
  pose proof (e_len_pos e). pose proof (total_len_nonneg es). lia.
Qed.

Lemma hd_ptr_app es1 es2 nxt :
  hd_ptr (es1 ++ es2) nxt = hd_ptr es1 (hd_ptr es2 nxt).
Proof. by destruct es1. Qed.

Lemma last_ptr_nil dflt : last_ptr [] dflt = dflt.
Proof. reflexivity. Qed.

Lemma last_ptr_snoc es e dflt : last_ptr (es ++ [e]) dflt = Some (e_ptr e).
Proof. unfold last_ptr. by rewrite last_snoc. Qed.

Lemma last_ptr_cons e es dflt :
  last_ptr (e :: es) dflt = last_ptr es (Some (e_ptr e)).
Proof.
  unfold last_ptr. destruct es as [|e' es]; [done|].
  rewrite last_cons_cons. destruct (last (e' :: es)) eqn:E; [done|].
  by apply last_None in E.
Qed.

Lemma last_ptr_app es1 es2 dflt :
  last_ptr (es1 ++ es2) dflt = last_ptr es2 (last_ptr es1 dflt).
Proof.
  revert dflt. induction es1 as [|e es1 IH]; intros dflt; simpl; [done|].
  by rewrite !last_ptr_cons, IH.
Qed.

Lemma chain_app a prv off es1 es2 nxt :
  chain a prv off (es1 ++ es2) nxt
  <-> chain a prv off es1 (hd_ptr es2 nxt)
      /\ chain a (last_ptr es1 prv) (off + total_len es1) es2 nxt.
Proof.
  revert prv off. induction es1 as [|e es1 IH]; intros prv off; simpl.
  - rewrite total_len_nil, Z.add_0_r, last_ptr_nil. tauto.
  - rewrite IH, hd_ptr_app, last_ptr_cons, total_len_cons, Z.add_assoc. tauto.
Qed.

(** A chain only looks at its own nodes. *)
Lemma chain_frame a a' prv off es nxt :
  (forall e, e ∈ es -> a' !! e_ptr e = a !! e_ptr e) ->
  chain a prv off es nxt -> chain a' prv off es nxt.
Proof.
  revert prv off. induction es as [|e es IH]; intros prv off Hf; simpl; [done|].
  intros [He Hes]. split.
  - rewrite Hf; [done|]. apply elem_of_cons. by left.
  - apply IH; [|done]. intros e' He'. apply Hf, elem_of_cons. by right.
Qed.

Lemma chain_lookup a prv off es nxt e :
  chain a prv off es nxt -> e ∈ es -> is_Some (a !! e_ptr e).
Proof.
  revert prv off. induction es as [|e' es IH]; intros prv off; simpl.
  - intros _ H. by apply elem_of_nil in H.
  - intros [He Hes] [->|H]%elem_of_cons; [by eexists|]. eauto.
Qed.

Lemma chain_ptr_lt a prv off es nxt p :
  chain a prv off es nxt -> p ∈ e_ptr <$> es -> (p < length a)%nat.
Proof.
  intros Hc (e & -> & He)%list_elem_of_fmap.
  destruct (chain_lookup _ _ _ _ _ _ Hc He) as [om Hom].
  by apply lookup_lt_Some in Hom.
Qed.

Lemma NoDup_lt_length (l : list nat) n :
  NoDup l -> (forall x, x ∈ l -> (x < n)%nat) -> (length l <= n)%nat.
Proof.
  intros Hnd Hlt.
  assert (l ⊆+ seq 0 n) as Hsub.
  { apply NoDup_submseteq; [done|]. intros x Hx. apply elem_of_seq.
    specialize (Hlt x Hx). lia. }
  apply submseteq_length in Hsub. by rewrite length_seq in Hsub.
Qed.

Lemma chain_length a prv off es nxt :
  NoDup (e_ptr <$> es) -> chain a prv off es nxt -> (length es <= length a)%nat.
Proof.
  intros Hnd Hc. rewrite <- (length_fmap e_ptr es).
  apply NoDup_lt_length; [done|]. intros x Hx. by eapply chain_ptr_lt.
Qed.

(** Writing the [next] link of the last node of a chain. *)
Lemma chain_set_last_next a prv off es e nxt nxt' :
  NoDup (e_ptr <$> (es ++ [e])) ->
  chain a prv off (es ++ [e]) nxt ->
  chain (alter (set_next nxt') (e_ptr e) a) prv off (es ++ [e]) nxt'.
Proof.
  intros Hnd Hc. apply chain_app in Hc as [H1 H2]. apply chain_app. split.
  - eapply chain_frame; [|exact H1]. intros e' He'.
    apply list_lookup_alter_ne. intros E.
    rewrite fmap_app in Hnd. apply NoDup_app in Hnd as (_ & Hd & _).
    apply (Hd (e_ptr e')); [by apply list_elem_of_fmap_2|].
    simpl. apply list_elem_of_singleton. done.
  - simpl in *. destruct H2 as [H2 _]. split; [|done].
    rewrite list_lookup_alter_eq, H2. done.
Qed.

(** Writing the [prev] link of the first node of a chain. *)
Lemma chain_set_head_prev a prv off e es nxt prv' :
  NoDup (e_ptr <$> (e :: es)) ->
  chain a prv off (e :: es) nxt ->
  chain (alter (set_prev prv') (e_ptr e) a) prv' off (e :: es) nxt.
Proof.
  intros Hnd [He Hes]. split.
  - rewrite list_lookup_alter_eq, He. done.
  - eapply chain_frame; [|exact Hes]. intros e' He'.
    apply list_lookup_alter_ne. intros E.
    rewrite fmap_cons in Hnd. apply NoDup_cons in Hnd as [Hn _].
    apply Hn. rewrite E. by apply list_elem_of_fmap_2.
Qed.

(** The loop over the rest of a chain moves every offset by [f]. *)
Lemma walk_offsets_chain (f : Z -> Z) (delta : Z) es :
  forall a prv off fuel,
    NoDup (e_ptr <$> es) ->
    chain a prv off es None ->
    (length es <= fuel)%nat ->
    (forall x, off <= x <= off + total_len es -> f x = x + delta) ->
    exists a',
      walk_offsets fuel a (hd_ptr es None) f = Some a'
      /\ chain a' prv (off + delta) es None
      /\ length a' = length a
      /\ forall p, p ∉ e_ptr <$> es -> a' !! p = a !! p.
Proof.
  induction es as [|e es IH]; intros a prv off fuel Hnd Hc Hfuel Hf.
  - exists a. by destruct fuel.
  - destruct Hc as [He Hes]. simpl in Hfuel.
    destruct fuel as [|fuel]; [lia|]. simpl. rewrite He. simpl.
    rewrite fmap_cons in Hnd. apply NoDup_cons in Hnd as [Hn Hnd].
    rewrite total_len_cons in Hf.
    pose proof (e_len_pos e). pose proof (total_len_nonneg es).
    set (a1 := <[e_ptr e := _]> a).
    destruct (IH a1 (Some (e_ptr e)) (off + e_len e) fuel) as (a' & Hw & Hc' & Hl & Hfr).
    + done.
    + eapply chain_frame; [|exact Hes]. intros e' He'. unfold a1.
      apply list_lookup_insert_ne. intros E. apply Hn. rewrite E.
      by apply list_elem_of_fmap_2.
    + lia.
    + intros x Hx. apply Hf. lia.
    + exists a'. split; [|split; [|split]].
      * destruct es; exact Hw.
      * split.
        -- rewrite Hfr by done. unfold a1. rewrite list_lookup_insert_eq.
           ++ unfold set_offset. simpl. rewrite Hf by lia. done.
           ++ by apply lookup_lt_Some in He.
        -- replace (off + delta + e_len e) with (off + e_len e + delta) by lia.
           done.
      * rewrite Hl. unfold a1. by rewrite length_insert.
      * intros p Hp. apply not_elem_of_cons in Hp as [Hp1 Hp2].
        rewrite Hfr by done. unfold a1. by rewrite list_lookup_insert_ne.
Qed.
(** ** Writing to the temporary file *)

Lemma file_Write_cases io c file data :
  (file_Write io c file data = Ok (file ++ data)
   /\ io c = true /\ Z.of_nat (length (file ++ data)) <= max_int64)
  \/ file_Write io c file data = Err (ErrOs c).
Proof.
  unfold file_Write. destruct (io c); simpl; [|by right].
  destruct (Z.of_nat (length file + length data) <=? max_int64) eqn:E.
  - left. rewrite length_app. repeat split. zlia.
  - by right.
Qed.

Lemma file_Write_ok io c file data :
  io c = true ->
  Z.of_nat (length (file ++ data)) <= max_int64 ->
  file_Write io c file data = Ok (file ++ data).
Proof.
  intros Hio Hfit. unfold file_Write. rewrite Hio. simpl.
  rewrite length_app in Hfit.
  destruct (Z.of_nat (length file + length data) <=? max_int64) eqn:E; [done|zlia].
Qed.

Ltac file_writes H :=
  repeat match type of H with
    | context [file_Write ?io ?c ?f ?d] =>
        let Hio := fresh "Hio" in
        let Hfit := fresh "Hfit" in
        let E := fresh "E" in
        destruct (file_Write_cases io c f d) as [(E & Hio & Hfit)|E];
        rewrite E in H; simpl in H; [|discriminate H]; clear E
    end.

Lemma remaining_app before after :
  remaining (before ++ after) (Z.of_nat (length before)) = after.
Proof. unfold remaining. by rewrite Nat2Z.id, drop_app_length. Qed.

Lemma remaining_0 content : remaining content 0 = content.
Proof. reflexivity. Qed.

(** Copying a chunk that is there. *)
Lemma io_CopyN_chunk io c file before chunk after :
  chunk <> [] ->
  io_CopyN io c file (before ++ chunk ++ after) (Z.of_nat (length before))
    (Z.of_nat (length chunk))
  = do file <- file_Write io c file chunk;
    Ok (file, Z.of_nat (length before) + Z.of_nat (length chunk)).
Proof.
  intros Hne. unfold io_CopyN.
  assert (0 < length chunk)%nat by (destruct chunk; [done|simpl; lia]).
  destruct (Z.of_nat (length chunk) <=? 0) eqn:E; [zlia|].
  rewrite remaining_app, length_app.
  destruct (Z.of_nat (length chunk + length after) <? Z.of_nat (length chunk))
    eqn:E'; [zlia|].
  by rewrite Nat2Z.id, take_app_length.
Qed.

Lemma slice_len_Some data p o :
  slice_len (Some data) = e_size (mkEntry p o data).
Proof. reflexivity. Qed.

(** What [appendObjectToBucketFile] has done when it reports no error. *)
Lemma append_Ok_inv io data o file off file' off' ms sz p :
  appendObjectToBucketFile io (Some data) o file off = Ok (file', (off', ms, sz)) ->
  let e := mkEntry p o data in
  file' = file ++ record_of e
  /\ off' = (if off <? 0 then Z.of_nat (length file) else off)
  /\ ms = e_metaSize e /\ sz = e_size e
  /\ Z.of_nat (length file') <= max_int64.
Proof.
  intros H e. unfold appendObjectToBucketFile in H.
  assert (Hoff : exists o1, (if off <? 0
             then if io SysStat then Ok (Z.of_nat (length file))
                  else Err (ErrOs SysStat)
             else Ok off) = Ok o1
           /\ o1 = (if off <? 0 then Z.of_nat (length file) else off)).
  { destruct (off <? 0); [|by eexists].
    destruct (io SysStat); [by eexists|]. simpl in H. discriminate H. }
  destruct Hoff as (o1 & Eo & Ho1). rewrite Eo in H. simpl in H.
  file_writes H. injection H as <- <- <- <-.
  repeat split; try done.
  unfold record_of, e, meta_str, e_size. simpl.
  by rewrite <- !app_assoc.
Qed.


Lemma same_size_same_meta e e' :
  e_id e' = e_id e -> e_size e' = e_size e -> meta_str e' = meta_str e.
Proof. unfold meta_str. by intros -> ->. Qed.

Lemma in_int64_range z : 0 <= z <= max_int64 -> in_int64 z.
Proof. unfold in_int64, min_int64, max_int64. lia. Qed.

(** What [replaceObjectInBucketFile] has done when it reports no error. *)
Lemma replace_Ok_inv io d obj om bfName es1 e es2 tmp nm ns :
  d !! bfName = Some (file_of (es1 ++ e :: es2)) ->
  total_len (es1 ++ e :: es2) <= max_int64 ->
  describes om es1 e ->
  replaceObjectInBucketFile io d obj (e_id e) om bfName [] = Ok (tmp, (nm, ns)) ->
  match obj with
  | Some data =>
      let e' := mkEntry (e_ptr e) (e_id e) data in
      tmp = file_of (es1 ++ e' :: es2)
      /\ total_len (es1 ++ e' :: es2) <= max_int64
      /\ ns = e_size e'
      /\ (e_size e' <> e_size e -> nm = e_metaSize e')
  | None =>
      tmp = file_of (es1 ++ es2) /\ ns = 0
  end.
Proof.
  intros Hd Hfit (Hoff & Hsz & Hms) H.
  unfold replaceObjectInBucketFile, os_Open in H. rewrite Hd in H.
  destruct (io SysOpen); [|discriminate H]. simpl in H.
  rewrite total_len_app, total_len_cons in Hfit.
  pose proof (total_len_nonneg es1). pose proof (total_len_nonneg es2).
  pose proof (e_len_pos e). pose proof (e_metaSize_pos e).
  pose proof (e_size_nonneg e).
  assert (Hlen : e_len e = e_metaSize e + e_size e + 2) by done.
  (* the bytes before the object *)
  destruct (io_CopyN io SysCopyPrefix [] (file_of (es1 ++ e :: es2)) 0
              (offset om)) as [[f1 pos]|] eqn:E1; [|discriminate H].
  assert (f1 = file_of es1 /\ pos = total_len es1) as [-> ->].
  { rewrite Hoff in E1. unfold io_CopyN in E1.
    destruct (total_len es1 <=? 0) eqn:E0.
    - injection E1 as <- <-. assert (es1 = []) as ->.
      { destruct es1; [done|]. pose proof (total_len_pos (e0 :: es1)).
        assert (4 <= total_len (e0 :: es1)) by auto. zlia. }
      done.
    - rewrite remaining_0 in E1.
      destruct (_ <? _); [by destruct (io SysCopyPrefix)|].
      file_writes E1. injection E1 as <- <-.
      unfold total_len. rewrite Nat2Z.id, file_of_app, take_app_length.
      split; [done|lia]. }
  simpl in H. rewrite Hoff, Hsz, Hms in H.
  rewrite (add64_small (e_metaSize e) 1) in H by (apply in_int64_range; lia).
  rewrite (add64_small (total_len es1) (e_metaSize e)) in H
    by (apply in_int64_range; lia).
  rewrite (add64_small (total_len es1 + e_metaSize e) (e_size e)) in H
    by (apply in_int64_range; lia).
  rewrite (add64_small (total_len es1 + e_metaSize e + e_size e) 2) in H
    by (apply in_int64_range; lia).
  assert (Hcontent : file_of (es1 ++ e :: es2)
            = file_of es1 ++ record_of e ++ file_of es2).
  { by rewrite file_of_app. }
  assert (Hrest : remaining (file_of (es1 ++ e :: es2))
            (total_len es1 + e_metaSize e + e_size e + 2) = file_of es2).
  { rewrite Hcontent, app_assoc.
    replace (total_len es1 + e_metaSize e + e_size e + 2)
      with (Z.of_nat (length (file_of es1 ++ record_of e))).
    - apply remaining_app.
    - rewrite length_app, Nat2Z.inj_add, record_length. unfold total_len. lia. }
  destruct (0 <? total_len es1 + e_metaSize e + e_size e + 2) eqn:Epos; [|zlia].
  destruct obj as [data|].
  - (* replace *)
    set (e' := mkEntry (e_ptr e) (e_id e) data).
    change (slice_len (Some data)) with (e_size e') in H.
    destruct (e_size e' =? e_size e) eqn:Esz; simpl in H.
    + (* same size: copy the old metadata *)
      apply Z.eqb_eq in Esz.
      assert (Hmeta : meta_str e' = meta_str e) by (by apply same_size_same_meta).
      replace (e_metaSize e + 1) with (Z.of_nat (length (bytes_of (meta_str e))))
        in H by (rewrite bytes_of_length; apply meta_str_length).
      unfold total_len in H at 1.
      rewrite Hcontent in H at 1. unfold record_of in H at 1.
      rewrite <- (app_assoc (bytes_of (meta_str e))) in H.
      rewrite io_CopyN_chunk in H.
      2:{ intros E. apply (f_equal length) in E.
          rewrite bytes_of_length in E. simpl in E.
          pose proof (meta_str_length e). lia. }
      file_writes H. simpl in H.
      destruct (io SysSeek); simpl in H; [|discriminate H].
      unfold io_Copy in H. rewrite Hrest in H. file_writes H.
      injection H as <- <- <-.
      assert (Htmp : (((file_of es1 ++ bytes_of (meta_str e)) ++ data)
                       ++ [separator]) ++ file_of es2
                     = file_of (es1 ++ e' :: es2)).
      { rewrite file_of_app.
        change (file_of (e' :: es2)) with (record_of e' ++ file_of es2).
        unfold record_of. rewrite Hmeta. simpl. by rewrite <- !app_assoc. }
      rewrite Htmp in *. repeat split; try done.
    + (* another size: insert the new object *)
      apply Z.eqb_neq in Esz.
      destruct (appendObjectToBucketFile io (Some data) (e_id e)
                  (file_of es1) (total_len es1))
        as [[f2 [[o2 m2] s2]]|] eqn:Ea; [|discriminate H].
      apply (append_Ok_inv _ _ _ _ _ _ _ _ _ (e_ptr e)) in Ea
        as (-> & _ & -> & _ & _).
      simpl in H. destruct (io SysSeek); simpl in H; [|discriminate H].
      unfold io_Copy in H. rewrite Hrest in H. file_writes H.
      injection H as <- <- <-.
      assert (Htmp : (file_of es1 ++ record_of e') ++ file_of es2
                     = file_of (es1 ++ e' :: es2)).
      { rewrite file_of_app. simpl. by rewrite <- !app_assoc. }
      fold e' in Hfit0. rewrite Htmp in *. repeat split; try done.
  - (* delete *)
    simpl in H. destruct (io SysSeek); simpl in H; [|discriminate H].
    unfold io_Copy in H. rewrite Hrest in H. file_writes H.
    injection H as <- <- <-. by rewrite file_of_app.
Qed.

(** Deleting a record from the file succeeds when no call fails. *)
Lemma replace_delete_ok io d o om bfName es1 e es2 :
  io SysOpen = true -> io SysCopyPrefix = true -> io SysSeek = true ->
  io SysCopy = true ->
  d !! bfName = Some (file_of (es1 ++ e :: es2)) ->
  total_len (es1 ++ e :: es2) <= max_int64 ->
  describes om es1 e ->
  exists nm,
    replaceObjectInBucketFile io d None o om bfName []
    = Ok (file_of (es1 ++ es2), (nm, 0)).
Proof.
  intros Hopen Hpre Hseek Hcopy Hd Hfit (Hoff & Hsz & Hms).
  unfold replaceObjectInBucketFile, os_Open. rewrite Hd, Hopen. simpl.
  rewrite total_len_app, total_len_cons in Hfit.
  pose proof (total_len_nonneg es1). pose proof (total_len_nonneg es2).
  pose proof (e_len_pos e). pose proof (e_metaSize_pos e).
  pose proof (e_size_nonneg e).
  assert (Hlen : e_len e = e_metaSize e + e_size e + 2) by done.
  assert (E1 : io_CopyN io SysCopyPrefix [] (file_of (es1 ++ e :: es2)) 0
                 (offset om) = Ok (file_of es1, total_len es1)).
  { rewrite Hoff. unfold io_CopyN.
    destruct (total_len es1 <=? 0) eqn:E0.
    - assert (es1 = []) as ->.
      { destruct es1; [done|].
        assert (4 <= total_len (e0 :: es1)) by (by apply total_len_pos). zlia. }
      done.
    - rewrite remaining_0.
      destruct (_ <? _) eqn:E;
        [unfold total_len in E; rewrite file_of_app, length_app in E; zlia|].
      unfold total_len at 1.
      rewrite Nat2Z.id, file_of_app, take_app_length.
      rewrite file_Write_ok; [done|done|]. simpl. fold (total_len es1). lia. }
  rewrite E1. simpl. rewrite Hoff, Hsz, Hms.
  rewrite (add64_small (total_len es1) (e_metaSize e))
    by (apply in_int64_range; lia).
  rewrite (add64_small (total_len es1 + e_metaSize e) (e_size e))
    by (apply in_int64_range; lia).
  rewrite (add64_small (total_len es1 + e_metaSize e + e_size e) 2)
    by (apply in_int64_range; lia).
  destruct (0 <? total_len es1 + e_metaSize e + e_size e + 2) eqn:Epos; [|zlia].
  rewrite Hseek. simpl. unfold io_Copy.
  assert (Hrest : remaining (file_of (es1 ++ e :: es2))
            (total_len es1 + e_metaSize e + e_size e + 2) = file_of es2).
  { rewrite file_of_app. simpl. rewrite app_assoc.
    replace (total_len es1 + e_metaSize e + e_size e + 2)
      with (Z.of_nat (length (file_of es1 ++ record_of e))).
    - apply remaining_app.
    - rewrite length_app, Nat2Z.inj_add, record_length. unfold total_len. lia. }
  rewrite Hrest, file_Write_ok; [|done|].
  - simpl. rewrite file_of_app. by eexists.
  - rewrite <- file_of_app. fold (total_len (es1 ++ es2)).
    rewrite total_len_app. lia.
Qed.
(** ** The index of a bucket *)

Lemma index_of_keys es : (index_of es).*1 = e_id <$> es.
Proof. unfold index_of. rewrite <- list_fmap_compose. done. Qed.

Lemma index_of_app es1 es2 : index_of (es1 ++ es2) = index_of es1 ++ index_of es2.
Proof. apply fmap_app. Qed.

Lemma index_lookup_Some es o p :
  NoDup (e_id <$> es) ->
  (list_to_map (index_of es) : gmap string ptr) !! o = Some p <->
  exists e, e ∈ es /\ e_id e = o /\ e_ptr e = p.
Proof.
  intros Hnd. rewrite <- elem_of_list_to_map by (by rewrite index_of_keys).
  unfold index_of. rewrite list_elem_of_fmap. split.
  - intros (e & [= -> ->] & He). eauto.
  - intros (e & He & <- & <-). eauto.
Qed.

Lemma index_lookup_None es o :
  (list_to_map (index_of es) : gmap string ptr) !! o = None <-> o ∉ e_id <$> es.
Proof. rewrite <- not_elem_of_list_to_map, index_of_keys. done. Qed.

Lemma index_split es o p :
  NoDup (e_id <$> es) ->
  (list_to_map (index_of es) : gmap string ptr) !! o = Some p ->
  exists es1 e es2, es = es1 ++ e :: es2 /\ e_id e = o /\ e_ptr e = p.
Proof.
  intros Hnd (e & He & Ho & Hp)%index_lookup_Some; [|done].
  apply list_elem_of_split in He as (es1 & es2 & ->). eauto 6.
Qed.

Lemma index_size es :
  NoDup (e_id <$> es) ->
  base.size (list_to_map (index_of es) : gmap string ptr) = length es.
Proof.
  intros Hnd. rewrite map_size_list_to_map by (by rewrite index_of_keys).
  unfold index_of. by rewrite length_fmap.
Qed.

Lemma index_snoc es e :
  e_id e ∉ e_id <$> es ->
  (list_to_map (index_of (es ++ [e])) : gmap string ptr)
  = <[e_id e := e_ptr e]> (list_to_map (index_of es)).
Proof.
  intros Hn. rewrite index_of_app. simpl.
  apply list_to_map_snoc. by rewrite index_of_keys.
Qed.

Lemma index_delete es1 e es2 :
  NoDup (e_id <$> (es1 ++ e :: es2)) ->
  delete (e_id e) (list_to_map (index_of (es1 ++ e :: es2)) : gmap string ptr)
  = list_to_map (index_of (es1 ++ es2)).
Proof.
  intros Hnd. apply map_eq. intros k.
  assert (Hnd' : NoDup (e_id <$> (es1 ++ es2))).
  { rewrite fmap_app in *. simpl in Hnd.
    apply NoDup_app in Hnd as (H1 & H2 & H3). apply NoDup_cons in H3 as [_ H3].
    apply NoDup_app. split; [done|]. split; [|done].
    intros x Hx Hx'. apply (H2 x Hx). by right. }
  assert (Hnotin : e_id e ∉ e_id <$> (es1 ++ es2)).
  { rewrite fmap_app in *. simpl in Hnd.
    apply NoDup_app in Hnd as (H1 & H2 & H3). apply NoDup_cons in H3 as [H3 _].
    apply not_elem_of_app. split; [|done].
    intros Hx. apply (H2 _ Hx). by left. }
  destruct (decide (k = e_id e)) as [->|Hk].
  - rewrite lookup_delete_eq. symmetry. by apply index_lookup_None.
  - rewrite lookup_delete_ne by done.
    apply option_eq. intros p. rewrite !index_lookup_Some by done.
    split; intros (e0 & He0 & Hid & Hp); exists e0; repeat split; try done.
    + apply elem_of_app in He0 as [?|[->|?]%elem_of_cons]; [| done |];
        apply elem_of_app; auto.
    + apply elem_of_app in He0 as [?|?]; apply elem_of_app; [auto|].
      right. by right.
Qed.

Lemma index_replace es1 e e' es2 :
  e_id e' = e_id e -> e_ptr e' = e_ptr e ->
  index_of (es1 ++ e' :: es2) = index_of (es1 ++ e :: es2).
Proof. intros Hid Hp. rewrite !index_of_app. simpl. by rewrite Hid, Hp. Qed.

(** The node of a record in the middle of the chain. *)
Lemma chain_middle a es1 e es2 :
  chain a None 0 (es1 ++ e :: es2) None ->
  a !! e_ptr e
  = Some (mkObject (total_len es1) (e_size e) (e_metaSize e)
            (last_ptr es1 None) (hd_ptr es2 None)).
Proof. intros [_ [H _]]%chain_app. exact H. Qed.

Lemma NoDup_ptrs_middle es1 e es2 :
  NoDup (e_ptr <$> (es1 ++ e :: es2)) ->
  NoDup (e_ptr <$> es1) /\ NoDup (e_ptr <$> es2)
  /\ (e_ptr e ∉ e_ptr <$> es1) /\ (e_ptr e ∉ e_ptr <$> es2)
  /\ (forall p, p ∈ e_ptr <$> es1 -> p ∉ e_ptr <$> es2).
Proof.
  rewrite fmap_app. simpl. intros (H1 & H2 & H3)%NoDup_app.
  apply NoDup_cons in H3 as [H3 H4]. repeat split; try done.
  - intros Hx. apply (H2 _ Hx). by left.
  - intros p Hp Hp'. apply (H2 _ Hp). by right.
Qed.
(** ** The metadata updates keep the chain in step with the file *)

Lemma bucket_inv_node sp d b bm es1 e es2 :
  bucket_inv sp d b bm (es1 ++ e :: es2) ->
  arena bm !! e_ptr e
  = Some (mkObject (total_len es1) (e_size e) (e_metaSize e)
            (last_ptr es1 None) (hd_ptr es2 None)).
Proof. intros [? ? ? ? ? ? ? Hc ? ?]. by apply chain_middle. Qed.

Lemma fresh_ptr a prv off es nxt :
  chain a prv off es nxt -> length a ∉ e_ptr <$> es.
Proof. intros Hc Hin. eapply chain_ptr_lt in Hin; [|done]. lia. Qed.

Lemma chain_grow a node prv off es nxt :
  chain a prv off es nxt -> chain (a ++ [node]) prv off es nxt.
Proof.
  intros Hc. eapply chain_frame; [|exact Hc]. intros e He.
  apply lookup_app_l. eapply chain_ptr_lt; [done|]. by apply list_elem_of_fmap_2.
Qed.

(** Linking a new node after the last node of a chain. *)
Lemma chain_link a es e :
  NoDup (e_ptr <$> es) ->
  chain a None 0 es None ->
  e_ptr e = length a ->
  let node :=
    mkObject (total_len es) (e_size e) (e_metaSize e) (last_ptr es None) None in
  chain
    match last_ptr es None with
    | Some l => alter (set_next (Some (length a))) l (a ++ [node])
    | None => a ++ [node]
    end None 0 (es ++ [e]) None.
Proof.
  intros Hptrs Hchain Hp node.
  assert (Hfresh : length a ∉ e_ptr <$> es) by (by eapply fresh_ptr).
  destruct es as [|e0 es0 _] using rev_ind.
  - simpl. split; [|done]. rewrite Hp, lookup_app_r by done.
    by rewrite Nat.sub_diag.
  - rewrite last_ptr_snoc. apply chain_app. split.
    + simpl. rewrite Hp. apply (chain_set_last_next _ _ _ _ _ None); [done|].
      by apply chain_grow.
    + simpl. split; [|done]. rewrite Hp, list_lookup_alter_ne.
      * rewrite lookup_app_r by done. rewrite Nat.sub_diag. simpl.
        unfold node. by rewrite last_ptr_snoc, Z.add_0_l.
      * intros E. apply Hfresh. rewrite <- E, fmap_app. apply elem_of_app.
        right. simpl. by left.
Qed.

(** A new object becomes the last node of the chain. *)
Lemma link_new_object_inv sp d d' b bm es o data :
  bucket_inv sp d b bm es ->
  objects bm !! o = None ->
  valid_id o = true ->
  let e := mkEntry (length (arena bm)) o data in
  total_len (es ++ [e]) <= max_int64 ->
  d' !! filePath bm = Some (file_of (es ++ [e])) ->
  bucket_inv sp d' b
    (link_new_object bm o (total_len es) (e_metaSize e) (e_size e))
    (es ++ [e]).
Proof.
  intros [Hpath Hmu Hids Hptrs Hvalid Hobjs Hlast Hchain Hfile Hfits]
    Hnew Hvo e Hfit Hd'.
  assert (Hfresh : length (arena bm) ∉ e_ptr <$> es) by (by eapply fresh_ptr).
  assert (Hnotin : o ∉ e_id <$> es).
  { apply index_lookup_None. by rewrite <- Hobjs. }
  split; simpl; try done.
  - rewrite fmap_app. apply NoDup_app. split; [done|]. split.
    + intros x Hx [->|[]%elem_of_nil]%elem_of_cons. done.
    + apply NoDup_singleton.
  - rewrite fmap_app. apply NoDup_app. split; [done|]. split.
    + intros x Hx [->|[]%elem_of_nil]%elem_of_cons. done.
    + apply NoDup_singleton.
  - apply Forall_app. split; [done|]. by apply Forall_singleton.
  - rewrite Hobjs. symmetry. exact (index_snoc es e Hnotin).
  - by rewrite last_ptr_snoc.
  - rewrite Hlast. by apply (chain_link (arena bm) es e).
  - by rewrite Hd'.
Qed.

Lemma chain_same_sizes a prv off es1 e e' es2 nxt :
  e_ptr e' = e_ptr e -> e_size e' = e_size e -> e_metaSize e' = e_metaSize e ->
  chain a prv off (es1 ++ e :: es2) nxt ->
  chain a prv off (es1 ++ e' :: es2) nxt.
Proof.
  intros Hp Hs Hm. rewrite !chain_app. simpl. unfold e_len.
  rewrite Hp, Hs, Hm. tauto.
Qed.

(** A replaced object keeps its node; the nodes after it move by the
    difference of the encoded sizes. *)
Lemma update_replaced_inv sp d d' b bm es1 e es2 om data nm :
  bucket_inv sp d b bm (es1 ++ e :: es2) ->
  arena bm !! e_ptr e = Some om ->
  let e' := mkEntry (e_ptr e) (e_id e) data in
  total_len (es1 ++ e' :: es2) <= max_int64 ->
  (e_size e' <> e_size e -> nm = e_metaSize e') ->
  d' !! filePath bm = Some (file_of (es1 ++ e' :: es2)) ->
  exists bm',
    update_replaced_object bm (e_ptr e) om nm (e_size e') = Some bm'
    /\ bucket_inv sp d' b bm' (es1 ++ e' :: es2).
Proof.
  intros Hinv Hom e' Hfit Hnm Hd'.
  pose proof (bucket_inv_node _ _ _ _ _ _ _ Hinv) as Hnode.
  rewrite Hom in Hnode. injection Hnode as ->.
  destruct Hinv as [Hpath Hmu Hids Hptrs Hvalid Hobjs Hlast Hchain Hfile Hfits].
  assert (Hidx : index_of (es1 ++ e' :: es2) = index_of (es1 ++ e :: es2))
    by (by apply index_replace).
  assert (Hids' : e_id <$> (es1 ++ e' :: es2) = e_id <$> (es1 ++ e :: es2))
    by (by rewrite !fmap_app).
  assert (Hptrs' : e_ptr <$> (es1 ++ e' :: es2) = e_ptr <$> (es1 ++ e :: es2))
    by (by rewrite !fmap_app).
  assert (Hvalid' : Forall (fun e => valid_id (e_id e) = true) (es1 ++ e' :: es2)).
  { revert Hvalid. rewrite !Forall_app, !Forall_cons.
    intros (V1 & V2 & V3). repeat split; done. }
  assert (Hlast' : last_ptr (es1 ++ e' :: es2) None = last_ptr (es1 ++ e :: es2) None).
  { by rewrite !last_ptr_app, !last_ptr_cons. }
  unfold update_replaced_object. simpl.
  destruct (e_size e' =? e_size e) eqn:Esz; simpl.
  - (* the same size *)
    apply Z.eqb_eq in Esz. exists bm. split; [done|].
    split; rewrite ?Hidx, ?Hids', ?Hptrs', ?Hlast'; try done.
    + apply (chain_same_sizes _ _ _ es1 e e' es2 _); [done|done| |exact Hchain].
      unfold e_metaSize. by rewrite (same_size_same_meta e e').
    + by rewrite Hd'.
  - (* another size *)
    apply Z.eqb_neq in Esz. specialize (Hnm Esz). subst nm.
    pose proof (NoDup_ptrs_middle _ _ _ Hptrs) as (Hn1 & Hn2 & Hne1 & Hne2 & Hdisj).
    apply chain_app in Hchain as [Hc1 [Hce Hc2]]. simpl in Hc1.
    rewrite Z.add_0_l in Hce, Hc2.
    rewrite total_len_app, total_len_cons in Hfit, Hfits.
    pose proof (total_len_nonneg es1). pose proof (total_len_nonneg es2).
    pose proof (e_len_pos e). pose proof (e_len_pos e').
    pose proof (e_metaSize_pos e). pose proof (e_metaSize_pos e').
    pose proof (e_size_nonneg e). pose proof (e_size_nonneg e').
    assert (Hl : e_len e = e_metaSize e + e_size e + 2) by done.
    assert (Hl' : e_len e' = e_metaSize e' + e_size e' + 2) by done.
    set (delta := e_len e' - e_len e).
    assert (Hshift : sub64 (sub64 (add64 (e_metaSize e') (e_size e'))
                              (e_metaSize e)) (e_size e) = delta).
    { rewrite add64_small by int64.
      rewrite (sub64_small (e_metaSize e' + e_size e')) by int64.
      rewrite sub64_small by int64. unfold delta. lia. }
    rewrite Hshift.
    destruct (walk_offsets_chain (fun o => add64 o delta) delta es2
                (arena bm) (Some (e_ptr e)) (total_len es1 + e_len e)
                (length (arena bm)))
      as (a' & Hw & Hc' & Hlen & Hfr); try done.
    { eapply chain_length; done. }
    { intros x Hx. apply add64_small, in_int64_range. unfold delta. lia. }
    rewrite Hw. eexists. split; [done|].
    split; simpl; rewrite ?Hidx, ?Hids', ?Hptrs', ?Hlast'; try done.
    + apply chain_app. split; [|split].
      * simpl. eapply chain_frame; [|exact Hc1]. intros e0 He0.
        assert (Hin : e_ptr e0 ∈ e_ptr <$> es1) by (by apply list_elem_of_fmap_2).
        rewrite list_lookup_alter_ne by (intros E; apply Hne1; by rewrite E).
        apply Hfr. by apply Hdisj.
      * rewrite list_lookup_alter_eq, Hfr, Hce by done. simpl.
        by rewrite Z.add_0_l.
      * rewrite Z.add_0_l.
        replace (total_len es1 + e_len e') with (total_len es1 + e_len e + delta)
          by (unfold delta; lia).
        eapply chain_frame; [|exact Hc']. intros e0 He0.
        apply list_lookup_alter_ne. intros E. apply Hne2. rewrite E.
        by apply list_elem_of_fmap_2.
    + by rewrite Hd'.
    + rewrite total_len_app, total_len_cons. lia.
Qed.

Lemma NoDup_ids_remove es1 (e : entry) es2 :
  NoDup (e_id <$> (es1 ++ e :: es2)) -> NoDup (e_id <$> (es1 ++ es2)).
Proof.
  rewrite !fmap_app. simpl. intros (H1 & H2 & H3)%NoDup_app.
  apply NoDup_cons in H3 as [_ H3]. apply NoDup_app. split; [done|].
  split; [|done]. intros x Hx Hx'. apply (H2 x Hx). by right.
Qed.

Lemma NoDup_ptrs_remove es1 (e : entry) es2 :
  NoDup (e_ptr <$> (es1 ++ e :: es2)) -> NoDup (e_ptr <$> (es1 ++ es2)).
Proof.
  rewrite !fmap_app. simpl. intros (H1 & H2 & H3)%NoDup_app.
  apply NoDup_cons in H3 as [_ H3]. apply NoDup_app. split; [done|].
  split; [|done]. intros x Hx Hx'. apply (H2 x Hx). by right.
Qed.

(** A deleted object leaves the chain; the nodes after it move down by its
    encoded size. *)
Lemma unlink_object_inv sp d d' b bm es1 e es2 om :
  bucket_inv sp d b bm (es1 ++ e :: es2) ->
  arena bm !! e_ptr e = Some om ->
  d' !! filePath bm = Some (file_of (es1 ++ es2)) ->
  exists bm',
    unlink_object bm (e_id e) om = Some bm'
    /\ bucket_inv sp d' b bm' (es1 ++ es2).
Proof.
  intros Hinv Hom Hd'.
  pose proof (bucket_inv_node _ _ _ _ _ _ _ Hinv) as Hnode.
  rewrite Hom in Hnode. injection Hnode as ->.
  destruct Hinv as [Hpath Hmu Hids Hptrs Hvalid Hobjs Hlast Hchain Hfile Hfits].
  pose proof (NoDup_ptrs_middle _ _ _ Hptrs) as (Hn1 & Hn2 & Hne1 & Hne2 & Hdisj).
  assert (Hvalid' : Forall (fun e => valid_id (e_id e) = true) (es1 ++ es2)).
  { revert Hvalid. rewrite !Forall_app, !Forall_cons. tauto. }
  apply chain_app in Hchain as [Hc1 [Hce Hc2]]. simpl in Hc1.
  rewrite Z.add_0_l in Hce, Hc2.
  rewrite total_len_app, total_len_cons in Hfits.
  pose proof (total_len_nonneg es1). pose proof (total_len_nonneg es2).
  pose proof (e_len_pos e). pose proof (e_metaSize_pos e).
  pose proof (e_size_nonneg e).
  assert (Hl : e_len e = e_metaSize e + e_size e + 2) by done.
  assert (Hfits' : total_len (es1 ++ es2) <= max_int64).
  { rewrite total_len_app. lia. }
  unfold unlink_object. simpl.
  (* the [next] link of the node before *)
  set (a1 := match last_ptr es1 None with
             | Some q => alter (set_next (hd_ptr es2 None)) q (arena bm)
             | None => arena bm
             end).
  assert (Hlen1 : length a1 = length (arena bm)).
  { unfold a1. destruct (last_ptr es1 None); [apply length_alter|done]. }
  assert (Ha1 : chain a1 None 0 es1 (hd_ptr es2 None)).
  { unfold a1. destruct es1 as [|el es0 _] using rev_ind; [done|].
    rewrite last_ptr_snoc. by apply (chain_set_last_next _ _ _ _ _ (Some (e_ptr e))). }
  assert (Hfr1 : forall p, p ∉ e_ptr <$> es1 -> a1 !! p = arena bm !! p).
  { intros p Hp. unfold a1. destruct es1 as [|el es0 _] using rev_ind; [done|].
    rewrite last_ptr_snoc. apply list_lookup_alter_ne. intros E. apply Hp.
    rewrite <- E, fmap_app. apply elem_of_app. right. by left. }
  assert (Hc2' : chain a1 (Some (e_ptr e)) (total_len es1 + e_len e) es2 None).
  { eapply chain_frame; [|exact Hc2]. intros e0 He0. apply Hfr1.
    intros Hin. apply (Hdisj _ Hin). by apply list_elem_of_fmap_2. }
  destruct es2 as [|e2 es2].
  - (* the last object of the bucket *)
    simpl. eexists. split; [done|].
    split; simpl; try done.
    + by eapply NoDup_ids_remove.
    + by eapply NoDup_ptrs_remove.
    + by rewrite Hobjs, index_delete.
    + by rewrite last_ptr_app.
    + apply chain_app. by split.
    + by rewrite Hd'.
  - simpl hd_ptr.
    set (a2 := alter (set_prev (last_ptr es1 None)) (e_ptr e2) a1).
    assert (Hlen2 : length a2 = length (arena bm)).
    { unfold a2. by rewrite length_alter. }
    assert (Ha2 : chain a2 (last_ptr es1 None) (total_len es1 + e_len e)
                    (e2 :: es2) None).
    { apply (chain_set_head_prev _ (Some (e_ptr e))); [done|exact Hc2']. }
    rewrite (add64_small (e_metaSize e) (e_size e)) by int64.
    rewrite (add64_small (e_metaSize e + e_size e) 2) by int64.
    destruct (walk_offsets_chain (fun o => sub64 o (e_metaSize e + e_size e + 2))
                (- e_len e) (e2 :: es2) a2 (last_ptr es1 None)
                (total_len es1 + e_len e) (length a2))
      as (a' & Hw & Hc' & Hlen & Hfr); try done.
    { rewrite Hlen2. rewrite <- (length_fmap e_ptr).
      apply NoDup_lt_length; [done|]. intros x Hx.
      eapply chain_ptr_lt; [exact Hc2|done]. }
    { intros x Hx. rewrite sub64_small by int64. lia. }
    simpl in Hw. fold a2. rewrite Hw. eexists. split; [done|].
    split; simpl; try done.
    + by eapply NoDup_ids_remove.
    + by eapply NoDup_ptrs_remove.
    + by rewrite Hobjs, index_delete.
    + rewrite Hlast. by rewrite !last_ptr_app, !last_ptr_cons.
    + apply chain_app. split.
      * eapply chain_frame; [|exact Ha1]. intros e0 He0.
        assert (Hin : e_ptr e0 ∈ e_ptr <$> es1) by (by apply list_elem_of_fmap_2).
        rewrite Hfr by (by apply Hdisj). unfold a2.
        apply list_lookup_alter_ne. intros E.
        apply (Hdisj _ Hin). rewrite <- E. by left.
      * rewrite Z.add_0_l.
        replace (total_len es1) with (total_len es1 + e_len e + - e_len e) at 1
          by lia.
        done.
    + by rewrite Hd'.
Qed.
(** ** The stripe index *)

Lemma bucketIdToMutexIndex_eq b :
  bucketIdToMutexIndex b
  = (fnv.Sum32 (fold_left fnv.step (bytes_of b) fnv.New32) mod numMutexes, None).
Proof.
  unfold bucketIdToMutexIndex, fnv.Write.
  destruct (Z.of_nat (length (bytes_of b)) <? Z.of_nat (length (bytes_of b)))
    eqn:E; [zlia|done].
Qed.

Lemma bucketIdToMutexIndex_bound b :
  0 <= (bucketIdToMutexIndex b).1 < numMutexes.
Proof.
  rewrite bucketIdToMutexIndex_eq. simpl. apply Z.mod_pos_bound. done.
Qed.

(** ** Paths of bucket files *)

Lemma bucket_path_inj sp b b' :
  path_Join sp (b +:+ ".dat") = path_Join sp (b' +:+ ".dat") -> b = b'.
Proof.
  unfold path_Join. intros H.
  apply string_app_inv_head, string_app_inv_head in H.
  by apply string_app_inv_tail in H.
Qed.

Lemma strip_prefix_app pre s : strip_prefix pre (pre +:+ s) = Some s.
Proof.
  induction pre as [|c pre IH]; [done|]. rewrite app_String. simpl.
  by rewrite Ascii.eqb_refl.
Qed.

Lemma contains_app c s t : contains c (s +:+ t) = contains c s || contains c t.
Proof.
  induction s as [|x s IH]; [done|]. rewrite app_String. simpl.
  by rewrite IH, orb_assoc.
Qed.

Lemma has_suffix_app suf s : has_suffix suf (s +:+ suf) = true.
Proof.
  induction s as [|x s IH].
  - rewrite app_nil_s.
    assert (H : String.eqb suf suf = true) by apply String.eqb_refl.
    destruct suf; simpl in *; rewrite ?H; done.
  - rewrite app_String. simpl. rewrite IH. apply orb_true_r.
Qed.

Lemma glob_match_bucket sp b :
  valid_id b = true -> glob_match sp (path_Join sp (b +:+ ".dat")) = true.
Proof.
  intros Hb. unfold glob_match, path_Join.
  rewrite <- string_app_assoc, strip_prefix_app, contains_app.
  rewrite (valid_id_no_slash b Hb), has_suffix_app. done.
Qed.

(** ** Frames *)

Lemma bucket_inv_frame sp d d' b bm es :
  d' !! filePath bm = d !! filePath bm ->
  bucket_inv sp d b bm es -> bucket_inv sp d' b bm es.
Proof. intros Hd [?????????]. split; try done. by rewrite Hd. Qed.

Lemma bucket_inv_path_ne sp d b bm es d' b' bm' es' :
  b <> b' ->
  bucket_inv sp d b bm es -> bucket_inv sp d' b' bm' es' ->
  filePath bm <> filePath bm'.
Proof.
  intros Hne H1 H2 E. apply Hne. apply (bucket_path_inj sp).
  by rewrite <- (bi_path _ _ _ _ _ H1), <- (bi_path _ _ _ _ _ H2).
Qed.

(** Replacing the metadata and the file of one bucket. *)
Lemma store_inv_set_bucket w d' b bm' es' :
  store_inv w ->
  valid_id b = true ->
  bucket_inv (storePath w) d' b bm' es' ->
  (forall p, p <> filePath bm' -> d' !! p = files w !! p) ->
  store_inv (set_bucket w d' b bm').
Proof.
  intros [Hbs Hfs] Hvb Hinv Hfr. split; simpl.
  - intros b0 bm0. destruct (decide (b0 = b)) as [->|Hne].
    + rewrite lookup_insert_eq. intros [= <-]. eauto.
    + rewrite lookup_insert_ne by done. intros Hb0.
      destruct (Hbs _ _ Hb0) as (Hv0 & es0 & Hinv0). split; [done|].
      exists es0. eapply bucket_inv_frame; [|exact Hinv0].
      apply Hfr. eapply bucket_inv_path_ne; done.
  - intros p content Hp Hg. destruct (decide (p = filePath bm')) as [->|Hne].
    + right. exists b, bm'. by rewrite lookup_insert_eq.
    + rewrite Hfr in Hp by done.
      destruct (Hfs _ _ Hp Hg) as [->|(b0 & bm0 & Hb0 & Hp0)]; [by left|].
      right. exists b0, bm0. split; [|done].
      rewrite lookup_insert_ne; [done|]. intros ->.
      destruct (Hbs _ _ Hb0) as (_ & es0 & Hinv0).
      apply Hne. rewrite <- Hp0.
      by rewrite (bi_path _ _ _ _ _ Hinv0), (bi_path _ _ _ _ _ Hinv).
Qed.

Lemma fresh_bucket_inv sp d b :
  (forall content, d !! path_Join sp (b +:+ ".dat") = Some content -> content = []) ->
  bucket_inv sp d b (fresh_bucket sp b) [].
Proof.
  intros Hd. split; simpl; try done; try apply NoDup_nil_2.
  destruct (d !! _) eqn:E; [|done]. by apply Hd.
Qed.

(** A file under the path of a bucket that is not registered is empty. *)
Lemma unregistered_file_empty w b content :
  store_inv w ->
  valid_id b = true ->
  buckets w !! b = None ->
  files w !! path_Join (storePath w) (b +:+ ".dat") = Some content ->
  content = [].
Proof.
  intros [Hbs Hfs] Hvb Hb Hp.
  destruct (Hfs _ _ Hp (glob_match_bucket _ _ Hvb))
    as [->|(b0 & bm0 & Hb0 & Hp0)]; [done|].
  destruct (Hbs _ _ Hb0) as (_ & es0 & Hinv0).
  rewrite (bi_path _ _ _ _ _ Hinv0) in Hp0.
  apply bucket_path_inj in Hp0. subst b0. congruence.
Qed.
(** ** [Store] *)

Lemma resolve_bucket_spec io b w :
  store_inv w ->
  valid_id b = true ->
  match resolve_bucket io b w with
  | inl (w1, bm, ok) =>
      store_inv w1 /\ storePath w1 = storePath w
      /\ buckets w1 !! b = Some bm
      /\ (forall b', b' <> b -> buckets w1 !! b' = buckets w !! b')
      /\ (forall p, p <> filePath bm -> files w1 !! p = files w !! p)
      /\ (if ok then w1 = w
          else buckets w !! b = None /\ bm = fresh_bucket (storePath w) b
               /\ files w1 !! filePath bm = Some []
               /\ bucket_inv (storePath w) (files w1) b bm [])
  | inr (w1, r) =>
      store_inv w1 /\ r.1 = false /\ r.2 <> None
      /\ buckets w !! b = None
      /\ w1 = set_bucket w (files w) b (fresh_bucket (storePath w) b)
  end.
Proof.
  intros Hinv Hvb. unfold resolve_bucket.
  destruct (buckets w !! b) as [bm|] eqn:Hb.
  - split; [done|]. repeat split; done.
  - pose proof (bucketIdToMutexIndex_eq b) as Emu.
    assert (Hfb : fresh_bucket (storePath w) b
                  = mkBucket (path_Join (storePath w) (b +:+ ".dat"))
                      (bucketIdToMutexIndex b).1 None ∅ []) by done.
    destruct (bucketIdToMutexIndex b) as [mu err]. injection Emu as _ ->.
    simpl in Hfb. rewrite <- Hfb.
    assert (Hz : store_inv (set_bucket w (files w) b (fresh_bucket (storePath w) b))).
    { eapply store_inv_set_bucket; [done|done| |done].
      apply fresh_bucket_inv. intros content Hc.
      by eapply unregistered_file_empty. }
    destruct (io SysCreate).
    + simpl.
      assert (Hi : bucket_inv (storePath w)
                (<[path_Join (storePath w) (b +:+ ".dat") := []]> (files w)) b
                (fresh_bucket (storePath w) b) []).
      { apply fresh_bucket_inv. rewrite lookup_insert_eq. by intros ? [= <-]. }
      split; [|split; [done|split; [|split; [|split]]]].
      * replace (mkWorld _ _ _) with
          (set_bucket w (<[path_Join (storePath w) (b +:+ ".dat") := []]> (files w))
             b (fresh_bucket (storePath w) b)) by done.
        eapply store_inv_set_bucket; [done|done|exact Hi|].
        intros p Hp. by rewrite lookup_insert_ne.
      * by rewrite lookup_insert_eq.
      * intros b' Hb'. by rewrite lookup_insert_ne.
      * intros p Hp. by rewrite lookup_insert_ne.
      * split; [done|]. split; [done|].
        split; [by rewrite lookup_insert_eq|exact Hi].
    + simpl. split; [done|]. repeat split; try done.
Qed.

(** What [store_object] does to a bucket whose metadata describes the
    records [es]: it returns, and it has failed without a change, or added
    a record at the end, or replaced a record where it stood. *)
Lemma store_object_spec io data o b ok bm w es :
  store_inv w ->
  valid_id o = true -> valid_id b = true ->
  buckets w !! b = Some bm ->
  bucket_inv (storePath w) (files w) b bm es ->
  (ok = false -> es = [] /\ files w !! filePath bm = Some []) ->
  exists w' r,
    store_object io (Some data) o b ok bm w = Some (w', r)
    /\ ((r.1 = false /\ r.2 <> None /\ w' = w)
        \/ (r = (false, None) /\ objects bm !! o = None
            /\ let e := mkEntry (length (arena bm)) o data in
               let bm' :=
                 link_new_object bm o (total_len es) (e_metaSize e) (e_size e) in
               w' = set_bucket w
                      (<[filePath bm := file_of (es ++ [e])]> (files w)) b bm'
               /\ bucket_inv (storePath w) (files w') b bm' (es ++ [e]))
        \/ (r = (true, None)
            /\ exists es1 e es2 bm',
                 es = es1 ++ e :: es2 /\ e_id e = o
                 /\ let e' := mkEntry (e_ptr e) o data in
                    w' = set_bucket w
                           (<[filePath bm := file_of (es1 ++ e' :: es2)]> (files w))
                           b bm'
                    /\ bucket_inv (storePath w) (files w') b bm'
                         (es1 ++ e' :: es2))).
Proof.
  intros Hinv Hvo Hvb Hb Hbi Hok. unfold store_object.
  destruct (io SysTempFile); simpl; [|eexists _, _; split; [done|by left]].
  destruct (objects bm !! o) as [p|] eqn:Ho.
  - (* the object is there: replace it *)
    rewrite (bi_objects _ _ _ _ _ Hbi) in Ho.
    apply index_split in Ho as (es1 & e & es2 & -> & <- & <-);
      [|exact (bi_ids _ _ _ _ _ Hbi)].
    pose proof (bucket_inv_node _ _ _ _ _ _ _ Hbi) as Hnode.
    rewrite Hnode.
    destruct (replaceObjectInBucketFile _ _ _ _ _ _ _)
      as [[tmp [nm ns]]|err] eqn:Er; [|eexists _, _; split; [done|by left]].
    destruct (io SysRename); simpl; [|eexists _, _; split; [done|by left]].
    assert (Hf : files w !! filePath bm = Some (file_of (es1 ++ e :: es2))).
    { pose proof (bi_file _ _ _ _ _ Hbi) as Hfile.
      destruct (files w !! filePath bm) as [c|] eqn:Ec; [by subst|].
      unfold replaceObjectInBucketFile, os_Open in Er. rewrite Ec in Er.
      by destruct (io SysOpen). }
    apply (replace_Ok_inv _ _ _ _ _ es1 e es2) in Er as (-> & Hfit & -> & Hnm);
      [|done|exact (bi_fits _ _ _ _ _ Hbi)|done].
    set (e' := mkEntry (e_ptr e) (e_id e) data) in *.
    destruct (update_replaced_inv _ _
                (<[filePath bm := file_of (es1 ++ e' :: es2)]> (files w))
                _ _ _ _ _ _ data nm Hbi Hnode Hfit Hnm)
      as (bm' & Hu & Hbi').
    { by rewrite lookup_insert_eq. }
    fold e' in Hu. rewrite Hu. eexists _, _. split; [done|].
    right. right. split; [done|]. exists es1, e, es2, bm'. cbv zeta.
    split; [done|]. split; [done|]. split; [done|exact Hbi'].
  - (* a new object *)
    assert (Htmp : exists tmp0,
      (if ok then do bf <- os_Open io (files w) (filePath bm); io_Copy io [] bf 0
       else Ok []) = tmp0
      /\ (tmp0 = Ok (file_of es) \/ exists err, tmp0 = Err err)).
    { eexists. split; [done|]. destruct ok.
      - unfold os_Open. destruct (io SysOpen); [|right; by eexists].
        pose proof (bi_file _ _ _ _ _ Hbi) as Hfile.
        destruct (files w !! filePath bm) as [c|]; [|right; by eexists].
        subst c. simpl. unfold io_Copy. rewrite remaining_0.
        destruct (file_Write_cases io SysCopy [] (file_of es)) as [(E & _)|E];
          rewrite E; [by left|right; by eexists].
      - destruct Hok as [-> _]; [done|]. by left. }
    destruct Htmp as (tmp0 & Et & [->|[err ->]]); rewrite Et; simpl;
      [|eexists _, _; split; [done|by left]].
    destruct (appendObjectToBucketFile _ _ _ _ _)
      as [[tmp [[off ms] sz]]|err] eqn:Ea; [|eexists _, _; split; [done|by left]].
    destruct (io SysRename); simpl; [|eexists _, _; split; [done|by left]].
    apply (append_Ok_inv _ _ _ _ _ _ _ _ _ (length (arena bm))) in Ea
      as (-> & -> & -> & -> & Hfit).
    simpl. eexists _, _. split; [done|].
    right. left. split; [done|]. split; [done|].
    set (e := mkEntry (length (arena bm)) o data) in *.
    assert (Hfile : file_of es ++ record_of e = file_of (es ++ [e])).
    { rewrite file_of_app. simpl. by rewrite app_nil_r. }
    rewrite Hfile in *. split; [done|].
    eapply link_new_object_inv; [exact Hbi|done|done|done|].
    simpl. by rewrite lookup_insert_eq.
Qed.

Lemma records_of_exists w b : store_inv w -> exists es, records_of w b es.
Proof.
  intros Hinv. unfold records_of. destruct (buckets w !! b) as [bm|] eqn:Hb.
  - destruct (si_buckets _ Hinv _ _ Hb) as (_ & es & He). by exists es.
  - by exists [].
Qed.

(** [Store] returns, keeps the invariant, leaves the other buckets alone,
    and has failed, added a record or replaced one. *)
Lemma Store_spec io data o b w es :
  store_inv w ->
  valid_id o = true -> valid_id b = true ->
  records_of w b es ->
  exists w' r,
    Store io (Some data) o b w = Some (w', r)
    /\ store_inv w' /\ storePath w' = storePath w
    /\ (forall b', b' <> b -> buckets w' !! b' = buckets w !! b')
    /\ (forall b' bm', b' <> b -> buckets w !! b' = Some bm' ->
          files w' !! filePath bm' = files w !! filePath bm')
    /\ ((r.1 = false /\ r.2 <> None /\ records_of w' b es)
        \/ (r = (false, None) /\ (o ∉ e_id <$> es)
            /\ exists p, records_of w' b (es ++ [mkEntry p o data])
                         /\ is_Some (buckets w' !! b))
        \/ (r = (true, None)
            /\ exists es1 e es2,
                 es = es1 ++ e :: es2 /\ e_id e = o
                 /\ records_of w' b (es1 ++ mkEntry (e_ptr e) o data :: es2)
                 /\ is_Some (buckets w !! b) /\ is_Some (buckets w' !! b))).
Proof.
  intros Hinv Hvo Hvb Hes. unfold Store.
  pose proof (resolve_bucket_spec io b w Hinv Hvb) as Hr.
  destruct (resolve_bucket io b w) as [[[w1 bm] ok]|[w1 r1]].
  - destruct Hr as (Hinv1 & Hsp & Hb1 & Hbs1 & Hfs1 & Hok).
    assert (Hbi : bucket_inv (storePath w1) (files w1) b bm es
                  /\ (ok = false -> es = [] /\ files w1 !! filePath bm = Some [])).
    { unfold records_of in Hes. destruct ok.
      - subst w1. rewrite Hb1 in Hes. by split.
      - destruct Hok as (Hnone & _ & Hf & Hi). rewrite Hnone in Hes. subst es.
        rewrite Hsp. by split. }
    destruct Hbi as (Hbi & Hok').
    assert (Hframe : forall b' bm', b' <> b -> buckets w !! b' = Some bm' ->
              filePath bm' <> filePath bm).
    { intros b' bm' Hne Hb'.
      destruct (si_buckets _ Hinv _ _ Hb') as (_ & es' & Hbi').
      rewrite (bi_path _ _ _ _ _ Hbi'), (bi_path _ _ _ _ _ Hbi), Hsp.
      intros E. by apply bucket_path_inj in E. }
    destruct (store_object_spec io data _ _ ok _ _ _ Hinv1 Hvo Hvb Hb1 Hbi Hok')
      as (w' & r & Hs & Hcases).
    exists w', r. split; [done|].
    destruct Hcases
      as [(Hr1 & Hr2 & ->)|[(-> & Hno & He)|(-> & es1 & e & es2 & bm' & -> & Hid & He)]].
    + split; [done|]. split; [done|]. split; [done|].
      split; [intros b' bm' Hne Hb'; apply Hfs1; by eapply Hframe|].
      left. split; [done|]. split; [done|].
      unfold records_of. by rewrite Hb1.
    + simpl in He. destruct He as [-> Hbi'].
      assert (Hinv' : store_inv (set_bucket w1
                (<[filePath bm := file_of (es ++ [mkEntry (length (arena bm)) o data])]>
                   (files w1)) b
                (link_new_object bm o (total_len es)
                   (e_metaSize (mkEntry (length (arena bm)) o data))
                   (e_size (mkEntry (length (arena bm)) o data))))).
      { eapply store_inv_set_bucket; [done|done|exact Hbi'|].
        intros p Hp. simpl in Hp. by rewrite lookup_insert_ne. }
      split; [done|]. split; [done|]. simpl.
      split; [intros b' Hne; rewrite lookup_insert_ne by done; by apply Hbs1|].
      split.
      { intros b' bm' Hne Hb'. rewrite lookup_insert_ne by (symmetry; by eapply Hframe).
        apply Hfs1. by eapply Hframe. }
      right. left. split; [done|]. split.
      { apply index_lookup_None. by rewrite <- (bi_objects _ _ _ _ _ Hbi). }
      exists (length (arena bm)). unfold records_of. simpl.
      rewrite lookup_insert_eq. split; [done|by eexists].
    + simpl in He. destruct He as [-> Hbi'].
      assert (Hpath : filePath bm' = filePath bm).
      { by rewrite (bi_path _ _ _ _ _ Hbi), (bi_path _ _ _ _ _ Hbi'). }
      assert (Hinv' : store_inv (set_bucket w1
                (<[filePath bm := file_of (es1 ++ mkEntry (e_ptr e) o data :: es2)]>
                   (files w1)) b bm')).
      { eapply store_inv_set_bucket; [done|done|exact Hbi'|].
        intros p Hp. rewrite lookup_insert_ne; [done|]. by rewrite <- Hpath. }
      split; [done|]. split; [done|]. simpl.
      split; [intros b' Hne; rewrite lookup_insert_ne by done; by apply Hbs1|].
      split.
      { intros b' bm0 Hne Hb'. rewrite lookup_insert_ne by (symmetry; by eapply Hframe).
        apply Hfs1. by eapply Hframe. }
      right. right. split; [done|]. exists es1, e, es2.
      split; [done|]. split; [done|]. unfold records_of. simpl.
      rewrite lookup_insert_eq. split; [done|].
      split; [|by eexists].
      destruct ok; [subst w1; by eexists|].
      destruct Hok' as [Hnil _]; [done|]. by destruct es1.
  - destruct Hr as (Hinv1 & Hr1 & Hr2 & Hnone & ->).
    exists (set_bucket w (files w) b (fresh_bucket (storePath w) b)), r1.
    split; [done|]. split; [done|]. split; [done|]. simpl.
    split; [intros b' Hne; by rewrite lookup_insert_ne|].
    split; [done|].
    left. split; [done|]. split; [done|].
    unfold records_of in *. simpl. rewrite lookup_insert_eq.
    rewrite Hnone in Hes. subst es.
    apply fresh_bucket_inv. intros content Hc.
    by apply (unregistered_file_empty w b).
Qed.

Lemma Store_inv io data o b w w' r :
  store_inv w ->
  valid_id o = true -> valid_id b = true ->
  Store io (Some data) o b w = Some (w', r) ->
  store_inv w' /\ storePath w' = storePath w.
Proof.
  intros Hinv Hvo Hvb H.
  destruct (records_of_exists w b Hinv) as (es & Hes).
  destruct (Store_spec io data o b w es Hinv Hvo Hvb Hes)
    as (w'' & r'' & Hs & Hi & Hsp & _).
  rewrite Hs in H. by injection H as <- <-.
Qed.
(** ** [Retrieve] *)


Lemma Retrieve_no_object io o b w es :
  records_of w b es -> o ∉ e_id <$> es ->
  Retrieve io o b w = Some (None, false, None).
Proof.
  intros Hes Ho. unfold Retrieve, records_of in *.
  destruct (buckets w !! b) as [bm|]; [|done].
  rewrite (bi_objects _ _ _ _ _ Hes).
  apply index_lookup_None in Ho. by rewrite Ho.
Qed.

Lemma index_lookup_middle es1 e es2 :
  NoDup (e_id <$> (es1 ++ e :: es2)) ->
  (list_to_map (index_of (es1 ++ e :: es2)) : gmap string ptr) !! e_id e
  = Some (e_ptr e).
Proof.
  intros Hnd. apply index_lookup_Some; [done|]. exists e.
  split; [|done]. apply elem_of_app. right. by left.
Qed.

(** A stored object is read back when the file can be opened and read. *)
Lemma Retrieve_found io b w es1 e es2 :
  records_of w b (es1 ++ e :: es2) ->
  io SysOpen = true -> io SysReadAt = true ->
  Retrieve io (e_id e) b w = Some (Some (e_data e), true, None).
Proof.
  intros Hes Hopen Hread. unfold Retrieve, records_of in *.
  destruct (buckets w !! b) as [bm|]; [|by destruct es1].
  rewrite (bi_objects _ _ _ _ _ Hes), index_lookup_middle
    by exact (bi_ids _ _ _ _ _ Hes).
  rewrite (bucket_inv_node _ _ _ _ _ _ _ Hes). simpl.
  pose proof (bi_file _ _ _ _ _ Hes) as Hfile.
  pose proof (bi_fits _ _ _ _ _ Hes) as Hfits.
  unfold os_Open. rewrite Hopen.
  destruct (files w !! filePath bm) as [c|]; [subst c|by destruct es1].
  rewrite total_len_app, total_len_cons in Hfits.
  pose proof (total_len_nonneg es1). pose proof (total_len_nonneg es2).
  pose proof (e_metaSize_pos e). pose proof (e_size_nonneg e).
  assert (Hl : e_len e = e_metaSize e + e_size e + 2) by done.
  destruct (e_size e <? 0) eqn:E; [zlia|]. clear E.
  rewrite (add64_small (total_len es1)) by int64.
  rewrite add64_small by int64.
  unfold file_ReadAt. rewrite Hread. simpl.
  destruct (total_len es1 + e_metaSize e + 1 <? 0) eqn:E; [zlia|]. clear E.
  destruct (e_size e =? 0) eqn:E.
  - apply Z.eqb_eq in E. unfold e_size in E.
    destruct (e_data e); [done|simpl in E; lia].
  - assert (Hrest : remaining (file_of (es1 ++ e :: es2))
              (total_len es1 + e_metaSize e + 1)
            = e_data e ++ [separator] ++ file_of es2).
    { rewrite file_of_app. simpl. unfold record_of.
      rewrite <- !app_assoc, (app_assoc (file_of es1)).
      replace (total_len es1 + e_metaSize e + 1)
        with (Z.of_nat (length (file_of es1 ++ bytes_of (meta_str e)))).
      - apply remaining_app.
      - rewrite length_app, bytes_of_length, Nat2Z.inj_add, meta_str_length.
        unfold total_len. lia. }
    rewrite Hrest.
    destruct (_ <? e_size e) eqn:E';
      [rewrite length_app in E'; unfold e_size in E'; zlia|].
    unfold e_size. by rewrite Nat2Z.id, take_app_length.
Qed.

(** ** [Delete] *)

Lemma store_inv_delete_bucket w b bm :
  store_inv w ->
  buckets w !! b = Some bm ->
  store_inv (mkWorld (delete (filePath bm) (files w)) (storePath w)
               (delete b (buckets w))).
Proof.
  intros [Hbs Hfs] Hb. destruct (Hbs _ _ Hb) as (_ & es & Hbi).
  split; simpl.
  - intros b0 bm0. destruct (decide (b0 = b)) as [->|Hne].
    + by rewrite lookup_delete_eq.
    + rewrite lookup_delete_ne by done. intros Hb0.
      destruct (Hbs _ _ Hb0) as (Hv0 & es0 & Hbi0). split; [done|].
      exists es0. eapply bucket_inv_frame; [|exact Hbi0].
      apply lookup_delete_ne. symmetry. eapply bucket_inv_path_ne; done.
  - intros p content Hp Hg.
    destruct (decide (p = filePath bm)) as [->|Hne];
      [by rewrite lookup_delete_eq in Hp|].
    rewrite lookup_delete_ne in Hp by done.
    destruct (Hfs _ _ Hp Hg) as [->|(b0 & bm0 & Hb0 & Hp0)]; [by left|].
    right. exists b0, bm0. split; [|done].
    rewrite lookup_delete_ne; [done|]. intros ->. congruence.
Qed.

(** [Delete] returns, keeps the invariant, leaves the other buckets alone,
    and has found nothing to delete, or removed the bucket of a sole
    object, or failed, or removed one record. *)
Lemma Delete_spec io o b w es :
  store_inv w ->
  records_of w b es ->
  exists w' r,
    Delete io o b w = Some (w', r)
    /\ store_inv w' /\ storePath w' = storePath w
    /\ (forall b', b' <> b -> buckets w' !! b' = buckets w !! b')
    /\ (forall b' bm', b' <> b -> buckets w !! b' = Some bm' ->
          files w' !! filePath bm' = files w !! filePath bm')
    /\ (((o ∉ e_id <$> es) /\ r = (false, None) /\ w' = w)
        \/ (exists e bm, es = [e] /\ e_id e = o /\ r = (true, None)
              /\ buckets w !! b = Some bm
              /\ if io SysRemove
                 then w' = mkWorld (delete (filePath bm) (files w))
                             (storePath w) (delete b (buckets w))
                 else w' = w)
        \/ (exists es1 e es2,
              es = es1 ++ e :: es2 /\ e_id e = o /\ es1 ++ es2 <> []
              /\ ((r.1 = false /\ r.2 <> None /\ w' = w
                   /\ (io SysTempFile && io SysOpen && io SysCopyPrefix
                       && io SysSeek && io SysCopy && io SysRename = false))
                  \/ (r = (true, None) /\ records_of w' b (es1 ++ es2)
                      /\ is_Some (buckets w' !! b))))).
Proof.
  intros Hinv Hes. unfold Delete, records_of in *.
  destruct (buckets w !! b) as [bm|] eqn:Hb.
  2:{ subst es. exists w, (false, None). split; [done|]. split; [done|].
      split; [done|]. split; [done|]. split; [done|]. left.
      split; [apply not_elem_of_nil|done]. }
  destruct (objects bm !! o) as [p|] eqn:Ho.
  2:{ exists w, (false, None). split; [done|]. split; [done|].
      split; [done|]. split; [done|]. split; [done|]. left.
      split; [|done]. apply index_lookup_None.
      by rewrite <- (bi_objects _ _ _ _ _ Hes). }
  rewrite (bi_objects _ _ _ _ _ Hes) in Ho.
  apply index_split in Ho as (es1 & e & es2 & -> & <- & <-);
    [|exact (bi_ids _ _ _ _ _ Hes)].
  pose proof (bucket_inv_node _ _ _ _ _ _ _ Hes) as Hnode. rewrite Hnode.
  rewrite (bi_objects _ _ _ _ _ Hes), index_size
    by exact (bi_ids _ _ _ _ _ Hes).
  assert (Hf : files w !! filePath bm = Some (file_of (es1 ++ e :: es2))).
  { pose proof (bi_file _ _ _ _ _ Hes) as Hfile.
    destruct (files w !! filePath bm) as [c|]; [by subst|by destruct es1]. }
  assert (Hframe : forall b' bm', b' <> b -> buckets w !! b' = Some bm' ->
            filePath bm' <> filePath bm).
  { intros b' bm' Hne Hb'.
    destruct (si_buckets _ Hinv _ _ Hb') as (_ & es' & Hbi').
    eapply bucket_inv_path_ne; done. }
  case_bool_decide as Hlen.
  - (* the only object of the bucket *)
    assert (es1 = [] /\ es2 = []) as [-> ->].
    { rewrite length_app in Hlen. simpl in Hlen.
      destruct es1, es2; simpl in *; try lia. done. }
    rewrite Hf. simpl.
    destruct (io SysRemove) eqn:Hrm; simpl.
    + eexists _, _. split; [done|].
      split; [by apply store_inv_delete_bucket|]. split; [done|]. simpl.
      split; [intros b' Hne; by rewrite lookup_delete_ne|].
      split; [intros b' bm' Hne Hb'; apply lookup_delete_ne; symmetry;
              by eapply Hframe|].
      right. left. exists e, bm. by repeat (split; [done|]).
    + eexists _, _. split; [done|]. split; [done|]. split; [done|].
      split; [done|]. split; [done|].
      right. left. exists e, bm. by repeat (split; [done|]).
  - assert (Hne : es1 ++ es2 <> []).
    { intros E. apply app_eq_nil in E as [-> ->]. by apply Hlen. }
    destruct (io SysTempFile) eqn:Htmp; simpl.
    2:{ eexists _, _. split; [done|]. split; [done|]. split; [done|].
        split; [done|]. split; [done|].
        right. right. exists es1, e, es2. split; [done|]. split; [done|].
        split; [done|]. left. by repeat split. }
    destruct (replaceObjectInBucketFile _ _ _ _ _ _ _)
      as [[tmp [nm ns]]|err] eqn:Er.
    2:{ eexists _, _. split; [done|]. split; [done|]. split; [done|].
        split; [done|]. split; [done|].
        right. right. exists es1, e, es2. split; [done|]. split; [done|].
        split; [done|]. left. split; [done|]. split; [done|]. split; [done|].
        destruct (io SysOpen) eqn:H1, (io SysCopyPrefix) eqn:H2,
          (io SysSeek) eqn:H3, (io SysCopy) eqn:H4; simpl; try done.
        edestruct (replace_delete_ok io (files w) (e_id e)) as (nm' & E');
          [exact H1|exact H2|exact H3|exact H4|exact Hf
          |exact (bi_fits _ _ _ _ _ Hes)| |rewrite E' in Er; discriminate Er].
        done. }
    apply (replace_Ok_inv _ _ _ _ _ es1 e es2) in Er as (-> & ->);
      [|done|exact (bi_fits _ _ _ _ _ Hes)|done].
    destruct (io SysRename) eqn:Hrn; simpl.
    2:{ eexists _, _. split; [done|]. split; [done|]. split; [done|].
        split; [done|]. split; [done|].
        right. right. exists es1, e, es2. split; [done|]. split; [done|].
        split; [done|]. left. split; [done|]. split; [done|]. split; [done|].
        by rewrite !andb_false_r. }
    destruct (unlink_object_inv _ _
                (<[filePath bm := file_of (es1 ++ es2)]> (files w))
                _ _ _ _ _ _ Hes Hnode)
      as (bm' & Hu & Hbi').
    { by rewrite lookup_insert_eq. }
    rewrite Hu. eexists _, _. split; [done|].
    assert (Hpath : filePath bm' = filePath bm).
    { by rewrite (bi_path _ _ _ _ _ Hes), (bi_path _ _ _ _ _ Hbi'). }
    destruct (si_buckets _ Hinv _ _ Hb) as (Hvb & _).
    split.
    { eapply store_inv_set_bucket; [done|done|exact Hbi'|].
      intros p Hp. rewrite lookup_insert_ne; [done|]. by rewrite <- Hpath. }
    split; [done|]. simpl.
    split; [intros b' Hne'; by rewrite lookup_insert_ne|].
    split; [intros b' bm0 Hne' Hb'; apply lookup_insert_ne; symmetry;
            by eapply Hframe|].
    right. right. exists es1, e, es2. split; [done|]. split; [done|].
    split; [done|]. right. split; [done|].
    rewrite lookup_insert_eq. split; [done|by eexists].
Qed.

Lemma Delete_inv io o b w w' r :
  store_inv w ->
  Delete io o b w = Some (w', r) ->
  store_inv w' /\ storePath w' = storePath w.
Proof.
  intros Hinv H.
  destruct (records_of_exists w b Hinv) as (es & Hes).
  destruct (Delete_spec io o b w es Hinv Hes) as (w'' & r'' & Hs & Hi & Hsp & _).
  rewrite Hs in H. by injection H as <- <-.
Qed.
(** ** When [Store] succeeds *)


(** ** Loading a bucket file *)

Lemma record_of_renum k e :
  record_of (mkEntry k (e_id e) (e_data e)) = record_of e.
Proof. reflexivity. Qed.

Lemma renum_ids k es : e_id <$> renum k es = e_id <$> es.
Proof. revert k. induction es as [|e es IH]; intros k; simpl; [done|]. by rewrite IH. Qed.

Lemma renum_ptrs k es : e_ptr <$> renum k es = seq k (length es).
Proof. revert k. induction es as [|e es IH]; intros k; simpl; [done|]. by rewrite IH. Qed.

Lemma renum_file k es : file_of (renum k es) = file_of es.
Proof. revert k. induction es as [|e es IH]; intros k; simpl; [done|]. by rewrite IH. Qed.

Lemma renum_total_len k es : total_len (renum k es) = total_len es.
Proof. unfold total_len. by rewrite renum_file. Qed.

Lemma renum_length k es : length (renum k es) = length es.
Proof. revert k. induction es as [|e es IH]; intros k; simpl; [done|]. by rewrite IH. Qed.

Lemma renum_valid k es :
  Forall (fun e => valid_id (e_id e) = true) es ->
  Forall (fun e => valid_id (e_id e) = true) (renum k es).
Proof.
  revert k. induction es as [|e es IH]; intros k; simpl; [done|].
  intros [H1 H2]%Forall_cons. apply Forall_cons. split; [done|]. by apply IH.
Qed.

Lemma renum_nil k es : renum k es = [] <-> es = [].
Proof. by destruct es. Qed.

Lemma bytes_of_meta_str e :
  bytes_of (meta_str e)
  = bytes_of (e_id e) ++ space :: bytes_of (fmt_d (e_size e)) ++ [space].
Proof. unfold meta_str. by rewrite !bytes_of_app. Qed.

Lemma e_metaSize_eq e :
  e_metaSize e
  = Z.of_nat (length (bytes_of (e_id e)) + length (bytes_of (fmt_d (e_size e)))) + 1.
Proof.
  unfold e_metaSize. rewrite <- bytes_of_length, bytes_of_meta_str.
  rewrite length_app. simpl. rewrite length_app. simpl. lia.
Qed.

(** One turn of the loop reads one record and links its node; the loop ends
    at the end of the file. *)
Lemma getObjectsMetadata_loop_spec io es2 :
  io SysRead = true ->
  forall es1 a fuel,
    Forall (fun e => valid_id (e_id e) = true) es2 ->
    NoDup (e_id <$> (es1 ++ es2)) ->
    total_len (es1 ++ es2) <= max_int64 ->
    e_ptr <$> es1 = seq 0 (length es1) ->
    length a = length es1 ->
    chain a None 0 es1 None ->
    (length (file_of es2) < fuel)%nat ->
    exists a',
      getObjectsMetadata_loop fuel io (file_of es2)
        (list_to_map (index_of es1)) a (total_len es1) (last_ptr es1 None)
      = Some (Ok (list_to_map (index_of (es1 ++ renum (length es1) es2)),
                  last_ptr (es1 ++ renum (length es1) es2) None, a'))
      /\ chain a' None 0 (es1 ++ renum (length es1) es2) None.
Proof.
  intros Hread. induction es2 as [|e es2 IH];
    intros es1 a fuel Hvalid Hids Hfits Hptrs Hlen Hchain Hfuel.
  - destruct fuel as [|fuel]; [simpl in Hfuel; lia|]. simpl.
    unfold ReadString. rewrite Hread. simpl. rewrite app_nil_r. by exists a.
  - destruct fuel as [|fuel]; [simpl in Hfuel; lia|].
    apply Forall_cons in Hvalid as [Hve Hvalid]. simpl in Hve.
    pose proof (valid_id_no_space _ Hve) as Hsp1.
    pose proof (fmt_d_no_space _ (e_size_nonneg e)) as Hsp2.
    rewrite total_len_app, total_len_cons in Hfits.
    pose proof (total_len_nonneg es1). pose proof (total_len_nonneg es2).
    pose proof (e_metaSize_pos e). pose proof (e_size_nonneg e).
    assert (Hl : e_len e = e_metaSize e + e_size e + 2) by done.
    set (e' := mkEntry (length es1) (e_id e) (e_data e)).
    cbn [getObjectsMetadata_loop file_of]. unfold record_of.
    rewrite bytes_of_meta_str, <- !app_assoc. simpl app.
    (* the identifier *)
    unfold ReadString at 1. rewrite Hread. simpl negb. cbv iota.
    rewrite (read_until_app _ _ _ Hsp1). rewrite chop_app.
    (* the length *)
    unfold ReadString at 1. rewrite Hread. simpl negb. cbv iota.
    rewrite <- app_assoc. simpl app. rewrite (read_until_app _ _ _ Hsp2). rewrite chop_app.
    cbv iota beta.
    rewrite string_of_bytes_of, ParseInt_fmt_d by (unfold max_int64 in *; lia).
    assert (Hms : add64 (Z.of_nat (length (bytes_of (e_id e))
                                   + length (bytes_of (fmt_d (e_size e))))) 1
                  = e_metaSize e).
    { pose proof (e_metaSize_eq e). rewrite add64_small by int64. lia. }
    rewrite Hms.
    rewrite (add64_small (e_size e) 1) by int64.
    (* the object and the separator *)
    assert (Hd : Discard io (e_data e ++ separator :: file_of es2)
                   (e_size e + 1) = Ok (file_of es2)).
    { unfold Discard. rewrite Hread. simpl.
      destruct (e_size e + 1 <? 0) eqn:E1; [zlia|].
      destruct (e_size e + 1 =? 0) eqn:E2; [zlia|].
      rewrite length_app. simpl.
      destruct (_ <? e_size e + 1) eqn:E3; [unfold e_size in *; zlia|].
      replace (Z.to_nat (e_size e + 1)) with (length (e_data e ++ [separator])).
      - replace (e_data e ++ separator :: file_of es2)
          with ((e_data e ++ [separator]) ++ file_of es2)
          by (by rewrite <- app_assoc).
        by rewrite drop_app_length.
      - rewrite length_app. simpl. unfold e_size. lia. }
    rewrite Hd. rewrite string_of_bytes_of.
    rewrite (add64_small (e_metaSize e) (e_size e)) by int64.
    rewrite (add64_small (e_metaSize e + e_size e) 2) by int64.
    rewrite (add64_small (total_len es1)) by int64.
    (* the node of the record *)
    assert (Hnd1 : NoDup (e_ptr <$> es1)) by (rewrite Hptrs; apply NoDup_seq).
    assert (Hnotin : e_id e' ∉ e_id <$> es1).
    { rewrite fmap_app in Hids. apply NoDup_app in Hids as (_ & Hd' & _).
      intros Hin. apply (Hd' _ Hin). simpl. by left. }
    pose proof (chain_link a es1 e' Hnd1 Hchain) as Hlink.
    rewrite Hlen in Hlink. specialize (Hlink eq_refl). simpl in Hlink.
    rewrite Hlen.
    match type of Hlink with chain ?t _ _ _ _ => set (a1 := t) in Hlink end.
    assert (Hlen1 : length a1 = length (es1 ++ [e'])).
    { unfold a1. destruct (last_ptr es1 None);
        rewrite ?length_alter, !length_app; simpl; by rewrite Hlen. }
    destruct (IH (es1 ++ [e']) a1 fuel) as (a' & Hloop & Hchain'); try done.
    + rewrite <- app_assoc. simpl.
      rewrite !fmap_app in *. simpl in *. done.
    + rewrite <- app_assoc. simpl. rewrite total_len_app, total_len_cons.
      change (e_len e') with (e_len e). lia.
    + rewrite fmap_app, Hptrs, length_app. simpl. by rewrite seq_app.
    + cbn [file_of] in Hfuel. rewrite length_app in Hfuel.
      pose proof (record_length e). pose proof (e_len_pos e). lia.
    + exists a'.
      assert (Hes : (es1 ++ [e']) ++ renum (length (es1 ++ [e'])) es2
                    = es1 ++ renum (length es1) (e :: es2)).
      { rewrite <- app_assoc, length_app. simpl. by rewrite Nat.add_1_r. }
      rewrite Hes in Hloop, Hchain'. split; [|exact Hchain'].
      etrans; [|exact Hloop]. f_equal.
      * symmetry. exact (index_snoc es1 e' Hnotin).
      * rewrite total_len_app, total_len_cons, total_len_nil.
        change (e_len e') with (e_len e). lia.
      * by rewrite last_ptr_snoc.
Qed.

(** The loader reads the file of the records [es] back into a chain that
    describes [es]. *)
Lemma getObjectsMetadata_spec io es :
  io SysRead = true ->
  Forall (fun e => valid_id (e_id e) = true) es ->
  NoDup (e_id <$> es) ->
  total_len es <= max_int64 ->
  exists a,
    getObjectsMetadata io (file_of es)
    = Some (Ok (list_to_map (index_of (renum 0 es)),
                last_ptr (renum 0 es) None, a))
    /\ chain a None 0 (renum 0 es) None.
Proof.
  intros Hread Hvalid Hids Hfits. unfold getObjectsMetadata.
  assert (Hfuel : (length (file_of es) < S (length (file_of es)))%nat) by lia.
  destruct (getObjectsMetadata_loop_spec io es Hread [] [] (S (length (file_of es)))
              Hvalid Hids Hfits eq_refl eq_refl I Hfuel)
    as (a & Hloop & Hchain).
  exists a. split; [exact Hloop|exact Hchain].
Qed.

Lemma getObjectsMetadata_read_fails io bf :
  io SysRead = false ->
  getObjectsMetadata io bf = Some (Err (ErrOs SysRead)).
Proof.
  intros Hread. unfold getObjectsMetadata. simpl. unfold ReadString.
  by rewrite Hread.
Qed.

(** The fuel of [getObjectsMetadata] is enough for every file. *)
Lemma getObjectsMetadata_loop_total io fuel :
  forall r objs a off lst,
    (length r < fuel)%nat ->
    getObjectsMetadata_loop fuel io r objs a off lst <> None.
Proof.
  induction fuel as [|fuel IH]; intros r objs a off lst Hfuel; [lia|].
  simpl. unfold ReadString.
  destruct (io SysRead) eqn:Hread; simpl; [|done].
  destruct (read_until space r) as [[line1 r1]|] eqn:E1; [|done].
  apply read_until_length in E1 as [Hl1 Hp1].
  destruct (read_until space r1) as [[line2 r2]|] eqn:E2; [|done].
  apply read_until_length in E2 as [Hl2 Hp2].
  destruct (ParseInt _) as [objSize|]; [|done].
  unfold Discard.
  destruct (add64 objSize 1 <? 0); [done|].
  destruct (add64 objSize 1 =? 0).
  - apply IH. lia.
  - rewrite Hread. simpl.
    destruct (_ <? add64 objSize 1); [done|].
    apply IH. rewrite length_drop. lia.
Qed.

Lemma getObjectsMetadata_total io bf : getObjectsMetadata io bf <> None.
Proof. apply getObjectsMetadata_loop_total. lia. Qed.
(** ** The names of the bucket files *)

Lemma id_char_not_dot c : id_char c = true -> Ascii.eqb c "." = false.
Proof.
  destruct c as [[|] [|] [|] [|] [|] [|] [|] [|]]; vm_compute;
    intros H1; first [ discriminate H1 | reflexivity ].
Qed.

Lemma valid_id_no_dot s : valid_id s = true -> contains "." s = false.
Proof.
  intros [_ H]%andb_prop. induction s as [|c s IH]; simpl in *; [done|].
  apply andb_prop in H as [Hc Hs]. by rewrite id_char_not_dot, IH.
Qed.

Lemma strings_Split_nonempty s c : strings_Split s c <> [].
Proof.
  induction s as [|x s IH]; simpl; [done|].
  destruct (Ascii.eqb x c); [done|]. by destruct (strings_Split s c).
Qed.

Lemma strings_Split_no_sep s c : contains c s = false -> strings_Split s c = [s].
Proof.
  induction s as [|x s IH]; simpl; [done|].
  intros [Hx Hs]%orb_false_elim. rewrite Hx, IH by done. done.
Qed.

Lemma strings_Split_app s t c :
  strings_Split (s +:+ String c t) c = strings_Split s c ++ strings_Split t c.
Proof.
  induction s as [|x s IH].
  - rewrite app_nil_s. simpl. by rewrite Ascii.eqb_refl.
  - rewrite app_String. simpl. destruct (Ascii.eqb x c).
    + by rewrite IH.
    + rewrite IH. pose proof (strings_Split_nonempty s c).
      by destruct (strings_Split s c).
Qed.

Lemma path_Base_Join dir name :
  contains "/" name = false -> nonempty name = true ->
  path_Base (path_Join dir name) = name.
Proof.
  intros Hslash Hne. unfold path_Base, path_Join.
  change ("/" +:+ name) with (String "/" name).
  rewrite strings_Split_app, (strings_Split_no_sep name) by done.
  rewrite filter_app, filter_cons_True by done.
  by rewrite filter_nil, last_snoc.
Qed.

(** The bucket id the loader derives from the path of a bucket file. *)
Lemma bucket_id_of_path dir b :
  valid_id b = true ->
  strings_Join
    (removelast (strings_Split (path_Base (path_Join dir (b +:+ ".dat"))) "."))
    "." = b.
Proof.
  intros Hb. rewrite path_Base_Join.
  - change (b +:+ ".dat") with (b +:+ String "." "dat").
    rewrite strings_Split_app, (strings_Split_no_sep b)
      by (by apply valid_id_no_dot).
    done.
  - by rewrite contains_app, valid_id_no_slash.
  - apply andb_prop in Hb as [Hb _]. by destruct b.
Qed.

Lemma elem_of_Glob dir (d : disk) p :
  p ∈ Glob dir d <-> is_Some (d !! p) /\ glob_match dir p = true.
Proof.
  unfold Glob. rewrite list_elem_of_filter, list_elem_of_fmap. split.
  - intros [Hg ([p' c] & -> & Hin)]. apply elem_of_map_to_list in Hin.
    split; [by eexists|done].
  - intros [[c Hc] Hg]. split; [done|]. exists (p, c). split; [done|].
    by apply elem_of_map_to_list.
Qed.

Lemma NoDup_Glob dir (d : disk) : NoDup (Glob dir d).
Proof. unfold Glob. apply NoDup_filter, NoDup_fst_map_to_list. Qed.
(** ** Starting the store over the files it left *)

Lemma file_of_nil_inv es : file_of es = [] -> es = [].
Proof.
  intros H. destruct es as [|e es]; [done|].
  assert (4 <= total_len (e :: es)) by (by apply total_len_pos).
  unfold total_len in *. rewrite H in *. simpl in *. lia.
Qed.

Lemma bucket_inv_last_None sp d b bm es :
  bucket_inv sp d b bm es -> lastObject bm = None <-> es = [].
Proof.
  intros Hbi. rewrite (bi_last _ _ _ _ _ Hbi). split; [|by intros ->].
  destruct es as [|e es _] using rev_ind; [done|]. by rewrite last_ptr_snoc.
Qed.

Lemma bucket_meta_inv_disk sp d b bm es :
  bucket_meta_inv sp b bm es ->
  d !! filePath bm = Some (file_of es) ->
  bucket_inv sp d b bm es.
Proof.
  intros Hm Hd. eapply bucket_inv_frame; [|exact Hm].
  by rewrite lookup_insert_eq.
Qed.

(** What the invariant says about a file that [Glob] finds. *)
Lemma glob_file_info w p content :
  store_inv w ->
  files w !! p = Some content ->
  glob_match (storePath w) p = true ->
  exists es,
    content = file_of es
    /\ Forall (fun e => valid_id (e_id e) = true) es
    /\ NoDup (e_id <$> es)
    /\ total_len es <= max_int64
    /\ (es = []
        \/ exists b bm,
             valid_id b = true /\ buckets w !! b = Some bm /\ filePath bm = p
             /\ bucket_inv (storePath w) (files w) b bm es).
Proof.
  intros Hinv Hp Hg.
  destruct (si_files _ Hinv _ _ Hp Hg) as [->|(b & bm & Hb & Hpath)].
  - exists []. repeat split; try done; try apply NoDup_nil_2. by left.
  - destruct (si_buckets _ Hinv _ _ Hb) as (Hvb & es & Hbi).
    exists es. pose proof (bi_file _ _ _ _ _ Hbi) as Hfile.
    rewrite Hpath, Hp in Hfile.
    split; [done|]. split; [exact (bi_valid _ _ _ _ _ Hbi)|].
    split; [exact (bi_ids _ _ _ _ _ Hbi)|].
    split; [exact (bi_fits _ _ _ _ _ Hbi)|].
    right. exists b, bm. done.
Qed.

(** The metadata the loader builds for the file of the records [es]. *)
Lemma loaded_bucket_meta_inv io sp b es objs lst a :
  io SysRead = true ->
  valid_id b = true ->
  Forall (fun e => valid_id (e_id e) = true) es ->
  NoDup (e_id <$> es) ->
  total_len es <= max_int64 ->
  getObjectsMetadata io (file_of es) = Some (Ok (objs, lst, a)) ->
  bucket_meta_inv sp b
    (mkBucket (path_Join sp (b +:+ ".dat")) (bucketIdToMutexIndex b).1 lst objs a)
    (renum 0 es).
Proof.
  intros Hread Hvb Hvalid Hids Hfits Hload.
  destruct (getObjectsMetadata_spec io es Hread Hvalid Hids Hfits)
    as (a' & Hspec & Hchain).
  rewrite Hspec in Hload. injection Hload as <- <- <-.
  unfold bucket_meta_inv. split; simpl; try done.
  - by rewrite renum_ids.
  - rewrite renum_ptrs. apply NoDup_seq.
  - by apply renum_valid.
  - by rewrite lookup_insert_eq.
  - by rewrite renum_total_len.
Qed.

(** What the loop of [loadDataFromDisk] does with the files of a store that
    satisfies the invariant. *)
Lemma load_buckets_spec io w :
  store_inv w ->
  forall ps d bs,
    NoDup ps ->
    (forall p, p ∈ ps ->
       is_Some (files w !! p) /\ glob_match (storePath w) p = true
       /\ d !! p = files w !! p) ->
    exists d' r,
      load_buckets io ps d bs = Some (d', r)
      /\ (forall p, p ∉ ps -> d' !! p = d !! p)
      /\ (forall p, p ∈ ps ->
            d' !! p = files w !! p
            \/ (d' !! p = None /\ files w !! p = Some []))
      /\ (io SysOpen = true -> io SysRead = true -> exists bs', r = Ok bs')
      /\ (forall bs', r = Ok bs' ->
          forall b,
            match buckets w !! b with
            | Some bm =>
                if decide (filePath bm ∈ ps /\ lastObject bm <> None) then
                  exists bm',
                    bs' !! b = Some bm'
                    /\ forall es,
                         bucket_inv (storePath w) (files w) b bm es ->
                         bucket_meta_inv (storePath w) b bm' (renum 0 es)
                else bs' !! b = bs !! b
            | None => bs' !! b = bs !! b
            end).
Proof.
  intros Hinv ps. induction ps as [|p ps IH]; intros d bs Hnd Hps.
  - exists d, (Ok bs). split; [done|]. split; [done|].
    split; [by intros p []%elem_of_nil|]. split; [by eexists|].
    intros bs' [= <-] b. destruct (buckets w !! b) as [bm|]; [|done].
    case_decide as Hdec; [|done]. destruct Hdec as [[]%elem_of_nil _].
  - apply NoDup_cons in Hnd as [Hp Hnd].
    destruct (Hps p) as ([content Hc] & Hg & Hdp); [by left|].
    destruct (glob_file_info w p content Hinv Hc Hg)
      as (es & -> & Hvalid & Hids & Hfits & Hreg).
    cbn [load_buckets].
    pose proof (bucketIdToMutexIndex_eq
      (strings_Join (removelast (strings_Split (path_Base p) ".")) ".")) as Emu.
    destruct (bucketIdToMutexIndex _) as [mu err] eqn:Emu'.
    injection Emu as Hmu ->.
    unfold os_Open. rewrite Hdp, Hc.
    destruct (io SysOpen) eqn:Hopen.
    2:{ exists d, (Err (ErrOpenBucket (ErrOs SysOpen))). split; [done|].
        split; [done|]. split.
        { intros q Hq. left. by apply Hps. }
        split; [done|]. done. }
    destruct (io SysRead) eqn:Hread.
    2:{ rewrite getObjectsMetadata_read_fails by done.
        exists d, (Err (ErrOs SysRead)). split; [done|].
        split; [done|]. split.
        { intros q Hq. left. by apply Hps. }
        split; [done|]. done. }
    destruct (getObjectsMetadata_spec io es Hread Hvalid Hids Hfits)
      as (a & Hload & Hchain).
    rewrite Hload.
    rewrite index_size by (by rewrite renum_ids). rewrite renum_length.
    destruct (decide (es = [])) as [->|Hes].
    + (* an empty file *)
      clear Hreg. simpl length. rewrite bool_decide_false by lia.
      set (d1 := if io SysRemove then delete p d else d).
      assert (Hd1 : forall q, q <> p -> d1 !! q = d !! q).
      { intros q Hq. unfold d1. destruct (io SysRemove); [|done].
        by rewrite lookup_delete_ne. }
      destruct (IH d1 bs Hnd) as (d' & r & Hl & Hout & Hin & Hok & Hbs).
      { intros q Hq. destruct (Hps q) as (H1 & H2 & H3); [by right|].
        split; [done|]. split; [done|]. rewrite Hd1; [done|]. by intros ->. }
      exists d', r. split; [done|]. split; [|split; [|split; [done|]]].
      * intros q Hq. apply not_elem_of_cons in Hq as [Hq1 Hq2].
        rewrite Hout by done. by apply Hd1.
      * intros q [->|Hq]%elem_of_cons; [|by apply Hin].
        rewrite Hout by done. unfold d1. destruct (io SysRemove).
        -- right. by rewrite lookup_delete_eq.
        -- left. done.
      * intros bs' Hr b. specialize (Hbs bs' Hr b).
        destruct (buckets w !! b) as [bm|] eqn:Hb; [|done].
        assert (Hiff : (filePath bm ∈ p :: ps /\ lastObject bm <> None)
                       <-> (filePath bm ∈ ps /\ lastObject bm <> None)).
        { split; intros [H1 H2]; (split; [|done]); [|by right].
          apply elem_of_cons in H1 as [E|H1]; [|done]. exfalso. apply H2.
          destruct (si_buckets _ Hinv _ _ Hb) as (_ & es & Hbi).
          apply (bucket_inv_last_None _ _ _ _ _ Hbi).
          pose proof (bi_file _ _ _ _ _ Hbi) as Hfile.
          rewrite E, Hc in Hfile. symmetry in Hfile.
          by apply file_of_nil_inv in Hfile. }
        destruct (decide (filePath bm ∈ ps /\ lastObject bm <> None)) as [Hd|Hd].
        -- rewrite decide_True by (by apply Hiff). done.
        -- rewrite decide_False by (by rewrite Hiff). done.
    + (* the file of a registered bucket *)
      destruct Hreg as [->|(bp & bmp & Hvbp & Hbp & Hpath & Hbip)]; [done|].
      rewrite bool_decide_true by (destruct es; [done|simpl; lia]).
      assert (Hpp : p = path_Join (storePath w) (bp +:+ ".dat")).
      { by rewrite <- Hpath, (bi_path _ _ _ _ _ Hbip). }
      assert (Hid : strings_Join
                (removelast (strings_Split (path_Base p) ".")) "." = bp).
      { rewrite Hpp. by apply bucket_id_of_path. }
      rewrite Hid in *.
      assert (Hmu' : mu = (bucketIdToMutexIndex bp).1) by (by rewrite Emu').
      set (bml := mkBucket p mu _ _ a).
      assert (Hbml : forall es',
                bucket_inv (storePath w) (files w) bp bmp es' ->
                bucket_meta_inv (storePath w) bp bml (renum 0 es')).
      { intros es' Hbi'. unfold bml. rewrite Hpp, Hmu'.
        pose proof (bi_file _ _ _ _ _ Hbi') as Hfile.
        rewrite Hpath, Hc in Hfile.
        apply (loaded_bucket_meta_inv io); try done.
        - exact (bi_valid _ _ _ _ _ Hbi').
        - exact (bi_ids _ _ _ _ _ Hbi').
        - exact (bi_fits _ _ _ _ _ Hbi').
        - by rewrite <- Hfile. }
      destruct (IH d (<[bp := bml]> bs) Hnd) as (d' & r & Hl & Hout & Hin & Hok & Hbs).
      { intros q Hq. apply Hps. by right. }
      exists d', r. split; [done|]. split; [|split; [|split; [done|]]].
      * intros q Hq. apply not_elem_of_cons in Hq as [Hq1 Hq2]. by apply Hout.
      * intros q [->|Hq]%elem_of_cons; [|by apply Hin].
        left. rewrite Hout by done. done.
      * intros bs' Hr b. specialize (Hbs bs' Hr b).
        destruct (decide (b = bp)) as [->|Hne].
        -- rewrite Hbp in *.
           rewrite decide_False in Hbs by (rewrite Hpath; by intros [? _]).
           rewrite lookup_insert_eq in Hbs.
           rewrite decide_True.
           ++ exists bml. done.
           ++ split; [rewrite Hpath; by left|].
              intros E. apply Hes.
              by apply (bucket_inv_last_None _ _ _ _ _ Hbip).
        -- rewrite lookup_insert_ne in Hbs by done.
           destruct (buckets w !! b) as [bm|] eqn:Hb; [|done].
           assert (Hiff : (filePath bm ∈ p :: ps /\ lastObject bm <> None)
                          <-> (filePath bm ∈ ps /\ lastObject bm <> None)).
           { split; intros [H1 H2]; (split; [|done]); [|by right].
             apply elem_of_cons in H1 as [E|H1]; [|done]. exfalso. apply Hne.
             destruct (si_buckets _ Hinv _ _ Hb) as (_ & es' & Hbi').
             apply (bucket_path_inj (storePath w)).
             by rewrite <- (bi_path _ _ _ _ _ Hbi'), E, Hpp. }
           destruct (decide (filePath bm ∈ ps /\ lastObject bm <> None)) as [Hd|Hd].
           ++ rewrite decide_True by (by apply Hiff). done.
           ++ rewrite decide_False by (by rewrite Hiff). done.
Qed.

(** [NewStore] over the files of a store returns; when it reports no error,
    the new store satisfies the invariant and every bucket has the records
    it had, its nodes numbered anew. *)
Lemma NewStore_spec io w :
  store_inv w ->
  exists d' r,
    NewStore io (storePath w) (files w) = Some (d', r)
    /\ (io SysStatDir = true -> io SysGlob = true -> io SysOpen = true ->
        io SysRead = true -> exists w', r = Ok w')
    /\ (forall w', r = Ok w' ->
          store_inv w' /\ storePath w' = storePath w /\ files w' = d'
          /\ forall b es, records_of w b es -> records_of w' b (renum 0 es)).
Proof.
  intros Hinv. unfold NewStore, loadDataFromDisk.
  destruct (io SysStatDir) eqn:Hstat; simpl.
  2:{ eexists _, _. split; [done|]. split; [done|]. done. }
  destruct (io SysGlob) eqn:Hglob; simpl.
  2:{ eexists _, _. split; [done|]. split; [done|]. done. }
  destruct (load_buckets_spec io w Hinv (Glob (storePath w) (files w)) (files w) ∅)
    as (d' & r & Hl & Hout & Hin & Hok & Hbs).
  { apply NoDup_Glob. }
  { intros p [Hp Hg]%elem_of_Glob. done. }
  rewrite Hl. destruct r as [bs'|err].
  2:{ eexists _, _. split; [done|]. split; [|done].
      intros _ _ Ho Hr. destruct (Hok Ho Hr) as [? [=]]. }
  eexists _, _. split; [done|]. split; [by eexists|].
  intros w' [= <-]. specialize (Hbs bs' eq_refl).
  (* the records of the buckets *)
  assert (Hrec : forall b es,
            records_of w b es ->
            records_of (mkWorld d' (storePath w) bs') b (renum 0 es)).
  { intros b es Hes. unfold records_of in *. simpl. specialize (Hbs b).
    destruct (buckets w !! b) as [bm|] eqn:Hb.
    - destruct (decide (es = [])) as [->|Hne].
      + rewrite decide_False in Hbs.
        * by rewrite Hbs, lookup_empty.
        * intros [_ Hlast]. apply Hlast.
          by apply (bucket_inv_last_None _ _ _ _ _ Hes).
      + pose proof (bi_file _ _ _ _ _ Hes) as Hfile.
        destruct (files w !! filePath bm) as [c|] eqn:Hc; [subst c|done].
        destruct (si_buckets _ Hinv _ _ Hb) as (Hvb & _).
        assert (Hglobbed : filePath bm ∈ Glob (storePath w) (files w)).
        { apply elem_of_Glob. split; [by eexists|].
          rewrite (bi_path _ _ _ _ _ Hes). by apply glob_match_bucket. }
        rewrite decide_True in Hbs.
        * destruct Hbs as (bm' & -> & Hm). specialize (Hm es Hes).
          apply bucket_meta_inv_disk; [done|].
          assert (Hpath : filePath bm' = filePath bm).
          { by rewrite (bi_path _ _ _ _ _ Hm), (bi_path _ _ _ _ _ Hes). }
          rewrite Hpath, renum_file.
          destruct (Hin _ Hglobbed) as [->|[_ E]]; [done|].
          rewrite Hc in E. injection E as E.
          by apply file_of_nil_inv in E.
        * split; [done|]. intros E. apply Hne.
          by apply (bucket_inv_last_None _ _ _ _ _ Hes).
    - subst es. by rewrite Hbs, lookup_empty. }
  split; [|done].
  split; simpl.
  - intros b bm' Hb'.
    destruct (records_of_exists w b Hinv) as (es & Hes).
    pose proof (Hrec b es Hes) as Hes'. unfold records_of in Hes'.
    simpl in Hes'. rewrite Hb' in Hes'. split; [|by exists (renum 0 es)].
    specialize (Hbs b). unfold records_of in Hes.
    destruct (buckets w !! b) as [bm|] eqn:Hb.
    + by destruct (si_buckets _ Hinv _ _ Hb).
    + rewrite Hbs, lookup_empty in Hb'. done.
  - intros p content Hp Hg.
    assert (Hpw : files w !! p = Some content /\ p ∈ Glob (storePath w) (files w)).
    { destruct (decide (p ∈ Glob (storePath w) (files w))) as [Hpin|Hpout].
      - split; [|done]. destruct (Hin _ Hpin) as [E|[E _]]; congruence.
      - rewrite Hout in Hp by done. split; [done|]. exfalso. apply Hpout.
        apply elem_of_Glob. split; [by eexists|done]. }
    destruct Hpw as [Hpw Hpin].
    destruct (si_files _ Hinv _ _ Hpw Hg) as [->|(b & bm & Hb & Hpath)];
      [by left|].
    destruct (si_buckets _ Hinv _ _ Hb) as (Hvb & es & Hbi).
    destruct (decide (es = [])) as [->|Hne].
    + left. pose proof (bi_file _ _ _ _ _ Hbi) as Hfile.
      rewrite Hpath, Hpw in Hfile. done.
    + right. specialize (Hrec b es). unfold records_of in Hrec.
      rewrite Hb in Hrec. specialize (Hrec Hbi). simpl in Hrec.
      destruct (bs' !! b) as [bm'|] eqn:Hb'; [|by apply renum_nil in Hrec].
      exists b, bm'. split; [done|].
      by rewrite (bi_path _ _ _ _ _ Hrec), <- Hpath, (bi_path _ _ _ _ _ Hbi).
Qed.

(** A store over a folder without bucket files. *)
Lemma store_inv_new sp (d : disk) :
  (forall p, is_Some (d !! p) -> glob_match sp p = false) ->
  store_inv (mkWorld d sp ∅).
Proof.
  intros Hd. split; simpl.
  - intros b bm. by rewrite lookup_empty.
  - intros p content Hp Hg. rewrite Hd in Hg; [done|by eexists].
Qed.

Lemma NewStore_new io sp (d : disk) :
  io SysStatDir = true -> io SysGlob = true ->
  (forall p, is_Some (d !! p) -> glob_match sp p = false) ->
  NewStore io sp d = Some (d, Ok (mkWorld d sp ∅)).
Proof.
  intros Hstat Hglob Hd. unfold NewStore, loadDataFromDisk.
  rewrite Hstat, Hglob. simpl.
  assert (Glob sp d = []) as ->; [|done].
  apply elem_of_nil_inv. intros p [Hp Hg]%elem_of_Glob.
  rewrite Hd in Hg; done.
Qed.

(** ** Every state of the store satisfies the invariant *)

Lemma reachable_inv sp w : reachable sp w -> store_inv w /\ storePath w = sp.
Proof.
  induction 1 as [d Hd|w io obj o b w' r _ [IH Hsp] Hvo Hvb Hs
                 |w io o b w' r _ [IH Hsp] Hd|w io d' w' _ [IH Hsp] Hn].
  - split; [by apply store_inv_new|done].
  - destruct (Store_inv _ _ _ _ _ _ _ IH Hvo Hvb Hs). split; congruence.
  - destruct (Delete_inv _ _ _ _ _ _ IH Hd). split; congruence.
  - destruct (NewStore_spec io w IH) as (d'' & r & Hn' & _ & Hok).
    rewrite <- Hsp, Hn' in Hn. injection Hn as -> ->.
    destruct (Hok w' eq_refl) as (Hi & Hs & _). split; congruence.
Qed.
(** ** What the metadata says, in terms of the records *)

Lemma object_meta_middle w b es1 e es2 :
  records_of w b (es1 ++ e :: es2) ->
  object_meta w b (e_id e) = Some (node_of es1 e es2).
Proof.
  intros Hes. unfold object_meta, records_of in *.
  destruct (buckets w !! b) as [bm|]; [|by destruct es1]. simpl.
  rewrite (bi_objects _ _ _ _ _ Hes), index_lookup_middle
    by exact (bi_ids _ _ _ _ _ Hes).
  simpl. exact (bucket_inv_node _ _ _ _ _ _ _ Hes).
Qed.

Lemma object_meta_absent w b es o :
  records_of w b es -> o ∉ e_id <$> es -> object_meta w b o = None.
Proof.
  intros Hes Ho. unfold object_meta, records_of in *.
  destruct (buckets w !! b) as [bm|]; [|done]. simpl.
  rewrite (bi_objects _ _ _ _ _ Hes).
  apply index_lookup_None in Ho. by rewrite Ho.
Qed.

Lemma object_meta_inv w b es o om :
  records_of w b es ->
  object_meta w b o = Some om ->
  exists es1 e es2, es = es1 ++ e :: es2 /\ e_id e = o /\ om = node_of es1 e es2.
Proof.
  intros Hes Hom.
  destruct (decide (o ∈ e_id <$> es)) as [Hin|Hout].
  - apply list_elem_of_fmap in Hin as (e & -> & He).
    apply list_elem_of_split in He as (es1 & es2 & ->).
    rewrite (object_meta_middle _ _ _ _ _ Hes) in Hom. injection Hom as <-.
    by exists es1, e, es2.
  - by rewrite (object_meta_absent _ _ _ _ Hes Hout) in Hom.
Qed.

Lemma records_of_NoDup_ids w b es : records_of w b es -> NoDup (e_id <$> es).
Proof.
  unfold records_of. destruct (buckets w !! b).
  - apply bi_ids.
  - intros ->. apply NoDup_nil_2.
Qed.

Lemma records_of_NoDup_ptrs w b es : records_of w b es -> NoDup (e_ptr <$> es).
Proof.
  unfold records_of. destruct (buckets w !! b).
  - apply bi_ptrs.
  - intros ->. apply NoDup_nil_2.
Qed.

(** The place of a record in a list without duplicate identifiers. *)
Lemma split_unique (es1 es1' : list entry) e e' es2 es2' :
  NoDup (e_id <$> (es1 ++ e :: es2)) ->
  es1 ++ e :: es2 = es1' ++ e' :: es2' ->
  e_id e = e_id e' ->
  es1 = es1' /\ e = e' /\ es2 = es2'.
Proof.
  revert es1'. induction es1 as [|x es1 IH]; intros es1' Hnd Heq Hid.
  - destruct es1' as [|x' es1'].
    + simpl in Heq. injection Heq as -> ->. done.
    + simpl in Heq. injection Heq as <- ->. exfalso.
      simpl in Hnd. apply NoDup_cons in Hnd as [Hn _]. apply Hn.
      rewrite Hid, fmap_app. apply elem_of_app. right. by left.
  - destruct es1' as [|x' es1'].
    + simpl in Heq. injection Heq as -> <-. exfalso.
      simpl in Hnd. apply NoDup_cons in Hnd as [Hn _]. apply Hn.
      rewrite <- Hid, fmap_app. apply elem_of_app. right. by left.
    + simpl in Heq. injection Heq as -> Heq.
      simpl in Hnd. apply NoDup_cons in Hnd as [_ Hnd].
      destruct (IH es1' Hnd Heq Hid) as (-> & -> & ->). done.
Qed.

Lemma NoDup_fmap_eq {A B} (f : A -> B) (l : list A) x y :
  NoDup (f <$> l) -> x ∈ l -> y ∈ l -> f x = f y -> x = y.
Proof.
  induction l as [|z l IH]; simpl; intros Hnd Hx Hy Hf.
  - by apply elem_of_nil in Hx.
  - apply NoDup_cons in Hnd as [Hn Hnd].
    apply elem_of_cons in Hx as [->|Hx]; apply elem_of_cons in Hy as [->|Hy].
    + done.
    + exfalso. apply Hn. rewrite Hf. by apply list_elem_of_fmap_2.
    + exfalso. apply Hn. rewrite <- Hf. by apply list_elem_of_fmap_2.
    + by apply IH.
Qed.

(** The [next] links follow the order of the records. *)
Lemma next_object_adjacent w b es o o' :
  records_of w b es ->
  next_object w b o o' <-> adjacent (e_id <$> es) o o'.
Proof.
  intros Hes. pose proof (records_of_NoDup_ids _ _ _ Hes) as Hids.
  pose proof (records_of_NoDup_ptrs _ _ _ Hes) as Hptrs.
  unfold next_object, adjacent, records_of in *. split.
  - intros (bm & p & p' & om & Hb & Ho & Ho' & Hom & Hnext).
    rewrite Hb in Hes. rewrite (bi_objects _ _ _ _ _ Hes) in Ho, Ho'.
    apply index_split in Ho as (es1 & e & es2 & -> & <- & <-); [|done].
    rewrite (bucket_inv_node _ _ _ _ _ _ _ Hes) in Hom. injection Hom as <-.
    simpl in Hnext. destruct es2 as [|e2 es2]; [done|].
    simpl in Hnext. injection Hnext as <-.
    apply index_lookup_Some in Ho' as (e3 & He3 & <- & Hp3); [|done].
    assert (e3 = e2) as ->.
    { apply (NoDup_fmap_eq e_ptr (es1 ++ e :: e2 :: es2)); try done.
      apply elem_of_app. right. right. by left. }
    exists (e_id <$> es1), (e_id <$> es2). by rewrite fmap_app.
  - intros (l1 & l2 & Hl).
    apply fmap_app_inv in Hl as (es1 & es' & -> & Hes' & ->).
    symmetry in Hes'.
    apply fmap_cons_inv in Hes' as (e & es'' & -> & Hes'' & ->).
    symmetry in Hes''.
    apply fmap_cons_inv in Hes'' as (e2 & es2 & -> & -> & ->).
    destruct (buckets w !! b) as [bm|]; [|by destruct es1].
    exists bm, (e_ptr e), (e_ptr e2), (node_of es1 e (e2 :: es2)).
    split; [done|]. rewrite (bi_objects _ _ _ _ _ Hes).
    split; [by apply index_lookup_middle|]. split.
    + rewrite (cons_middle e), app_assoc. apply index_lookup_middle.
      by rewrite <- app_assoc.
    + split; [by apply (bucket_inv_node _ _ _ _ _ _ _ Hes)|done].
Qed.

(** The [prev] links follow the order of the records backwards. *)
Lemma prev_object_adjacent w b es o o' :
  records_of w b es ->
  prev_object w b o o' <-> adjacent (e_id <$> es) o' o.
Proof.
  intros Hes. pose proof (records_of_NoDup_ids _ _ _ Hes) as Hids.
  pose proof (records_of_NoDup_ptrs _ _ _ Hes) as Hptrs.
  unfold prev_object, adjacent, records_of in *. split.
  - intros (bm & p & p' & om & Hb & Ho & Ho' & Hom & Hprev).
    rewrite Hb in Hes. rewrite (bi_objects _ _ _ _ _ Hes) in Ho, Ho'.
    apply index_split in Ho as (es1 & e & es2 & -> & <- & <-); [|done].
    rewrite (bucket_inv_node _ _ _ _ _ _ _ Hes) in Hom. injection Hom as <-.
    simpl in Hprev. destruct es1 as [|e1 es1 _] using rev_ind; [done|].
    rewrite last_ptr_snoc in Hprev. injection Hprev as <-.
    apply index_lookup_Some in Ho' as (e3 & He3 & <- & Hp3); [|done].
    assert (e3 = e1) as ->.
    { apply (NoDup_fmap_eq e_ptr ((es1 ++ [e1]) ++ e :: es2)); try done.
      apply elem_of_app. left. apply elem_of_app. right. by left. }
    exists (e_id <$> es1), (e_id <$> es2).
    by rewrite <- app_assoc, fmap_app.
  - intros (l1 & l2 & Hl).
    apply fmap_app_inv in Hl as (es1 & es' & -> & Hes' & ->).
    symmetry in Hes'.
    apply fmap_cons_inv in Hes' as (e1 & es'' & -> & Hes'' & ->).
    symmetry in Hes''.
    apply fmap_cons_inv in Hes'' as (e & es2 & -> & -> & ->).
    destruct (buckets w !! b) as [bm|]; [|by destruct es1].
    assert (Hes2 : bucket_inv (storePath w) (files w) b bm
                     ((es1 ++ [e1]) ++ e :: es2)).
    { by rewrite <- app_assoc. }
    exists bm, (e_ptr e), (e_ptr e1), (node_of (es1 ++ [e1]) e es2).
    split; [done|]. rewrite (bi_objects _ _ _ _ _ Hes).
    split.
    { rewrite (cons_middle e1), app_assoc. apply index_lookup_middle.
      by rewrite <- app_assoc. }
    split; [by apply index_lookup_middle|].
    split; [by apply (bucket_inv_node _ _ _ _ _ _ _ Hes2)|].
    simpl. by rewrite last_ptr_snoc.
Qed.
(** * The tests of the package, run on the model *)

Example TestFileStore_loadDataFromDisk :
  (muIndex <$> buckets test_store !! "testBucket1"%string) = Some 8
  /\ (muIndex <$> buckets test_store !! "testBucket2"%string) = Some 11
  /\ test_meta test_store "testBucket1" "o1a" = Some (0, 5, 5)
  /\ test_meta test_store "testBucket1" "o2-a" = Some (12, 12, 7)
  /\ test_meta test_store "testBucket1" "o3.0a" = Some (33, 7, 7)
  /\ test_meta test_store "testBucket2" "obj1b" = Some (0, 9, 7)
  /\ test_meta test_store "testBucket2" "ob02b" = Some (18, 8, 7)
  /\ test_meta test_store "testBucket2" "o3-0bb" = Some (35, 19, 9).
Proof. vm_compute. repeat split; reflexivity. Qed.

Example TestNewFilestore_missing_store_folder :
  NewStore (fun c => match c with SysStatDir => false | _ => true end)
    "non_ext" ∅
  = Some (∅, Err (ErrStoreFolder (ErrOs SysStatDir))).
Proof. reflexivity. Qed.

Example TestFileStore_Store_new_bucket :
  let r := Store io_ok (Some (bytes_of "new obj")) "o1" "empty" test_store in
  r = Some (after r, (false, None))
  /\ bucket_content (after r) "empty" = Some "o1 7 new obj
"%string
  /\ test_meta (after r) "empty" "o1" = Some (0, 7, 4).
Proof. vm_compute. repeat split; reflexivity. Qed.

Example TestFileStore_Store_append_to_bucket :
  let r := Store io_ok (Some (bytes_of "new obj")) "nObj" "testBucket1"
             test_store in
  r = Some (after r, (false, None))
  /\ bucket_content (after r) "testBucket1"
     = Some (string_of testBucket1 +:+ "nObj 7 new obj
")%string
  /\ test_meta (after r) "testBucket1" "o1a" = Some (0, 5, 5)
  /\ test_meta (after r) "testBucket1" "o2-a" = Some (12, 12, 7)
  /\ test_meta (after r) "testBucket1" "o3.0a" = Some (33, 7, 7)
  /\ test_meta (after r) "testBucket1" "nObj" = Some (49, 7, 6).
Proof. vm_compute. repeat split; reflexivity. Qed.

Example TestFileStore_Store_replace_same_size :
  let r := Store io_ok (Some (bytes_of "same obj")) "ob02b" "testBucket2"
             test_store in
  r = Some (after r, (true, None))
  /\ bucket_content (after r) "testBucket2" = Some "obj1b 9 1st obj b
ob02b 8 same obj
o3-0bb 19 3rd obj in bucket b
"%string
  /\ test_meta (after r) "testBucket2" "obj1b" = Some (0, 9, 7)
  /\ test_meta (after r) "testBucket2" "ob02b" = Some (18, 8, 7)
  /\ test_meta (after r) "testBucket2" "o3-0bb" = Some (35, 19, 9).
Proof. vm_compute. repeat split; reflexivity. Qed.

Example TestFileStore_Store_replace_longer :
  let r := Store io_ok (Some (bytes_of "new long obj")) "o1a" "testBucket1"
             test_store in
  r = Some (after r, (true, None))
  /\ bucket_content (after r) "testBucket1" = Some "o1a 12 new long obj
o2-a 12 2nd nice obj
o3.0a 7 3rd obj
"%string
  /\ test_meta (after r) "testBucket1" "o1a" = Some (0, 12, 6)
  /\ test_meta (after r) "testBucket1" "o2-a" = Some (20, 12, 7)
  /\ test_meta (after r) "testBucket1" "o3.0a" = Some (41, 7, 7).
Proof. vm_compute. repeat split; reflexivity. Qed.

Example TestFileStore_Store_replace_shorter :
  let r := Store io_ok (Some (bytes_of "o")) "ob02b" "testBucket2" test_store in
  r = Some (after r, (true, None))
  /\ bucket_content (after r) "testBucket2" = Some "obj1b 9 1st obj b
ob02b 1 o
o3-0bb 19 3rd obj in bucket b
"%string
  /\ test_meta (after r) "testBucket2" "obj1b" = Some (0, 9, 7)
  /\ test_meta (after r) "testBucket2" "ob02b" = Some (18, 1, 7)
  /\ test_meta (after r) "testBucket2" "o3-0bb" = Some (28, 19, 9).
Proof. vm_compute. repeat split; reflexivity. Qed.

Example TestFileStore_Retrieve :
  Retrieve io_ok "obj1b" "testBucket2" test_store
  = Some (Some (bytes_of "1st obj b"), true, None)
  /\ Retrieve io_ok "ob02b" "testBucket2" test_store
     = Some (Some (bytes_of "2nd ob b"), true, None)
  /\ Retrieve io_ok "o3-0bb" "testBucket2" test_store
     = Some (Some (bytes_of "3rd obj in bucket b"), true, None)
  /\ Retrieve io_ok "oo1b-" "testBucket3" test_store = Some (None, false, None)
  /\ Retrieve io_ok "objId" "testBucket1" test_store = Some (None, false, None).
Proof. vm_compute. repeat split; reflexivity. Qed.

Example TestFileStore_Delete_not_found :
  Delete io_ok "o1" "bucketX" test_store = Some (test_store, (false, None))
  /\ Delete io_ok "oo" "testBucket1" test_store
     = Some (test_store, (false, None)).
Proof. vm_compute. split; reflexivity. Qed.

Example TestFileStore_Delete_remove_last :
  let r := Delete io_ok "o3.0a" "testBucket1" test_store in
  r = Some (after r, (true, None))
  /\ bucket_content (after r) "testBucket1" = Some "o1a 5 1stob
o2-a 12 2nd nice obj
"%string
  /\ test_meta (after r) "testBucket1" "o1a" = Some (0, 5, 5)
  /\ test_meta (after r) "testBucket1" "o2-a" = Some (12, 12, 7)
  /\ test_meta (after r) "testBucket1" "o3.0a" = None.
Proof. vm_compute. repeat split; reflexivity. Qed.

Example TestFileStore_Delete_remove_first :
  let r := Delete io_ok "obj1b" "testBucket2" test_store in
  r = Some (after r, (true, None))
  /\ bucket_content (after r) "testBucket2" = Some "ob02b 8 2nd ob b
o3-0bb 19 3rd obj in bucket b
"%string
  /\ test_meta (after r) "testBucket2" "obj1b" = None
  /\ test_meta (after r) "testBucket2" "ob02b" = Some (0, 8, 7)
  /\ test_meta (after r) "testBucket2" "o3-0bb" = Some (17, 19, 9).
Proof. vm_compute. repeat split; reflexivity. Qed.

Example TestFileStore_Delete_remove_middle :
  let r := Delete io_ok "o2-a" "testBucket1" test_store in
  r = Some (after r, (true, None))
  /\ bucket_content (after r) "testBucket1" = Some "o1a 5 1stob
o3.0a 7 3rd obj
"%string
  /\ test_meta (after r) "testBucket1" "o1a" = Some (0, 5, 5)
  /\ test_meta (after r) "testBucket1" "o2-a" = None
  /\ test_meta (after r) "testBucket1" "o3.0a" = Some (12, 7, 7).
Proof. vm_compute. repeat split; reflexivity. Qed.
(** * The claims *)

Lemma reachable_st0 : reachable "st" st0.
Proof. apply reach_new. intros p [c Hc]. by rewrite lookup_empty in Hc. Qed.

Lemma reachable_st1 : reachable "st" st1.
Proof.
  apply (reach_Store "st" st0 io_ok (bytes_of "a") "o1" "b" st1 (false, None));
    [apply reachable_st0|reflexivity|reflexivity|vm_compute; reflexivity].
Qed.

Lemma reachable_st2 : reachable "st" st2.
Proof.
  apply (reach_Store "st" st1 io_ok (bytes_of "bbb") "o2" "b" st2 (false, None));
    [apply reachable_st1|reflexivity|reflexivity|vm_compute; reflexivity].
Qed.

(** The scenarios of the specification. *)
Example scenario_1 :
  let w := after (Store io_ok (Some (bytes_of "hello")) "o1" "b1" st0) in
  Store io_ok (Some (bytes_of "hello")) "o1" "b1" st0 = Some (w, (false, None))
  /\ files w !! "st/b1.dat"%string = Some (bytes_of "o1 5 hello
").
Proof. vm_compute. split; reflexivity. Qed.

Example scenario_2 :
  let w1 := after (Store io_ok (Some (bytes_of "hello")) "o1" "b1" st0) in
  let w2 := after (Store io_ok (Some (bytes_of "hello2")) "o1" "b1" w1) in
  Store io_ok (Some (bytes_of "hello2")) "o1" "b1" w1 = Some (w2, (true, None))
  /\ files w2 !! "st/b1.dat"%string = Some (bytes_of "o1 6 hello2
").
Proof. vm_compute. split; reflexivity. Qed.

Example scenario_3 :
  Delete io_ok "o1" "b" st2 = Some (st3, (true, None))
  /\ files st3 !! "st/b.dat"%string = Some (bytes_of "o2 3 bbb
")
  /\ offset <$> object_meta st3 "b" "o2" = Some 0.
Proof. vm_compute. repeat split; reflexivity. Qed.

Example scenario_4 :
  Delete io_ok "o2" "b" st3 = Some (st4, (true, None))
  /\ files st4 !! "st/b.dat"%string = None
  /\ Retrieve io_ok "o2" "b" st4 = Some (None, false, None).
Proof. vm_compute. repeat split; reflexivity. Qed.

(** ** C1: round trip *)

(** [Store] followed by [Retrieve] finds the object. *)
Lemma Store_then_records io data o b w w' replaced :
  store_inv w ->
  valid_id o = true -> valid_id b = true ->
  Store io (Some data) o b w = Some (w', (replaced, None)) ->
  exists es1 e es2,
    records_of w' b (es1 ++ e :: es2) /\ e_id e = o /\ e_data e = data.
Proof.
  intros Hinv Hvo Hvb Hs.
  destruct (records_of_exists w b Hinv) as (es & Hes).
  destruct (Store_spec io data o b w es Hinv Hvo Hvb Hes)
    as (w'' & r & Hs' & _ & _ & _ & _ & Hcases).
  rewrite Hs' in Hs. injection Hs as -> ->.
  destruct Hcases as [(_ & Hr & _)|[(_ & _ & p & Hrec & _)
                     |(_ & es1 & e & es2 & _ & _ & Hrec & _)]].
  - done.
  - by exists es, (mkEntry p o data), [].
  - by exists es1, (mkEntry (e_ptr e) o data), es2.
Qed.




(** The payload of [Store] is a slice that is there, as the request layer
    passes it.  With the [nil] slice and an object that exists,
    [replaceObjectInBucketFile] takes its deleting branch: the record leaves
    the file and the metadata keeps the object, so that the object after it
    can no longer be read. *)
Example Store_nil_slice :
  let r := Store io_ok None "o1" "b" st2 in
  r = Some (after r, (true, None))
  /\ bucket_content (after r) "b" = Some "o2 3 bbb
"%string
  /\ test_meta (after r) "b" "o1" = Some (0, 0, 0)
  /\ test_meta (after r) "b" "o2" = Some (2, 3, 4)
  /\ Retrieve io_ok "o2" "b" (after r)
     = Some (None, false, Some (ErrReadObject EOF)).
Proof. vm_compute. repeat split; reflexivity. Qed.

(** ** C2: errors and mutation *)

(** A failed [Delete] changes nothing. *)
Lemma Delete_error_keeps_state sp io o b w w' deleted err :
  reachable sp w ->
  Delete io o b w = Some (w', (deleted, Some err)) ->
  w' = w.
Proof.
  intros [Hinv _]%reachable_inv Hd.
  destruct (records_of_exists w b Hinv) as (es & Hes).
  destruct (Delete_spec io o b w es Hinv Hes)
    as (w'' & r & Hd' & _ & _ & _ & _ & Hcases).
  rewrite Hd' in Hd. injection Hd as -> ->.
  destruct Hcases as [(_ & [=] & _)|[(e & bm & _ & _ & [=] & _)
                     |(es1 & e & es2 & _ & _ & _ & [(_ & _ & -> & _)|([=] & _)])]].
  done.
Qed.

(** A failed [Store] into a bucket that exists changes nothing. *)
Lemma Store_error_keeps_state sp io data o b w w' replaced err :
  reachable sp w ->
  valid_id o = true -> valid_id b = true ->
  is_Some (buckets w !! b) ->
  Store io (Some data) o b w = Some (w', (replaced, Some err)) ->
  w' = w.
Proof.
  intros [Hinv _]%reachable_inv Hvo Hvb [bm Hb] Hs. unfold Store in Hs.
  unfold resolve_bucket in Hs. rewrite Hb in Hs.
  destruct (si_buckets _ Hinv _ _ Hb) as (_ & es & Hbi).
  destruct (store_object_spec io data o b true bm w es Hinv Hvo Hvb Hb Hbi)
    as (w'' & r & Hs' & Hcases); [done|].
  rewrite Hs' in Hs. injection Hs as -> ->.
  destruct Hcases as [(_ & _ & ->)|[([=] & _)|([=] & _)]]. done.
Qed.

(** C2, at the input where the code breaks it.  [Store] into a new bucket,
    in an environment that refuses the temporary file, returns an error,
    yet the bucket has been registered and its empty file created. *)
Theorem C2_failed_store_mutates :
  exists w',
    Store io_no_tmp (Some (bytes_of "hello")) "o1" "b1" st0
    = Some (w', (false, Some (ErrOs SysTempFile)))
    /\ buckets st0 !! "b1"%string = None
    /\ is_Some (buckets w' !! "b1"%string)
    /\ files st0 !! "st/b1.dat"%string = None
    /\ files w' !! "st/b1.dat"%string = Some [].
Proof.
  eexists. split; [vm_compute; reflexivity|]. vm_compute.
  repeat split; try reflexivity. by eexists.
Qed.

(** ** C3 and C4: replacing an object *)





Lemma middle_cases (es1 : list entry) e es2 l1 x l2 :
  NoDup (e_id <$> (es1 ++ e :: es2)) ->
  es1 ++ e :: es2 = l1 ++ x :: l2 ->
  e_id x <> e_id e ->
  (exists m, es1 = l1 ++ x :: m /\ l2 = m ++ e :: es2)
  \/ (exists m, es2 = m ++ x :: l2 /\ l1 = es1 ++ e :: m).
Proof.
  intros Hnd Heq Hne.
  assert (Hx : x ∈ es1 ++ e :: es2).
  { rewrite Heq. apply elem_of_app. right. by left. }
  apply elem_of_app in Hx as [Hx|[->|Hx]%elem_of_cons]; [|done|].
  - apply list_elem_of_split in Hx as (m1 & m2 & ->). left. exists m2.
    rewrite <- app_assoc in Heq, Hnd. simpl in Heq, Hnd.
    destruct (split_unique _ _ _ _ _ _ Hnd Heq eq_refl) as (-> & _ & <-). done.
  - apply list_elem_of_split in Hx as (m1 & m2 & ->). right. exists m1.
    assert (Heq' : (es1 ++ e :: m1) ++ x :: m2 = l1 ++ x :: l2).
    { by rewrite <- app_assoc. }
    assert (Hnd' : NoDup (e_id <$> ((es1 ++ e :: m1) ++ x :: m2))).
    { by rewrite <- app_assoc. }
    destruct (split_unique _ _ _ _ _ _ Hnd' Heq' eq_refl) as (<- & _ & <-). done.
Qed.



(** ** C5 and C6: deleting *)



(** When the bucket file cannot be removed, [Delete] of the only object
    still reports the object deleted, with no error, and nothing has
    changed; a second [Delete] reports the same. *)
Example Delete_sole_object_not_removed :
  Delete io_no_remove "o2" "b" st3 = Some (st3, (true, None)).
Proof. vm_compute. reflexivity. Qed.



(** ** C7: malformed bucket files *)

(** C7, at the input where the code breaks it.  The file ends inside the
    identifier of its second record; the loader reports no error, returns
    the first record alone, and the store starts. *)
Theorem C7_truncated_record_dropped :
  exists objs lst a d' w',
    getObjectsMetadata io_ok truncated_file = Some (Ok (objs, lst, a))
    /\ objs !! "o1"%string = Some 0%nat
    /\ objs !! "o2"%string = None
    /\ NewStore io_ok "st" truncated_disk = Some (d', Ok w')
    /\ is_Some (object_meta w' "b" "o1")
    /\ object_meta w' "b" "o2" = None
    /\ d' !! "st/b.dat"%string = Some truncated_file.
Proof.
  do 5 eexists. split; [vm_compute; reflexivity|].
  split; [vm_compute; reflexivity|]. split; [vm_compute; reflexivity|].
  split; [vm_compute; reflexivity|].
  split; [vm_compute; by eexists|]. split; vm_compute; reflexivity.
Qed.

(** The same loop takes a negative length: the record [a -1 ] is loaded
    as an object of size [-1]. *)
Example negative_length_loaded :
  exists objs lst,
    getObjectsMetadata io_ok (bytes_of "a -1 ")
    = Some (Ok (objs, lst, [mkObject 0 (-1) 4 None None]))
    /\ objs !! "a"%string = Some 0%nat.
Proof. do 2 eexists. split; vm_compute; reflexivity. Qed.

(** ** C8: reload fidelity *)

Lemma renum_app k es1 es2 :
  renum k (es1 ++ es2) = renum k es1 ++ renum (k + length es1) es2.
Proof.
  revert k. induction es1 as [|e es1 IH]; intros k; simpl.
  - by rewrite Nat.add_0_r.
  - rewrite IH. by rewrite Nat.add_succ_r.
Qed.

Lemma renum_last_ptr_None k es :
  last_ptr (renum k es) None = None <-> last_ptr es None = None.
Proof.
  destruct es as [|e es _] using rev_ind; [done|].
  rewrite renum_app. simpl. by rewrite !last_ptr_snoc.
Qed.




(** ** C9: the layout invariant *)

(** C9. In every state of the store (so after every [Store] and [Delete]),
    every node of every chain that has a [next] is followed by a node at
    [offset + headerSize + payloadSize + 2], and the node without a [prev]
    has offset 0. *)
Theorem C9_layout_invariant sp w : reachable sp w -> layout_ok w.
Proof.
  intros [Hinv _]%reachable_inv b o bm om Hb Hom.
  destruct (si_buckets _ Hinv _ _ Hb) as (_ & es & Hbi).
  assert (Hes : records_of w b es) by (unfold records_of; by rewrite Hb).
  destruct (object_meta_inv _ _ _ _ _ Hes Hom) as (es1 & e & es2 & -> & _ & ->).
  split.
  - intros p' Hnext. simpl in Hnext. destruct es2 as [|e2 es2]; [done|].
    simpl in Hnext. injection Hnext as <-.
    assert (Hbi' : bucket_inv (storePath w) (files w) b bm
                     ((es1 ++ [e]) ++ e2 :: es2)).
    { by rewrite <- app_assoc. }
    eexists. split; [exact (bucket_inv_node _ _ _ _ _ _ _ Hbi')|].
    simpl. rewrite total_len_app, total_len_cons, total_len_nil.
    unfold e_len. lia.
  - simpl. intros Hprev. destruct es1 as [|e1 es1 _] using rev_ind; [done|].
    by rewrite last_ptr_snoc in Hprev.
Qed.

Lemma C9_layout_invariant_witness : layout_ok st2x.
Proof.
  apply (C9_layout_invariant "st" st2x).
  apply (reach_Store "st" st2 io_ok (bytes_of "xyz") "o1" "b" st2x (true, None));
    [apply reachable_st2|reflexivity|reflexivity|vm_compute; reflexivity].
Defined.

(** ** C10: the stripe index *)

(** The stripe index of every registered bucket is the one
    [bucketIdToMutexIndex] computes from its id. *)
Lemma muIndex_registered sp w b bucketMeta :
  reachable sp w ->
  buckets w !! b = Some bucketMeta ->
  muIndex bucketMeta = (bucketIdToMutexIndex b).1.
Proof.
  intros [Hinv _]%reachable_inv Hb.
  destruct (si_buckets _ Hinv _ _ Hb) as (_ & es & Hbi).
  exact (bi_mu _ _ _ _ _ Hbi).
Qed.

(** C10. [bucketIdToMutexIndex] is a function of the bytes of the bucket
    id; the hash takes all the bytes it is given and reports no error, so
    the error branches are never taken; the index is below [numMutexes];
    and in every state of the store the [muIndex] of the bucket registered
    under the id is that index, so that [bucketsMu] is indexed within its
    bounds. *)
Theorem C10_mutex_index (bucketId : string) :
  (forall h data,
     (fnv.Write (E:=error) h data).2 = (Z.of_nat (length data), None))
  /\ exists index,
       bucketIdToMutexIndex bucketId = (index, None)
       /\ index
          = fnv.Sum32 (fold_left fnv.step (bytes_of bucketId) fnv.New32)
            mod numMutexes
       /\ 0 <= index < numMutexes
       /\ forall sp w bucketMeta,
            reachable sp w ->
            buckets w !! bucketId = Some bucketMeta ->
            muIndex bucketMeta = index
            /\ 0 <= muIndex bucketMeta < numMutexes.
Proof.
  split; [done|]. eexists. split; [apply bucketIdToMutexIndex_eq|].
  split; [done|].
  assert (Hb : 0 <= fnv.Sum32 (fold_left fnv.step (bytes_of bucketId) fnv.New32)
                    mod numMutexes < numMutexes)
    by (by apply Z.mod_pos_bound).
  split; [exact Hb|]. intros sp w bm Hr Hreg.
  rewrite (muIndex_registered sp w bucketId bm Hr Hreg).
  rewrite bucketIdToMutexIndex_eq. by split.
Qed.

Lemma C10_mutex_index_witness :
  exists bucketMeta,
    buckets st2 !! "b"%string = Some bucketMeta
    /\ 0 <= muIndex bucketMeta < numMutexes.
Proof.
  destruct (C10_mutex_index "b") as (_ & index & _ & _ & _ & Hreg).
  destruct (buckets st2 !! "b"%string) as [bm|] eqn:Hb;
    [|vm_compute in Hb; discriminate Hb].
  exists bm. split; [reflexivity|].
  exact (proj2 (Hreg "st" st2 bm reachable_st2 Hb)).
Defined.
(** * The in-memory store *)

Lemma bytes_of_string_of l : bytes_of (string_of l) = l.
Proof. apply list_byte_of_string_of_list_byte. Qed.

Lemma mem_lookup_Store obj o b s :
  memstore.buckets (memstore.Store obj o b s).1 !! b
  = Some (<[o := string_of (default [] obj)]>
            (default ∅ (memstore.buckets s !! b))).
Proof.
  unfold memstore.Store. simpl. rewrite lookup_insert_eq.
  by destruct (memstore.buckets s !! b).
Qed.

Lemma mem_lookup_Store_ne obj o b b' s :
  b' <> b ->
  memstore.buckets (memstore.Store obj o b s).1 !! b'
  = memstore.buckets s !! b'.
Proof. intros Hne. unfold memstore.Store. simpl. by rewrite lookup_insert_ne. Qed.

Lemma gmap_size_0 {A} (m : gmap string A) : base.size m = 0%nat <-> m = ∅.
Proof. apply map_size_empty_iff. Qed.

(** The object at [(o', b')] as [Retrieve] sees it. *)
Lemma mem_Retrieve_lookup o b s :
  memstore.Retrieve o b s
  = match memstore.buckets s !! b ≫= (.!! o) with
    | Some obj => (Some (bytes_of obj), true, None)
    | None => (None, false, None)
    end.
Proof.
  unfold memstore.Retrieve. destruct (memstore.buckets s !! b) as [bucket|]; [|done].
  simpl. by destruct (bucket !! o).
Qed.

Lemma mem_Delete_lookup o b o' b' s :
  memstore.buckets (memstore.Delete o b s).1 !! b' ≫= (.!! o')
  = if decide (b' = b /\ o' = o) then None
    else memstore.buckets s !! b' ≫= (.!! o').
Proof.
  unfold memstore.Delete.
  destruct (memstore.buckets s !! b) as [bucket|] eqn:Hb.
  - destruct (bucket !! o) as [v|] eqn:Ho.
    + case_bool_decide as Hsz; simpl.
      * apply gmap_size_0 in Hsz.
        destruct (decide (b' = b)) as [->|Hne].
        -- rewrite lookup_delete_eq. simpl. case_decide as Hd; [done|].
           rewrite Hb. simpl. destruct (decide (o' = o)) as [->|Hno]; [tauto|].
           by rewrite <- (lookup_delete_ne bucket o o'), Hsz, lookup_empty.
        -- rewrite lookup_delete_ne by done. case_decide as Hd; [tauto|done].
      * destruct (decide (b' = b)) as [->|Hne].
        -- rewrite lookup_insert_eq. simpl. case_decide as Hd.
           ++ destruct Hd as [_ ->]. by rewrite lookup_delete_eq.
           ++ rewrite Hb. simpl. rewrite lookup_delete_ne; [done|].
              intros ->. tauto.
        -- rewrite lookup_insert_ne by done. case_decide as Hd; [tauto|done].
    + simpl. case_decide as Hd; [|done]. destruct Hd as [-> ->].
      rewrite Hb. simpl. by rewrite Ho.
  - simpl. case_decide as Hd; [|done]. destruct Hd as [-> ->]. by rewrite Hb.
Qed.

Lemma mem_Store_lookup obj o b o' b' s :
  memstore.buckets (memstore.Store obj o b s).1 !! b' ≫= (.!! o')
  = if decide (b' = b /\ o' = o) then Some (string_of (default [] obj))
    else memstore.buckets s !! b' ≫= (.!! o').
Proof.
  destruct (decide (b' = b)) as [->|Hne].
  - rewrite mem_lookup_Store. simpl. case_decide as Hd.
    + destruct Hd as [_ ->]. by rewrite lookup_insert_eq.
    + rewrite lookup_insert_ne by (intros ->; tauto).
      destruct (memstore.buckets s !! b); [done|]. simpl. by rewrite lookup_empty.
  - rewrite mem_lookup_Store_ne by done. case_decide as Hd; [tauto|done].
Qed.

Lemma mem_Store_result obj o b s :
  (memstore.Store obj o b s).2 = ((memstore.Retrieve o b s).1.2, None).
Proof.
  unfold memstore.Store, memstore.Retrieve. simpl.
  destruct (memstore.buckets s !! b) as [bucket|]; simpl.
  - by destruct (bucket !! o) eqn:Ho.
  - done.
Qed.

Lemma mem_Delete_result o b s :
  (memstore.Delete o b s).2 = ((memstore.Retrieve o b s).1.2, None).
Proof.
  unfold memstore.Delete, memstore.Retrieve.
  destruct (memstore.buckets s !! b) as [bucket|]; [|done].
  destruct (bucket !! o); [|done]. by case_bool_decide.
Qed.

Lemma mem_no_empty_bucket s :
  memstore.valid s ->
  forall b bucket, memstore.buckets s !! b = Some bucket -> bucket <> ∅.
Proof.
  induction 1 as [|s obj o b _ IH|s o b _ IH]; intros b' bucket Hb.
  - simpl in Hb. by rewrite lookup_empty in Hb.
  - destruct (decide (b' = b)) as [->|Hne].
    + rewrite mem_lookup_Store in Hb. injection Hb as <-.
      apply insert_non_empty.
    + rewrite mem_lookup_Store_ne in Hb by done. by apply (IH b').
  - revert Hb. unfold memstore.Delete.
    destruct (memstore.buckets s !! b) as [bucket0|] eqn:Hb0; [|by apply IH].
    destruct (bucket0 !! o); [|by apply IH].
    case_bool_decide as Hsz; simpl.
    + destruct (decide (b' = b)) as [->|Hne].
      * by rewrite lookup_delete_eq.
      * rewrite lookup_delete_ne by done. by apply IH.
    + destruct (decide (b' = b)) as [->|Hne].
      * rewrite lookup_insert_eq. intros [= <-]. intros He. apply Hsz.
        by apply gmap_size_0.
      * rewrite lookup_insert_ne by done. by apply IH.
Qed.

Lemma memstore_round_trip_aux obj o b s :
  memstore.Retrieve o b (memstore.Store obj o b s).1
  = (Some (default [] obj), true, None).
Proof.
  rewrite mem_Retrieve_lookup, mem_Store_lookup.
  rewrite decide_True by done. by rewrite bytes_of_string_of.
Qed.

Lemma memstore_Delete_twice_aux o b s :
  let s1 := (memstore.Delete o b s).1 in
  memstore.Retrieve o b s1 = (None, false, None)
  /\ memstore.Delete o b s1 = (s1, (false, None)).
Proof.
  intros s1.
  assert (Hr : memstore.Retrieve o b s1 = (None, false, None)).
  { unfold s1. rewrite mem_Retrieve_lookup, mem_Delete_lookup.
    by rewrite decide_True. }
  split; [exact Hr|].
  revert Hr. unfold memstore.Retrieve, memstore.Delete at 1.
  destruct (memstore.buckets s1 !! b) as [bucket|]; [|done].
  by destruct (bucket !! o).
Qed.

(** ** Properties of the in-memory store *)

(** [Store] then [Retrieve] gives the bytes back, found, with no error; the
    nil slice comes back as the empty one. *)
Theorem memstore_round_trip obj o b s :
  memstore.Retrieve o b (memstore.Store obj o b s).1
  = (Some (default [] obj), true, None).
Proof. apply memstore_round_trip_aux. Qed.

(** [Store] and [Delete] of one object leave every other object as it
    was. *)
Theorem memstore_frame obj o b o' b' s :
  (o', b') <> (o, b) ->
  memstore.Retrieve o' b' (memstore.Store obj o b s).1 = memstore.Retrieve o' b' s
  /\ memstore.Retrieve o' b' (memstore.Delete o b s).1 = memstore.Retrieve o' b' s.
Proof.
  intros Hne. rewrite !mem_Retrieve_lookup, mem_Store_lookup, mem_Delete_lookup.
  rewrite !decide_False; [done| |]; intros [-> ->]; done.
Qed.

Lemma memstore_frame_witness :
  memstore.Retrieve "o2" "b"
    (memstore.Store (Some (bytes_of "x")) "o1" "b" memstore.NewStore).1
  = (None, false, None).
Proof.
  apply (proj1 (memstore_frame (Some (bytes_of "x")) "o1" "b" "o2" "b"
                  memstore.NewStore ltac:(discriminate))).
Defined.

(** [Store] says replaced, and [Delete] says deleted, exactly when a
    [Retrieve] before it would have found the object; neither ever returns
    an error. *)
Theorem memstore_reports_found obj o b s :
  (memstore.Store obj o b s).2 = ((memstore.Retrieve o b s).1.2, None)
  /\ (memstore.Delete o b s).2 = ((memstore.Retrieve o b s).1.2, None).
Proof. split; [apply mem_Store_result|apply mem_Delete_result]. Qed.

(** After [Delete] the object is not found, and a second [Delete] says
    not deleted and changes nothing. *)
Theorem memstore_Delete_twice o b s :
  let s1 := (memstore.Delete o b s).1 in
  memstore.Retrieve o b s1 = (None, false, None)
  /\ memstore.Delete o b s1 = (s1, (false, None)).
Proof. apply memstore_Delete_twice_aux. Qed.

(** No state of the store holds an empty bucket: [Delete] removes the
    bucket it empties. *)
Theorem memstore_no_empty_bucket s b bucket :
  memstore.valid s ->
  memstore.buckets s !! b = Some bucket ->
  exists o obj, bucket !! o = Some obj.
Proof.
  intros Hv Hb. pose proof (mem_no_empty_bucket s Hv b bucket Hb) as Hne.
  destruct (map_choose bucket Hne) as (o & obj & Ho). by exists o, obj.
Qed.

Lemma memstore_no_empty_bucket_witness :
  exists o obj,
    ({[ "o1"%string := "x"%string ]} : gmap string string) !! o = Some obj.
Proof.
  apply (memstore_no_empty_bucket
           (memstore.Store (Some (bytes_of "x")) "o1" "b" memstore.NewStore).1 "b").
  - apply memstore.valid_Store, memstore.valid_new.
  - reflexivity.
Defined.

(** Storing an object that was not there and deleting it again gives the
    state back as it was, the bucket included. *)
Theorem memstore_Store_Delete_restores obj o b s :
  memstore.valid s ->
  memstore.Retrieve o b s = (None, false, None) ->
  (memstore.Delete o b (memstore.Store obj o b s).1).1 = s.
Proof.
  intros Hv Hr. pose proof (mem_no_empty_bucket s Hv b) as Hne.
  unfold memstore.Retrieve in Hr. destruct s as [bs].
  unfold memstore.Delete, memstore.Store. simpl in *.
  rewrite lookup_insert_eq, lookup_insert_eq, delete_insert_eq.
  destruct (bs !! b) as [bucket|] eqn:Hb.
  - destruct (bucket !! o) eqn:Ho; [done|].
    rewrite delete_id by done.
    rewrite bool_decide_eq_false_2.
    + simpl. f_equal. rewrite insert_insert_eq. by apply insert_id.
    + rewrite gmap_size_0. by apply Hne.
  - rewrite delete_empty. rewrite bool_decide_eq_true_2 by done.
    simpl. f_equal. rewrite delete_insert_eq. by apply delete_id.
Qed.

Lemma memstore_Store_Delete_restores_witness :
  (memstore.Delete "o1" "b"
     (memstore.Store (Some (bytes_of "x")) "o1" "b" memstore.NewStore).1).1
  = memstore.NewStore.
Proof.
  apply (memstore_Store_Delete_restores (Some (bytes_of "x")) "o1" "b"
           memstore.NewStore); [apply memstore.valid_new|reflexivity].
Defined.
(** * The file store and the in-memory store *)

Lemma data_of_None es o : data_of es o = None <-> o ∉ e_id <$> es.
Proof.
  induction es as [|e es IH]; simpl.
  - split; [intros _; apply not_elem_of_nil|done].
  - rewrite not_elem_of_cons. case_decide as Hd.
    + split; [done|]. intros [Hne _]. by subst.
    + rewrite IH. split; [by intros ?; split|by intros [_ ?]].
Qed.

Lemma data_of_app es1 es2 o :
  data_of (es1 ++ es2) o
  = match data_of es1 o with Some d => Some d | None => data_of es2 o end.
Proof.
  induction es1 as [|e es1 IH]; simpl; [done|]. by case_decide.
Qed.

Lemma data_of_middle es1 e es2 o :
  (e_id e ∉ e_id <$> es1) ->
  data_of (es1 ++ e :: es2) o
  = if decide (o = e_id e) then Some (e_data e) else data_of (es1 ++ es2) o.
Proof.
  intros Hn. rewrite !data_of_app. simpl. destruct (decide (o = e_id e)) as [->|Hne].
  - apply data_of_None in Hn. rewrite Hn. by rewrite decide_True.
  - rewrite decide_False by done. done.
Qed.

Lemma NoDup_ids_middle es1 (e : entry) es2 :
  NoDup (e_id <$> (es1 ++ e :: es2)) ->
  (e_id e ∉ e_id <$> es1) /\ (e_id e ∉ e_id <$> es2).
Proof.
  rewrite fmap_app, fmap_cons. intros Hnd.
  apply NoDup_app in Hnd as (_ & Hdis & Hnd2).
  apply NoDup_cons in Hnd2 as [Hn2 _]. split; [|done].
  intros Hin. apply (Hdis _ Hin). apply elem_of_cons. by left.
Qed.

(** [Retrieve], with a disk that can be read, in terms of the records. *)
Lemma Retrieve_data io w b es o :
  records_of w b es ->
  io SysOpen = true -> io SysReadAt = true ->
  Retrieve io o b w = Some (retrieved (data_of es o)).
Proof.
  intros Hes Hopen Hread.
  destruct (data_of es o) as [d|] eqn:Hd.
  - assert (Hin : exists es1 e es2,
              es = es1 ++ e :: es2 /\ e_id e = o /\ e_data e = d
              /\ (e_id e ∉ e_id <$> es1)).
    { clear Hes. induction es as [|e es IH]; simpl in Hd; [done|].
      case_decide as He.
      - injection Hd as <-. exists [], e, es. repeat split; try done.
        apply not_elem_of_nil.
      - destruct (IH Hd) as (es1 & e' & es2 & -> & Hid & Hdata & Hn).
        exists (e :: es1), e', es2. repeat split; try done.
        rewrite fmap_cons, not_elem_of_cons. split; [congruence|done]. }
    destruct Hin as (es1 & e & es2 & -> & <- & <- & _).
    by apply (Retrieve_found io b w es1 e es2).
  - apply data_of_None in Hd. by apply (Retrieve_no_object io o b w es).
Qed.

(** [Retrieve] looks at the metadata and the file of its bucket only. *)
Lemma Retrieve_frame io o b w w' :
  buckets w' !! b = buckets w !! b ->
  (forall bm, buckets w !! b = Some bm ->
     files w' !! filePath bm = files w !! filePath bm) ->
  Retrieve io o b w' = Retrieve io o b w.
Proof.
  intros Hb Hf. unfold Retrieve. rewrite Hb.
  destruct (buckets w !! b) as [bm|] eqn:Hbm; [|done].
  unfold os_Open. by rewrite (Hf bm eq_refl).
Qed.

Lemma mem_Retrieve_Store obj o b o' b' s :
  memstore.Retrieve o' b' (memstore.Store obj o b s).1
  = if decide (b' = b /\ o' = o) then (Some (default [] obj), true, None)
    else memstore.Retrieve o' b' s.
Proof.
  rewrite !mem_Retrieve_lookup, mem_Store_lookup.
  case_decide; [|done]. by rewrite bytes_of_string_of.
Qed.


Lemma retrieved_found obj : (retrieved obj).1.2 = bool_decide (is_Some obj).
Proof. by destruct obj. Qed.

(** ** [Store] *)

Lemma sim_Store w s io (p : list byte) o b w' replaced :
  store_inv w ->
  valid_id o = true -> valid_id b = true ->
  same_objects w s ->
  Store io (Some p) o b w = Some (w', (replaced, None)) ->
  (memstore.Store (Some p) o b s).2 = (replaced, None)
  /\ same_objects w' (memstore.Store (Some p) o b s).1.
Proof.
  intros Hinv Hvo Hvb Hsame Hs.
  destruct (records_of_exists w b Hinv) as (es & Hes).
  destruct (Store_spec io p o b w es Hinv Hvo Hvb Hes)
    as (w'' & r & Hs' & Hinv' & _ & Hbk & Hfl & Hcases).
  rewrite Hs' in Hs. injection Hs as -> ->.
  pose proof (Hsame o b) as Hob.
  rewrite (Retrieve_data io_ok w b es o Hes eq_refl eq_refl) in Hob.
  injection Hob as Hob.
  assert (Hother : forall o' b', b' <> b ->
            Retrieve io_ok o' b' w' = Retrieve io_ok o' b' w).
  { intros o' b' Hne. apply Retrieve_frame; [by apply Hbk|].
    intros bm Hbm. by apply (Hfl b'). }
  destruct Hcases as [(_ & Hr & _)|[([= ->] & Hno & pn & Hrec & _)
                     |([= ->] & es1 & e & es2 & -> & Hid & Hrec & _)]].
  - done.
  - (* a new object *)
    split.
    { rewrite mem_Store_result, <- Hob.
      apply data_of_None in Hno. by rewrite Hno. }
    intros o' b'. rewrite mem_Retrieve_Store.
    destruct (decide (b' = b)) as [->|Hne];
      [|rewrite decide_False by tauto; rewrite Hother by done; apply Hsame].
    rewrite (Retrieve_data io_ok w' b _ o' Hrec eq_refl eq_refl).
    rewrite data_of_app. simpl.
    destruct (decide (o' = o)) as [->|Hno'].
    + rewrite (decide_True (P := b = b /\ o = o)) by done.
      apply data_of_None in Hno. rewrite Hno. by rewrite decide_True.
    + rewrite (decide_False (P := b = b /\ o' = o)) by tauto.
      rewrite (decide_False (P := o = o')) by done.
      rewrite <- Hsame, (Retrieve_data io_ok w b es o' Hes eq_refl eq_refl).
      by destruct (data_of es o').
  - (* the object was there *)
    assert (Hnd : NoDup (e_id <$> (es1 ++ e :: es2))).
    { unfold records_of in Hes. destruct (buckets w !! b) as [bm|].
      - exact (bi_ids _ _ _ _ _ Hes).
      - by destruct es1. }
    destruct (NoDup_ids_middle _ _ _ Hnd) as [Hn1 Hn2]. subst o.
    split.
    { rewrite mem_Store_result, <- Hob.
      rewrite data_of_middle by done. by rewrite decide_True. }
    intros o' b'. rewrite mem_Retrieve_Store.
    destruct (decide (b' = b)) as [->|Hne];
      [|rewrite decide_False by tauto; rewrite Hother by done; apply Hsame].
    rewrite (Retrieve_data io_ok w' b _ o' Hrec eq_refl eq_refl).
    rewrite (data_of_middle es1 (mkEntry (e_ptr e) (e_id e) p) es2) by done.
    simpl. destruct (decide (o' = e_id e)) as [->|Hno'].
    + by rewrite (decide_True (P := b = b /\ e_id e = e_id e)).
    + rewrite (decide_False (P := b = b /\ o' = e_id e)) by tauto.
      rewrite <- Hsame, (Retrieve_data io_ok w b _ o' Hes eq_refl eq_refl).
      rewrite data_of_middle by done. by rewrite decide_False.
Qed.


(** A [Store] that returns no error is a [Store] of the in-memory store:
    it reports replaced when that one does, and afterwards the two stores
    hold the same objects again. *)
Theorem FileStore_Store_simulates sp w s io (p : list byte) o b w' replaced :
  reachable sp w ->
  valid_id o = true -> valid_id b = true ->
  same_objects w s ->
  Store io (Some p) o b w = Some (w', (replaced, None)) ->
  (memstore.Store (Some p) o b s).2 = (replaced, None)
  /\ same_objects w' (memstore.Store (Some p) o b s).1.
Proof. intros [Hinv _]%reachable_inv. by apply sim_Store. Qed.

Lemma same_objects_new sp (d : disk) :
  same_objects (mkWorld d sp ∅) memstore.NewStore.
Proof. intros o b. unfold Retrieve. simpl. by rewrite !lookup_empty. Qed.

Lemma FileStore_Store_simulates_witness :
  (memstore.Store (Some (bytes_of "a")) "o1" "b" memstore.NewStore).2
  = (false, None)
  /\ same_objects st1
       (memstore.Store (Some (bytes_of "a")) "o1" "b" memstore.NewStore).1.
Proof.
  apply (FileStore_Store_simulates "st" st0 memstore.NewStore io_ok
           (bytes_of "a") "o1" "b" st1 false).
  - apply reach_new. intros p [c Hc]. by rewrite lookup_empty in Hc.
  - reflexivity.
  - reflexivity.
  - apply same_objects_new.
  - vm_compute. reflexivity.
Defined.





(** ** [Delete] *)



(** A [Delete] that returns an error has changed nothing. *)
Theorem Delete_error_changes_nothing sp w io o b w' deleted err :
  reachable sp w ->
  Delete io o b w = Some (w', (deleted, Some err)) ->
  deleted = false /\ w' = w.
Proof.
  intros [Hinv _]%reachable_inv Hd.
  destruct (records_of_exists w b Hinv) as (es & Hes).
  destruct (Delete_spec io o b w es Hinv Hes)
    as (w'' & r & Hd' & _ & _ & _ & _ & Hcases).
  rewrite Hd' in Hd. injection Hd as -> ->.
  destruct Hcases as [(_ & [=] & _)|[(e & bm & _ & _ & [=] & _)
                     |(es1 & e & es2 & _ & _ & _ & [(Hr & _ & -> & _)|([=] & _)])]].
  done.
Qed.

Lemma Delete_error_changes_nothing_witness :
  false = false /\ st2 = st2.
Proof.
  apply (Delete_error_changes_nothing "st" st2 io_no_tmp "o1" "b" st2 false
           (ErrOs SysTempFile)).
  - apply (reach_Store "st" st1 io_ok (bytes_of "bbb") "o2" "b" st2 (false, None));
      [|reflexivity|reflexivity|vm_compute; reflexivity].
    apply (reach_Store "st" st0 io_ok (bytes_of "a") "o1" "b" st1 (false, None));
      [|reflexivity|reflexivity|vm_compute; reflexivity].
    apply reach_new. intros p [c Hc]. by rewrite lookup_empty in Hc.
  - vm_compute. reflexivity.
Defined.

(** ** Runs *)

Lemma run_file_reachable sp ops :
  forall w answers w',
    reachable sp w ->
    forallb valid_op ops = true ->
    run_file ops w = Some (answers, w') ->
    reachable sp w'.
Proof.
  induction ops as [|x ops IH]; intros w answers w' Hr Hv Hrun; simpl in *.
  - by injection Hrun as _ <-.
  - apply andb_prop in Hv as [Hx Hv].
    destruct x as [p o b|o b|o b]; simpl in Hx.
    + apply andb_prop in Hx as [Hvo Hvb].
      destruct (Store io_ok (Some p) o b w) as [[w1 [replaced [err|]]]|] eqn:Hs;
        try done.
      destruct (run_file ops w1) as [[answers1 w2]|] eqn:Hrun1; [|done].
      injection Hrun as _ <-.
      apply (IH w1 answers1 w2); [|done|done].
      by apply (reach_Store sp w io_ok p o b w1 (replaced, None)).
    + destruct (Retrieve io_ok o b w) as [[[obj found] [err|]]|]; try done.
      destruct (run_file ops w) as [[answers1 w2]|] eqn:Hrun1; [|done].
      injection Hrun as _ <-. by apply (IH w answers1 w2).
    + destruct (Delete io_ok o b w) as [[w1 [deleted [err|]]]|] eqn:Hd;
        try done.
      destruct (run_file ops w1) as [[answers1 w2]|] eqn:Hrun1; [|done].
      injection Hrun as _ <-.
      apply (IH w1 answers1 w2); [|done|done].
      by apply (reach_Delete sp w io_ok o b w1 (deleted, None)).
Qed.



(** * More on the file store *)

Lemma records_of_file w b bm es :
  records_of w b es -> buckets w !! b = Some bm -> es <> [] ->
  files w !! filePath bm = Some (file_of es).
Proof.
  unfold records_of. intros Hes Hb Hne. rewrite Hb in Hes.
  pose proof (bi_file _ _ _ _ _ Hes) as Hf.
  destruct (files w !! filePath bm) as [c|]; [by subst|done].
Qed.

(** The file of a bucket, as far as the records can tell. *)
Lemma records_of_content w b es :
  records_of w b es ->
  default [] (bm ← buckets w !! b; files w !! filePath bm) = file_of es.
Proof.
  unfold records_of. destruct (buckets w !! b) as [bm|] eqn:Hb; simpl.
  - intros Hes. pose proof (bi_file _ _ _ _ _ Hes) as Hf.
    destruct (files w !! filePath bm) as [c|]; simpl; [done|by subst].
  - by intros ->.
Qed.


Lemma e_metaSize_length e :
  e_metaSize e
  = Z.of_nat (String.length (e_id e) + 1 + String.length (fmt_d (e_size e))).
Proof.
  unfold e_metaSize, meta_str. rewrite !string_length_app. simpl. lia.
Qed.

(** ** The metadata describes the file *)



(** ** A new object goes to the end of the file *)

(** When [Store] returns not replaced and no error, the object was not in
    the bucket; its record has been added after the bytes the file of the
    bucket held (none for a new bucket), which stay as they were; its node
    is the last of the chain; and every other object of the bucket keeps its
    offset and sizes. *)
Theorem Store_appends sp w io (p : list byte) o b w' :
  reachable sp w ->
  valid_id o = true -> valid_id b = true ->
  Store io (Some p) o b w = Some (w', (false, None)) ->
  let old := default [] (bm ← buckets w !! b; files w !! filePath bm) in
  object_meta w b o = None
  /\ exists bucketMeta' om,
       buckets w' !! b = Some bucketMeta'
       /\ files w' !! filePath bucketMeta'
          = Some (old ++ bytes_of (o +:+ " " +:+ fmt_d (Z.of_nat (length p)) +:+ " ")
                      ++ p ++ [separator])
       /\ object_meta w' b o = Some om
       /\ offset om = Z.of_nat (length old)
       /\ size om = Z.of_nat (length p)
       /\ next om = None
       /\ (exists q, lastObject bucketMeta' = Some q
                     /\ objects bucketMeta' !! o = Some q)
       /\ forall o', o' <> o ->
            triple <$> object_meta w' b o' = triple <$> object_meta w b o'.
Proof.
  intros [Hinv _]%reachable_inv Hvo Hvb Hs old.
  destruct (records_of_exists w b Hinv) as (es & Hes).
  destruct (Store_spec io p o b w es Hinv Hvo Hvb Hes)
    as (w'' & r & Hs' & Hinv' & _ & _ & _ & Hcases).
  rewrite Hs' in Hs. injection Hs as -> ->.
  destruct Hcases as [(_ & Hr & _)|[(_ & Hno & pn & Hrec & [bm' Hb'])
                     |([=] & _)]]; [done|].
  assert (Hold : old = file_of es) by (by apply records_of_content).
  set (e := mkEntry pn o p) in *.
  split; [by apply (object_meta_absent w b es)|].
  exists bm', (node_of es e []).
  assert (Hrec' : records_of w' b (es ++ e :: [])) by done.
  split; [done|]. split.
  { rewrite (records_of_file w' b bm' _ Hrec Hb') by (by destruct es).
    rewrite Hold, file_of_app. cbn [file_of]. rewrite app_nil_r.
    reflexivity. }
  split; [exact (object_meta_middle _ _ _ _ _ Hrec')|].
  split; [by rewrite Hold|]. split; [done|]. split; [done|].
  split.
  { unfold records_of in Hrec. rewrite Hb' in Hrec. exists pn.
    rewrite (bi_last _ _ _ _ _ Hrec), last_ptr_snoc. split; [done|].
    rewrite (bi_objects _ _ _ _ _ Hrec).
    apply (index_lookup_middle es e []).
    exact (bi_ids _ _ _ _ _ Hrec). }
  intros o' Hne.
  destruct (object_meta w b o') as [om'|] eqn:Hom'.
  - destruct (object_meta_inv _ _ _ _ _ Hes Hom') as (l1 & x & l2 & -> & <- & ->).
    assert (Hrec'' : records_of w' b (l1 ++ x :: (l2 ++ [e]))).
    { by rewrite <- app_assoc in Hrec. }
    by rewrite (object_meta_middle _ _ _ _ _ Hrec'').
  - assert (Hn' : o' ∉ e_id <$> (es ++ [e])).
    { rewrite fmap_app, not_elem_of_app. split.
      - intros Hin. apply list_elem_of_fmap in Hin as (x & -> & Hx).
        apply list_elem_of_split in Hx as (l1 & l2 & ->).
        by rewrite (object_meta_middle _ _ _ _ _ Hes) in Hom'.
      - simpl. rewrite not_elem_of_cons. split; [done|apply not_elem_of_nil]. }
    by rewrite (object_meta_absent _ _ _ _ Hrec Hn').
Qed.

Lemma Store_appends_witness :
  exists bucketMeta' om,
    buckets st2 !! "b"%string = Some bucketMeta'
    /\ files st2 !! filePath bucketMeta'
       = Some (bytes_of "o1 1 a
" ++ bytes_of "o2 3 " ++ bytes_of "bbb" ++ [separator])
    /\ object_meta st2 "b" "o2" = Some om
    /\ offset om = 7.
Proof.
  destruct (Store_appends "st" st1 io_ok (bytes_of "bbb") "o2" "b" st2)
    as (_ & bm' & om & Hb & Hf & Hom & Hoff & _).
  - apply reachable_st1.
  - reflexivity.
  - reflexivity.
  - vm_compute. reflexivity.
  - exists bm', om. split; [exact Hb|]. split; [exact Hf|].
    split; [exact Hom|exact Hoff].
Defined.

(** ** [Delete] takes the record out of the file *)

Lemma NoDup_split_eq {A} (l1 l1' : list A) x l2 l2' :
  NoDup (l1 ++ x :: l2) ->
  l1 ++ x :: l2 = l1' ++ x :: l2' ->
  l1 = l1' /\ l2 = l2'.
Proof.
  revert l1'. induction l1 as [|a l1 IH]; intros l1' Hnd Heq.
  - destruct l1' as [|a' l1']; simpl in *.
    + by injection Heq as ->.
    + injection Heq as <- ->. apply NoDup_cons in Hnd as [Hn _].
      exfalso. apply Hn. apply elem_of_app. right. by left.
  - destruct l1' as [|a' l1']; simpl in *.
    + injection Heq as -> <-. apply NoDup_cons in Hnd as [Hn _].
      exfalso. apply Hn. apply elem_of_app. right. by left.
    + injection Heq as <- Heq. apply NoDup_cons in Hnd as [_ Hnd].
      destruct (IH l1' Hnd Heq) as [-> ->]. done.
Qed.

Lemma file_without_record es1 e es2 :
  file_of (es1 ++ es2)
  = take (Z.to_nat (total_len es1)) (file_of (es1 ++ e :: es2))
    ++ drop (Z.to_nat (total_len es1 + e_len e)) (file_of (es1 ++ e :: es2)).
Proof.
  rewrite !file_of_app. cbn [file_of].
  unfold total_len. rewrite Nat2Z.id, take_app_length.
  f_equal. rewrite app_assoc.
  replace (Z.to_nat (Z.of_nat (length (file_of es1)) + e_len e))
    with (length (file_of es1 ++ record_of e)).
  - by rewrite drop_app_length.
  - rewrite length_app. pose proof (record_length e). lia.
Qed.

(** When [Delete] returns deleted from a bucket that holds another object
    too, the file of the bucket has lost the bytes of the record and no
    others; the object is gone from the metadata; every other object keeps
    its sizes, and its offset if it stands before the record, while the
    offset of every object after it has moved down by the length of the
    record; and the neighbours of the object are now linked to each
    other. *)
Theorem Delete_takes_record_out sp w io o b w' bucketMeta om :
  reachable sp w ->
  buckets w !! b = Some bucketMeta ->
  object_meta w b o = Some om ->
  base.size (objects bucketMeta) <> 1%nat ->
  Delete io o b w = Some (w', (true, None)) ->
  exists content bucketMeta',
    files w !! filePath bucketMeta = Some content
    /\ buckets w' !! b = Some bucketMeta'
    /\ filePath bucketMeta' = filePath bucketMeta
    /\ files w' !! filePath bucketMeta
       = Some (take (Z.to_nat (offset om)) content
               ++ drop (Z.to_nat (offset om + encoded_size om)) content)
    /\ object_meta w' b o = None
    /\ (forall o' om',
          o' <> o -> object_meta w b o' = Some om' ->
          exists om'',
            object_meta w' b o' = Some om''
            /\ size om'' = size om' /\ metaSize om'' = metaSize om'
            /\ (offset om' < offset om -> offset om'' = offset om')
            /\ (offset om < offset om' ->
                offset om'' = offset om' - encoded_size om))
    /\ (forall o1 o2,
          next_object w b o1 o -> next_object w b o o2 ->
          next_object w' b o1 o2 /\ prev_object w' b o2 o1).
Proof.
  intros [Hinv Hsp]%reachable_inv Hb Hom Hsize Hd.
  destruct (si_buckets _ Hinv _ _ Hb) as (_ & es & Hbi).
  assert (Hes : records_of w b es) by (unfold records_of; by rewrite Hb).
  pose proof (records_of_NoDup_ids _ _ _ Hes) as Hnd.
  destruct (Delete_spec io o b w es Hinv Hes)
    as (w'' & r & Hd' & Hinv' & Hsp' & _ & _ & Hcases).
  rewrite Hd' in Hd. injection Hd as -> ->.
  destruct Hcases as [(Hno & [=] & _)|[(e & bm & -> & _)
                     |(es1 & e & es2 & -> & Hid & Hne & [(Hr & _)
                                                        |(_ & Hrec & [bm' Hb'])])]].
  - exfalso. apply Hsize. rewrite (bi_objects _ _ _ _ _ Hbi).
    by rewrite index_size.
  - done.
  - destruct (object_meta_inv _ _ _ _ _ Hes Hom) as (l1 & x & l2 & Heq & Hx & ->).
    destruct (split_unique _ _ _ _ _ _ Hnd Heq) as (<- & <- & <-); [congruence|].
    clear Heq Hx. subst o.
    destruct (NoDup_ids_middle _ _ _ Hnd) as [Hn1 Hn2].
    assert (Hle : encoded_size (node_of es1 e es2) = e_len e) by done.
    exists (file_of (es1 ++ e :: es2)), bm'.
    split; [apply (records_of_file w b); [done|done|by destruct es1]|].
    split; [done|].
    assert (Hpath : filePath bm' = filePath bucketMeta).
    { unfold records_of in Hrec. rewrite Hb' in Hrec.
      rewrite (bi_path _ _ _ _ _ Hrec), (bi_path _ _ _ _ _ Hbi). by rewrite Hsp'. }
    split; [done|]. split.
    { rewrite <- Hpath.
      rewrite (records_of_file w' b bm' _ Hrec Hb' Hne).
      rewrite Hle. simpl offset. by rewrite <- file_without_record. }
    split.
    { apply (object_meta_absent w' b (es1 ++ es2)); [done|].
      rewrite fmap_app, not_elem_of_app. by split. }
    split.
    + intros o' om' Hne' Hom'.
      destruct (object_meta_inv _ _ _ _ _ Hes Hom') as (l1 & x & l2 & Heq & <- & ->).
      pose proof (e_len_pos e). pose proof (e_len_pos x).
      rewrite Hle. simpl offset.
      destruct (middle_cases _ _ _ _ _ _ Hnd Heq) as [(m & -> & ->)|(m & -> & ->)];
        [congruence| |].
      * exists (node_of l1 x (m ++ es2)).
        rewrite <- app_assoc in Hrec. simpl in Hrec.
        split; [exact (object_meta_middle _ _ _ _ _ Hrec)|].
        simpl. rewrite total_len_app, total_len_cons.
        pose proof (total_len_nonneg l1). pose proof (total_len_nonneg m).
        repeat split; lia.
      * exists (node_of (es1 ++ m) x l2).
        assert (Hrec' : records_of w' b ((es1 ++ m) ++ x :: l2)).
        { by rewrite <- app_assoc. }
        split; [exact (object_meta_middle _ _ _ _ _ Hrec')|].
        simpl. rewrite !total_len_app, !total_len_cons.
        pose proof (total_len_nonneg es1). pose proof (total_len_nonneg m).
        repeat split; lia.
    + intros o1 o2 Hn1' Hn2'.
      apply (next_object_adjacent w b _ _ _ Hes) in Hn1' as (a1 & a2 & Ha).
      apply (next_object_adjacent w b _ _ _ Hes) in Hn2' as (c1 & c2 & Hc).
      rewrite fmap_app, fmap_cons in Ha, Hc, Hnd.
      assert (Ha' : (e_id <$> es1) ++ e_id e :: (e_id <$> es2)
                    = (a1 ++ [o1]) ++ e_id e :: a2).
      { by rewrite <- app_assoc. }
      destruct (NoDup_split_eq _ _ _ _ _ Hnd Ha') as [He1 He2].
      destruct (NoDup_split_eq _ _ _ _ _ Hnd Hc) as [_ He2'].
      assert (Hadj : adjacent (e_id <$> (es1 ++ es2)) o1 o2).
      { exists a1, c2. rewrite fmap_app, He1, He2'. by rewrite <- app_assoc. }
      split.
      * by apply (next_object_adjacent w' b (es1 ++ es2)).
      * by apply (prev_object_adjacent w' b (es1 ++ es2)).
Qed.

Lemma Delete_takes_record_out_witness :
  exists content bucketMeta',
    files st2 !! "st/b.dat"%string = Some content
    /\ buckets st3 !! "b"%string = Some bucketMeta'
    /\ files st3 !! "st/b.dat"%string
       = Some (take 0 content ++ drop (Z.to_nat (0 + 7)) content).
Proof.
  destruct (Delete_takes_record_out "st" st2 io_ok "o1" "b" st3
              (bucket_of st2 "b") (node_at st2 "b" "o1"))
    as (content & bm' & Hf & Hb' & _ & Hf' & _).
  - apply reachable_st2.
  - vm_compute. reflexivity.
  - vm_compute. reflexivity.
  - vm_compute. discriminate.
  - vm_compute. reflexivity.
  - exists content, bm'. split; [exact Hf|]. split; [exact Hb'|exact Hf'].
Defined.

(** ** One bucket at a time *)

(** [Store] and [Delete] on a bucket, whether they return an error or not,
    change neither the metadata nor the file of any other bucket. *)
Theorem other_buckets_untouched sp w io (p : list byte) o b b' bucketMeta' :
  reachable sp w ->
  valid_id o = true -> valid_id b = true ->
  b' <> b ->
  buckets w !! b' = Some bucketMeta' ->
  (forall w' r,
     Store io (Some p) o b w = Some (w', r) ->
     buckets w' !! b' = Some bucketMeta'
     /\ files w' !! filePath bucketMeta' = files w !! filePath bucketMeta')
  /\ (forall w' r,
        Delete io o b w = Some (w', r) ->
        buckets w' !! b' = Some bucketMeta'
        /\ files w' !! filePath bucketMeta' = files w !! filePath bucketMeta').
Proof.
  intros [Hinv _]%reachable_inv Hvo Hvb Hne Hb'.
  destruct (records_of_exists w b Hinv) as (es & Hes). split.
  - intros w' r Hs.
    destruct (Store_spec io p o b w es Hinv Hvo Hvb Hes)
      as (w'' & r' & Hs' & _ & _ & Hbk & Hfl & _).
    rewrite Hs' in Hs. injection Hs as -> ->.
    split; [by rewrite Hbk|by apply (Hfl b')].
  - intros w' r Hd.
    destruct (Delete_spec io o b w es Hinv Hes)
      as (w'' & r' & Hd' & _ & _ & Hbk & Hfl & _).
    rewrite Hd' in Hd. injection Hd as -> ->.
    split; [by rewrite Hbk|by apply (Hfl b')].
Qed.

Lemma other_buckets_untouched_witness :
  buckets (after (Store io_ok (Some (bytes_of "x")) "o9" "c" st2)) !! "b"%string
  = Some (bucket_of st2 "b")
  /\ files (after (Store io_ok (Some (bytes_of "x")) "o9" "c" st2))
       !! filePath (bucket_of st2 "b")
     = files st2 !! filePath (bucket_of st2 "b").
Proof.
  refine (proj1 (other_buckets_untouched "st" st2 io_ok (bytes_of "x") "o9" "c"
                   "b" (bucket_of st2 "b") _ _ _ _ _)
            (after (Store io_ok (Some (bytes_of "x")) "o9" "c" st2))
            (false, None) _).
  - apply reachable_st2.
  - reflexivity.
  - reflexivity.
  - discriminate.
  - vm_compute. reflexivity.
  - vm_compute. reflexivity.
Defined.

(** ** The operations return *)



(** * More on the loader *)

(** One turn of the loop of [getObjectsMetadata] over a record that is
    well formed. *)
Lemma loop_step io fuel e rest objs a off lst :
  io SysRead = true ->
  valid_id (e_id e) = true ->
  e_len e <= max_int64 ->
  exists objs' a' off' lst',
    getObjectsMetadata_loop (S fuel) io (record_of e ++ rest) objs a off lst
    = getObjectsMetadata_loop fuel io rest objs' a' off' lst'.
Proof.
  intros Hread Hve Hfits.
  pose proof (valid_id_no_space _ Hve) as Hsp1.
  pose proof (fmt_d_no_space _ (e_size_nonneg e)) as Hsp2.
  pose proof (e_metaSize_pos e). pose proof (e_size_nonneg e).
  assert (Hl : e_len e = e_metaSize e + e_size e + 2) by done.
  cbn [getObjectsMetadata_loop]. unfold record_of.
  rewrite bytes_of_meta_str, <- !app_assoc. simpl app.
  unfold ReadString at 1. rewrite Hread. simpl negb. cbv iota.
  rewrite (read_until_app _ _ _ Hsp1). rewrite chop_app.
  unfold ReadString at 1. rewrite Hread. simpl negb. cbv iota.
  rewrite <- app_assoc. simpl app. rewrite (read_until_app _ _ _ Hsp2).
  rewrite chop_app. cbv iota beta.
  rewrite string_of_bytes_of, ParseInt_fmt_d by (unfold max_int64 in *; lia).
  rewrite (add64_small (e_size e) 1) by int64.
  assert (Hd : Discard io (e_data e ++ separator :: rest) (e_size e + 1)
               = Ok rest).
  { unfold Discard. rewrite Hread. simpl.
    destruct (e_size e + 1 <? 0) eqn:E1; [zlia|].
    destruct (e_size e + 1 =? 0) eqn:E2; [zlia|].
    rewrite length_app. simpl.
    destruct (_ <? e_size e + 1) eqn:E3; [unfold e_size in *; zlia|].
    replace (Z.to_nat (e_size e + 1)) with (length (e_data e ++ [separator])).
    - replace (e_data e ++ separator :: rest)
        with ((e_data e ++ [separator]) ++ rest) by (by rewrite <- app_assoc).
      by rewrite drop_app_length.
    - rewrite length_app. simpl. unfold e_size. lia. }
  rewrite Hd. by eexists _, _, _, _.
Qed.

(** The loop over well-formed records, followed by anything, comes to what
    follows them. *)
Lemma loop_prefix io es t :
  io SysRead = true ->
  Forall (fun e => valid_id (e_id e) = true) es ->
  total_len es <= max_int64 ->
  forall fuel objs a off lst,
    (length (file_of es ++ t) < fuel)%nat ->
    exists fuel' objs' a' off' lst',
      (length t < fuel')%nat
      /\ getObjectsMetadata_loop fuel io (file_of es ++ t) objs a off lst
         = getObjectsMetadata_loop fuel' io t objs' a' off' lst'.
Proof.
  intros Hread. induction es as [|e es IH]; intros Hvalid Hfits fuel objs a off lst Hfuel.
  - simpl in *. by exists fuel, objs, a, off, lst.
  - apply Forall_cons in Hvalid as [Hve Hvalid].
    rewrite total_len_cons in Hfits. pose proof (total_len_nonneg es).
    pose proof (e_len_pos e).
    destruct fuel as [|fuel]; [lia|].
    cbn [file_of] in *. rewrite <- app_assoc in *.
    destruct (loop_step io fuel e (file_of es ++ t) objs a off lst Hread Hve)
      as (objs1 & a1 & off1 & lst1 & Hstep); [lia|].
    rewrite Hstep. apply IH; [done|lia|].
    rewrite length_app in Hfuel. pose proof (record_length e). lia.
Qed.

(** ** Records the loader refuses *)

(** After any number of well-formed records, a record is refused, with an
    error, when after its identifier no second space follows; when its
    length field is not a number; when its length is less than [-1]; and
    when fewer bytes than its length and the terminator are left. *)
Theorem loader_refuses io es (objId objSizeStr rest : list byte) :
  io SysRead = true ->
  Forall (fun e => valid_id (e_id e) = true) es ->
  total_len es <= max_int64 ->
  space ∉ objId ->
  (space ∉ rest ->
   getObjectsMetadata io (file_of es ++ objId ++ space :: rest)
   = Some (Err EOF))
  /\ (space ∉ objSizeStr ->
      let bf := file_of es ++ objId ++ space :: objSizeStr ++ space :: rest in
      (ParseInt (string_of objSizeStr) = Err ErrParseSize ->
       getObjectsMetadata io bf = Some (Err ErrParseSize))
      /\ (forall objSize,
            ParseInt (string_of objSizeStr) = Ok objSize ->
            (objSize < -1 ->
             getObjectsMetadata io bf = Some (Err ErrNegativeCount))
            /\ (0 <= objSize < max_int64 ->
                Z.of_nat (length rest) < objSize + 1 ->
                getObjectsMetadata io bf = Some (Err EOF)))).
Proof.
  intros Hread Hvalid Hfits Hsp.
  assert (Hgo : forall t,
            exists fuel objs a off lst,
              getObjectsMetadata io (file_of es ++ t)
              = getObjectsMetadata_loop (S fuel) io t objs a off lst).
  { intros t. unfold getObjectsMetadata.
    destruct (loop_prefix io es t Hread Hvalid Hfits
                (S (length (file_of es ++ t))) ∅ [] 0 None)
      as (fuel' & objs & a & off & lst & Hf & Heq); [lia|].
    destruct fuel' as [|fuel']; [lia|]. by exists fuel', objs, a, off, lst. }
  split.
  - intros Hrest.
    destruct (Hgo (objId ++ space :: rest)) as (fuel & objs & a & off & lst & ->).
    cbn [getObjectsMetadata_loop].
    unfold ReadString at 1. rewrite Hread. simpl negb. cbv iota.
    rewrite (read_until_app _ _ _ Hsp).
    unfold ReadString at 1. rewrite Hread. simpl negb. cbv iota.
    by rewrite (read_until_None _ _ Hrest).
  - intros Hsz bf.
    destruct (Hgo (objId ++ space :: objSizeStr ++ space :: rest))
      as (fuel & objs & a & off & lst & Hrun).
    assert (Hturn : getObjectsMetadata io bf
              = match ParseInt (string_of objSizeStr) with
                | Err _ => Some (Err ErrParseSize)
                | Ok objSize =>
                    match Discard io rest (add64 objSize 1) with
                    | Err err => Some (Err err)
                    | Ok r =>
                        getObjectsMetadata_loop fuel io r
                          (<[string_of objId := length a]> objs)
                          (match lst with
                           | Some l =>
                               alter (set_next (Some (length a))) l
                                 (a ++ [mkObject off objSize
                                          (add64 (Z.of_nat (length objId
                                                            + length objSizeStr)) 1)
                                          lst None])
                           | None =>
                               a ++ [mkObject off objSize
                                       (add64 (Z.of_nat (length objId
                                                         + length objSizeStr)) 1)
                                       lst None]
                           end)
                          (add64 off
                             (add64 (add64 (add64 (Z.of_nat (length objId
                                                             + length objSizeStr)) 1)
                                       objSize) 2))
                          (Some (length a))
                    end
                end).
    { unfold bf. rewrite Hrun. cbn [getObjectsMetadata_loop].
      unfold ReadString at 1. rewrite Hread. simpl negb. cbv iota.
      rewrite (read_until_app _ _ _ Hsp). rewrite chop_app.
      unfold ReadString at 1. rewrite Hread. simpl negb. cbv iota.
      rewrite (read_until_app _ _ _ Hsz). rewrite chop_app. cbv iota beta.
      destruct (ParseInt (string_of objSizeStr)); [|done].
      destruct (Discard io rest (add64 a0 1)); done. }
    split.
    + intros Hp. by rewrite Hturn, Hp.
    + intros objSize Hp. rewrite Hturn, Hp. split.
      * intros Hneg.
        assert (Hlow : min_int64 <= objSize <= max_int64).
        { revert Hp. unfold ParseInt.
          destruct (string_of objSizeStr) as [|c s]; [done|].
          set (sd := match String c s with
                     | String "+" s' => (false, s')
                     | String "-" s' => (true, s')
                     | _ => (false, String c s)
                     end).
          destruct sd as [neg digits]. destruct digits; [done|].
          destruct (NilEmpty.uint_of_string _) as [d|]; [|done].
          pose proof (N2Z.is_nonneg (N.of_uint d)).
          unfold min_int64, max_int64.
          destruct neg.
          - destruct (_ <=? 2 ^ 63) eqn:E; [|done]. intros [= <-]. zlia.
          - destruct (_ <=? _) eqn:E; [|done]. intros [= <-].
            unfold max_int64 in E. zlia. }
        rewrite add64_small by int64. unfold Discard.
        destruct (objSize + 1 <? 0) eqn:E; [done|zlia].
      * intros Hn Hshort. rewrite add64_small by int64.
        unfold Discard. rewrite Hread. simpl.
        destruct (objSize + 1 <? 0) eqn:E1; [zlia|].
        destruct (objSize + 1 =? 0) eqn:E2; [zlia|].
        destruct (_ <? objSize + 1) eqn:E3; [done|zlia].
Qed.

Lemma loader_refuses_witness :
  getObjectsMetadata io_ok (bytes_of "o1 5 hello
o2 9 hello") = Some (Err EOF).
Proof.
  destruct (loader_refuses io_ok [mkEntry 0 "o1" (bytes_of "hello")]
              (bytes_of "o2") (bytes_of "9") (bytes_of "hello"))
    as (_ & H).
  - reflexivity.
  - repeat constructor.
  - by vm_compute.
  - exact (valid_id_no_space "o2" eq_refl).
  - destruct H as (_ & H); [|].
    + exact (fmt_d_no_space 9 ltac:(lia)).
    + destruct (H 9 eq_refl) as (_ & H9). apply H9; [by vm_compute|by vm_compute].
Defined.

(** ** What the loader reads *)

Lemma renum_last_ptr k es :
  last_ptr (renum k es) None
  = match es with [] => None | _ => Some (k + length es - 1)%nat end.
Proof.
  destruct es as [|x es _] using rev_ind; [done|].
  rewrite renum_app. simpl. rewrite last_ptr_snoc. simpl.
  rewrite length_app. simpl.
  destruct (es ++ [x]) eqn:E; [by destruct es|]. f_equal. lia.
Qed.

(** The loader reads back what [appendObjectToBucketFile] writes: from a
    file of well-formed records with distinct identifiers it returns one
    node per record, numbered in the order of the file, with the offset of
    the record, the sizes of its object and of its metadata, and links to
    the records before and after it; the last node is the one returned as
    the last object. *)
Theorem loader_reads_records io es1 e es2 :
  io SysRead = true ->
  Forall (fun e => valid_id (e_id e) = true) (es1 ++ e :: es2) ->
  NoDup (e_id <$> (es1 ++ e :: es2)) ->
  total_len (es1 ++ e :: es2) <= max_int64 ->
  exists objs lst a,
    getObjectsMetadata io (file_of (es1 ++ e :: es2)) = Some (Ok (objs, lst, a))
    /\ base.size objs = length (es1 ++ e :: es2)
    /\ lst = Some (length (es1 ++ es2))
    /\ objs !! e_id e = Some (length es1)
    /\ a !! length es1
       = Some (mkObject (total_len es1) (Z.of_nat (length (e_data e)))
                 (Z.of_nat (String.length (e_id e) + 1
                            + String.length (fmt_d (Z.of_nat (length (e_data e))))))
                 (match es1 with [] => None | _ => Some (length es1 - 1)%nat end)
                 (match es2 with [] => None | _ => Some (S (length es1)) end)).
Proof.
  intros Hread Hvalid Hnd Hfits.
  destruct (getObjectsMetadata_spec io _ Hread Hvalid Hnd Hfits)
    as (a & Hrun & Hchain).
  eexists _, _, a. split; [exact Hrun|].
  assert (Hnd' : NoDup (e_id <$> renum 0 (es1 ++ e :: es2)))
    by (by rewrite renum_ids).
  split; [by rewrite index_size, renum_length|].
  split.
  { rewrite renum_last_ptr. rewrite !length_app. simpl.
    destruct (es1 ++ e :: es2) eqn:E; [by destruct es1|]. f_equal. lia. }
  rewrite renum_app in Hchain, Hnd'. simpl in Hchain, Hnd'.
  set (e' := mkEntry (length es1) (e_id e) (e_data e)) in *.
  split.
  { rewrite renum_app. simpl. fold e'.
    apply (index_lookup_middle (renum 0 es1) e' (renum (S (length es1)) es2)).
    exact Hnd'. }
  pose proof (chain_middle a _ e' _ Hchain) as Hnode. simpl in Hnode.
  rewrite Hnode, renum_total_len, renum_last_ptr. f_equal.
  change (e_size e') with (e_size e). change (e_metaSize e') with (e_metaSize e).
  rewrite e_metaSize_length. unfold e_size. f_equal. by destruct es2.
Qed.

Lemma loader_reads_records_witness :
  exists objs lst a,
    getObjectsMetadata io_ok
      (file_of ([mkEntry 0 "o1a" (bytes_of "1stob")]
                ++ [mkEntry 0 "o2-a" (bytes_of "2nd nice obj")]))
    = Some (Ok (objs, lst, a))
    /\ base.size objs = 2%nat
    /\ lst = Some 1%nat
    /\ objs !! "o2-a"%string = Some 1%nat
    /\ a !! 1%nat = Some (mkObject 12 12 7 (Some 0%nat) None).
Proof.
  apply (loader_reads_records io_ok
           [mkEntry 0 "o1a" (bytes_of "1stob")]
           (mkEntry 0 "o2-a" (bytes_of "2nd nice obj")) []).
  - reflexivity.
  - repeat constructor.
  - refine (bool_decide_unpack _ _). vm_compute. exact I.
  - by vm_compute.
Defined.

(** ** A restart and the buckets without objects *)


(** * The request layer *)

(** The tests of the handlers, on the store of the tests. *)
Example TestHandler_HandleStore :
  let put maxMem body store :=
    (fun x => (rest.status x.1, rest.obj x.2))
      <$> rest.HandleStore (rest.NewRouter maxMem) "bid" "oid" rest.NewResponse
            (test_request "PUT" body) store in
  put 0 (Some (bytes_of "test obj")) (rest.mkMock None false None)
  = Some (201, Some (bytes_of "test obj"))
  /\ put 0 (Some (bytes_of "test obj")) (rest.mkMock None true None)
     = Some (200, Some (bytes_of "test obj"))
  /\ put 0 (Some (bytes_of "test obj")) (rest.mkMock None false (Some ErrHash))
     = Some (500, Some (bytes_of "test obj"))
  /\ put 0 None (rest.mkMock None false None) = Some (400, None)
  /\ put 5 (Some (bytes_of "not so long object")) (rest.mkMock None false None)
     = Some (413, None).
Proof. vm_compute. repeat split; reflexivity. Qed.

Example TestHandler_HandleRetrieve :
  let get store :=
    (fun x => (rest.status x.1, rest.Written x.1))
      <$> rest.HandleRetrieve (rest.NewRouter 0) "bid" "oid" rest.NewResponse
            (test_request "GET" None) store in
  get (rest.mkMock (Some (bytes_of "test obj")) true None)
  = Some (200, [rest.Data (bytes_of "test obj")])
  /\ fst <$> get (rest.mkMock None false None) = Some 404
  /\ fst <$> get (rest.mkMock None false (Some ErrHash)) = Some 500.
Proof. vm_compute. repeat split; reflexivity. Qed.

Example TestHandler_HandleDelete :
  let del store :=
    (fun x => (rest.status x.1, rest.obj x.2))
      <$> rest.HandleDelete (rest.NewRouter 0) "bid" "oid" rest.NewResponse
            (test_request "DELETE" None) store in
  del (rest.mkMock (Some (bytes_of "test obj")) true None) = Some (200, None)
  /\ del (rest.mkMock None false None) = Some (404, None)
  /\ del (rest.mkMock None false (Some ErrHash)) = Some (500, None).
Proof. vm_compute. repeat split; reflexivity. Qed.

(** ** What the handlers do *)

Lemma ReadAll_LimitReader_take body n data :
  rest.ReadAll_LimitReader body n = Ok data ->
  data = take (Z.to_nat n) (rest.content body).
Proof.
  unfold rest.ReadAll_LimitReader.
  destruct (n <=? 0) eqn:E0.
  - intros [= <-]. replace (Z.to_nat n) with 0%nat by zlia. done.
  - destruct (n <=? Z.of_nat _) eqn:E1; [by intros [= <-]|].
    destruct (rest.failure body); [done|]. intros [= <-].
    rewrite take_ge; [done|zlia].
Qed.

(** [HandleStore] on a request that passes its checks. *)
Lemma HandleStore_stores {S} {OS : rest.ObjectStore S} h b o r body data
  (s s' : S) replaced :
  rest.Header_ContentType r = "text/plain"%string ->
  rest.Body r = Some body ->
  rest.ContentLength r <= rest.maxMem h ->
  rest.ReadAll_LimitReader body (rest.maxMem h) = Ok data ->
  rest.Store (Some data) o b s = Some (s', (replaced, None)) ->
  rest.HandleStore h b o rest.NewResponse r s
  = Some (rest.mkResponse
            (Some (if replaced then rest.StatusOK else rest.StatusCreated))
            {[ "Content-Type"%string := "application/json"%string ]}
            [rest.Json (rest.mkStoredResponse o)], s').
Proof.
  intros Hct Hbody Hlen Hread Hstore. unfold rest.HandleStore.
  rewrite Hct, Hbody. simpl.
  destruct (rest.ContentLength r >? rest.maxMem h) eqn:E; [zlia|].
  rewrite Hread, Hstore. by destruct replaced.
Qed.

Lemma HandleRetrieve_found {S} {OS : rest.ObjectStore S} h b o r obj (s : S) :
  rest.Retrieve o b s = Some (Some obj, true, None) ->
  rest.HandleRetrieve h b o rest.NewResponse r s
  = Some (rest.mkResponse (Some rest.StatusOK)
            {[ "Content-Type"%string := "text/plain"%string ]}
            [rest.Data obj], s).
Proof. intros Hr. unfold rest.HandleRetrieve. by rewrite Hr. Qed.

(** What [HandleStore] answers when it has got to the store. *)
Lemma HandleStore_inv {S} {OS : rest.ObjectStore S} h b o r (s s' : S) w :
  rest.HandleStore h b o rest.NewResponse r s = Some (w, s') ->
  rest.status w < 400 ->
  exists body data replaced,
    rest.Header_ContentType r = "text/plain"%string
    /\ rest.Body r = Some body
    /\ rest.ContentLength r <= rest.maxMem h
    /\ rest.ReadAll_LimitReader body (rest.maxMem h) = Ok data
    /\ rest.Store (Some data) o b s = Some (s', (replaced, None))
    /\ rest.status w = (if replaced then 200 else 201).
Proof.
  unfold rest.HandleStore.
  destruct (String.eqb _ _) eqn:Ect; simpl; [|by intros [= <- <-]].
  apply String.eqb_eq in Ect.
  destruct (rest.Body r) as [body|]; [|by intros [= <- <-]].
  destruct (rest.ContentLength r >? rest.maxMem h) eqn:E.
  { destruct (rest.formatSizeBinary _); [|done]. by intros [= <- <-]. }
  destruct (rest.ReadAll_LimitReader body (rest.maxMem h)) as [data|e] eqn:Hread;
    [|by intros [= <- <-]].
  destruct (rest.Store (Some data) o b s) as [[s1 [replaced [e|]]]|] eqn:Hs;
    [by intros [= <- <-]| |done].
  intros [= <- <-] _. exists body, data, replaced.
  repeat split; try done; [zlia|by destruct replaced].
Qed.

(** ** A request that is turned down *)

(** Whatever the store, a [PUT] that is answered with a status from 400 to
    499 has not got to the store: the state of the store is as it was, and
    the answer is 415 for a content type other than [text/plain], else 400
    for a request without body, else 413 for a content length above
    [maxMem]. *)
Theorem PUT_turned_down_leaves_store {S} {OS : rest.ObjectStore S}
  h b o r (s s' : S) w :
  rest.HandleStore h b o rest.NewResponse r s = Some (w, s') ->
  400 <= rest.status w < 500 ->
  s' = s
  /\ rest.status w
     = (if negb (String.eqb (rest.Header_ContentType r) "text/plain") then 415
        else if rest.Body r is None then 400 else 413)
  /\ (rest.status w = 413 -> rest.ContentLength r > rest.maxMem h).
Proof.
  unfold rest.HandleStore.
  destruct (String.eqb _ _) eqn:Ect; simpl; [|by intros [= <- <-]].
  destruct (rest.Body r) as [body|]; [|by intros [= <- <-]].
  destruct (rest.ContentLength r >? rest.maxMem h) eqn:E.
  { destruct (rest.formatSizeBinary _); [|done]. intros [= <- <-] _.
    repeat split; try done. zlia. }
  destruct (rest.ReadAll_LimitReader body (rest.maxMem h)) as [data|e] eqn:Hread;
    [|intros [= <- <-] [_ H2]; by vm_compute in H2].
  destruct (rest.Store (Some data) o b s) as [[s1 [replaced [e|]]]|] eqn:Hs;
    [intros [= <- <-] [_ H2]; by vm_compute in H2| |done].
  intros [= <- <-] [H1 _]. exfalso. apply H1. by destruct replaced.
Qed.

Lemma PUT_turned_down_leaves_store_witness :
  snd <$> rest.HandleStore (rest.NewRouter 5) "bid" "oid" rest.NewResponse
            (test_request "PUT" (Some (bytes_of "not so long object")))
            (rest.mkMock None false None)
  = Some (rest.mkMock None false None).
Proof.
  destruct (rest.HandleStore (rest.NewRouter 5) "bid" "oid" rest.NewResponse
              (test_request "PUT" (Some (bytes_of "not so long object")))
              (rest.mkMock None false None)) as [[w s']|] eqn:E;
    [|vm_compute in E; discriminate E].
  destruct (PUT_turned_down_leaves_store _ _ _ _ _ _ _ E) as (-> & _);
    [|reflexivity].
  vm_compute in E. injection E as <- _. vm_compute. split; [discriminate|reflexivity].
Defined.

(** ** [PUT] then [GET] *)

(** Over the in-memory store: a [PUT] with content type [text/plain], a
    body that can be read and a content length within [maxMem] is answered
    with 200 when the object was there and with 201 when it was not; a
    [GET] of the object is then answered with 200, content type
    [text/plain] and the first [maxMem] bytes of the body of the [PUT]. *)
Theorem PUT_then_GET_MemStore h b o r r' body data (s : memstore.MemStore) :
  rest.Header_ContentType r = "text/plain"%string ->
  rest.Body r = Some body ->
  rest.ContentLength r <= rest.maxMem h ->
  rest.ReadAll_LimitReader body (rest.maxMem h) = Ok data ->
  let s1 := (memstore.Store (Some data) o b s).1 in
  data = take (Z.to_nat (rest.maxMem h)) (rest.content body)
  /\ (exists w1,
        rest.HandleStore h b o rest.NewResponse r s = Some (w1, s1)
        /\ rest.status w1
           = (if (memstore.Retrieve o b s).1.2 then 200 else 201))
  /\ rest.HandleRetrieve h b o rest.NewResponse r' s1
     = Some (rest.mkResponse (Some 200)
               {[ "Content-Type"%string := "text/plain"%string ]}
               [rest.Data data], s1).
Proof.
  intros Hct Hbody Hlen Hread s1.
  split; [by apply (ReadAll_LimitReader_take body)|].
  pose proof (mem_Store_result (Some data) o b s) as Hres.
  destruct (memstore.Store (Some data) o b s) as [s1' [replaced e]] eqn:Hs.
  simpl in Hres. injection Hres as -> ->. subst s1. simpl. split.
  - eexists. split.
    + apply (HandleStore_stores h b o r body data s); try done.
      simpl. by rewrite Hs.
    + unfold rest.status. simpl. by destruct (memstore.Retrieve o b s).1.2.
  - apply HandleRetrieve_found. simpl.
    pose proof (memstore_round_trip_aux (Some data) o b s) as Hrt.
    rewrite Hs in Hrt. simpl in Hrt. by rewrite Hrt.
Qed.

Lemma PUT_then_GET_MemStore_witness :
  rest.HandleRetrieve (rest.NewRouter 5) "b" "o" rest.NewResponse
    (test_request "GET" None)
    (memstore.Store (Some (bytes_of "hello")) "o" "b" memstore.NewStore).1
  = Some (rest.mkResponse (Some 200)
            {[ "Content-Type"%string := "text/plain"%string ]}
            [rest.Data (bytes_of "hello")],
          (memstore.Store (Some (bytes_of "hello")) "o" "b" memstore.NewStore).1).
Proof.
  refine (proj2 (proj2 (PUT_then_GET_MemStore (rest.NewRouter 5) "b" "o"
            (rest.mkRequest "PUT" "/objects/b/o" "text/plain"
               (Some (rest.mkBody (bytes_of "hello world") None)) (-1))
            (test_request "GET" None)
            (rest.mkBody (bytes_of "hello world") None) (bytes_of "hello")
            memstore.NewStore _ _ _ _))).
  - reflexivity.
  - reflexivity.
  - by vm_compute.
  - reflexivity.
Defined.

(** Over the file store, in every state of the store and with valid
    identifiers: when a [PUT] is answered with a status below 400, the
    status is 200 or 201, and a [GET] of the object, its file being opened
    and read, is answered with 200, content type [text/plain] and the first
    [maxMem] bytes of the body of the [PUT]. *)
Theorem PUT_then_GET_FileStore sp io io' h b o r r' (s s' : world) w1 :
  reachable sp s ->
  valid_id o = true -> valid_id b = true ->
  rest.HandleStore (OS := FileStore_ObjectStore io) h b o rest.NewResponse r s
  = Some (w1, s') ->
  rest.status w1 < 400 ->
  io' SysOpen = true -> io' SysReadAt = true ->
  exists body,
    rest.Body r = Some body
    /\ (rest.status w1 = 200 \/ rest.status w1 = 201)
    /\ reachable sp s'
    /\ rest.HandleRetrieve (OS := FileStore_ObjectStore io') h b o
         rest.NewResponse r' s'
       = Some (rest.mkResponse (Some 200)
                 {[ "Content-Type"%string := "text/plain"%string ]}
                 [rest.Data (take (Z.to_nat (rest.maxMem h)) (rest.content body))],
               s').
Proof.
  intros Hr Hvo Hvb Hput Hst Hopen Hread.
  destruct (HandleStore_inv (OS := FileStore_ObjectStore io) h b o r s s' w1
              Hput Hst)
    as (body & data & replaced & _ & Hbody & _ & Hrd & Hs & Hcode).
  simpl in Hs. exists body. split; [done|].
  split; [destruct replaced; [by left|by right]|].
  split; [by apply (reach_Store sp s io data o b s' (replaced, None))|].
  apply (HandleRetrieve_found (OS := FileStore_ObjectStore io')). simpl.
  pose proof (reachable_inv _ _ Hr) as [Hinv _].
  destruct (Store_then_records _ _ _ _ _ _ _ Hinv Hvo Hvb Hs)
    as (es1 & e & es2 & Hrec & <- & Hd).
  rewrite <- (ReadAll_LimitReader_take _ _ _ Hrd), <- Hd.
  by apply (Retrieve_found io' b s' es1 e es2).
Qed.

Lemma PUT_then_GET_FileStore_witness :
  exists body,
    Some (rest.mkBody (bytes_of "a") None) = Some body
    /\ (201 = 200 \/ 201 = 201)
    /\ reachable "st" st1
    /\ rest.HandleRetrieve (OS := FileStore_ObjectStore io_ok)
         (rest.NewRouter 0) "b" "o1" rest.NewResponse (test_request "GET" None) st1
       = Some (rest.mkResponse (Some 200)
                 {[ "Content-Type"%string := "text/plain"%string ]}
                 [rest.Data (take (Z.to_nat (rest.maxMem (rest.NewRouter 0)))
                               (rest.content body))],
               st1).
Proof.
  refine (PUT_then_GET_FileStore "st" io_ok io_ok (rest.NewRouter 0) "b" "o1"
            (test_request "PUT" (Some (bytes_of "a"))) (test_request "GET" None)
            st0 st1
            (rest.mkResponse (Some 201)
               {[ "Content-Type"%string := "application/json"%string ]}
               [rest.Json (rest.mkStoredResponse "o1")]) _ _ _ _ _ _ _).
  - apply reachable_st0.
  - reflexivity.
  - reflexivity.
  - vm_compute. reflexivity.
  - by vm_compute.
  - reflexivity.
  - reflexivity.
Defined.

(** ** [DELETE] *)

(** Over the in-memory store a [DELETE] is answered with 200 when the
    object was there and with 404 when it was not; after it a second
    [DELETE] and a [GET] of the object are answered with 404. *)
Theorem DELETE_twice_MemStore h b o r r' r'' (s : memstore.MemStore) :
  let s1 := (memstore.Delete o b s).1 in
  (exists w1,
     rest.HandleDelete h b o rest.NewResponse r s = Some (w1, s1)
     /\ rest.status w1 = (if (memstore.Retrieve o b s).1.2 then 200 else 404))
  /\ (exists w2,
        rest.HandleDelete h b o rest.NewResponse r' s1 = Some (w2, s1)
        /\ rest.status w2 = 404)
  /\ (exists w3,
        rest.HandleRetrieve h b o rest.NewResponse r'' s1 = Some (w3, s1)
        /\ rest.status w3 = 404).
Proof.
  intros s1.
  destruct (memstore_Delete_twice_aux o b s) as [Hret Hdel]. fold s1 in Hret, Hdel.
  split.
  { unfold rest.HandleDelete. simpl.
    pose proof (mem_Delete_result o b s) as Hres.
    destruct (memstore.Delete o b s) as [s1' [deleted e]] eqn:Hd.
    simpl in Hres. injection Hres as -> ->. subst s1. simpl.
    destruct (memstore.Retrieve o b s).1.2; simpl; by eexists. }
  split.
  - unfold rest.HandleDelete. simpl. rewrite Hdel. simpl. by eexists.
  - unfold rest.HandleRetrieve. simpl. rewrite Hret. simpl. by eexists.
Qed.

(** ** The logging middleware *)




(** ** [formatSizeBinary] *)

Lemma pow_1024_bounds n k :
  0 <= k -> 0 <= n ->
  1024 ^ k <= n / 1024 < 1024 ^ (k + 1) ->
  1024 ^ (k + 1) <= n < 1024 ^ (k + 1 + 1).
Proof.
  intros Hk Hn Hb.
  assert (Hp1 : 1024 ^ (k + 1) = 1024 * 1024 ^ k).
  { rewrite Z.pow_add_r by lia. change (1024 ^ 1) with 1024. lia. }
  assert (Hp2 : 1024 ^ (k + 1 + 1) = 1024 * (1024 * 1024 ^ k)).
  { rewrite (Z.pow_add_r 1024 (k + 1) 1) by lia. rewrite Hp1.
    change (1024 ^ 1) with 1024. lia. }
  rewrite Hp1 in Hb. rewrite Hp1, Hp2.
  pose proof (Z.mul_div_le n 1024 ltac:(lia)).
  pose proof (Z.mul_succ_div_gt n 1024 ltac:(lia)).
  set (P := 1024 ^ k) in *. set (q := n / 1024) in *. lia.
Qed.

Lemma formatSizeBinary_loop_spec m :
  forall fuel n e,
    (m < fuel)%nat ->
    0 <= e -> e + Z.of_nat m <= 5 ->
    1 <= n < 1024 ^ Z.of_nat (S m) ->
    exists k,
      0 <= k <= Z.of_nat m
      /\ rest.formatSizeBinary_loop fuel n (1024 ^ (e + 1)) e
         = Some (1024 ^ (e + k + 1), e + k)
      /\ 1024 ^ k <= n < 1024 ^ (k + 1).
Proof.
  induction m as [|m IH]; intros fuel n e Hfuel He Hem Hn.
  - destruct fuel as [|fuel]; [lia|]. exists 0. simpl.
    change (1024 ^ Z.of_nat 1) with 1024 in Hn.
    unfold rest.unit. destruct (n >=? 1024) eqn:E; [lia|].
    rewrite !Z.add_0_r. split; [lia|]. split; [done|]. simpl. lia.
  - destruct fuel as [|fuel]; [lia|]. cbn [rest.formatSizeBinary_loop].
    unfold rest.unit. destruct (n >=? 1024) eqn:E.
    + assert (Hq : Z.quot n 1024 = n / 1024) by (apply Z.quot_div_nonneg; lia).
      rewrite Hq.
      assert (Hd : wrap64 (1024 ^ (e + 1) * 1024) = 1024 ^ (e + 1 + 1)).
      { assert (Hp : 1024 ^ (e + 1 + 1) = 1024 ^ (e + 1) * 1024).
        { rewrite (Z.pow_add_r 1024 (e + 1) 1) by lia. done. }
        rewrite <- Hp. apply wrap64_small.
        assert (0 < 1024 ^ (e + 1 + 1)) by (apply Z.pow_pos_nonneg; lia).
        assert (1024 ^ (e + 1 + 1) <= 1024 ^ 6)
          by (apply Z.pow_le_mono_r; lia).
        unfold in_int64, min_int64, max_int64. lia. }
      rewrite Hd.
      destruct (IH fuel (n / 1024) (e + 1)) as (k & Hk & Hloop & Hb);
        [lia|lia|lia| |].
      { split.
        - apply Z.div_le_lower_bound; lia.
        - apply Z.div_lt_upper_bound; [lia|].
          replace (Z.of_nat (S (S m))) with (Z.succ (Z.of_nat (S m))) in Hn by lia.
          rewrite Z.pow_succ_r in Hn by apply Nat2Z.is_nonneg.
          exact (proj2 Hn). }
      exists (k + 1). split; [lia|]. split.
      * replace (e + (k + 1) + 1) with (e + 1 + k + 1) by lia.
        replace (e + (k + 1)) with (e + 1 + k) by lia. exact Hloop.
      * apply (pow_1024_bounds n k); [lia|lia|exact Hb].
    + exists 0. rewrite !Z.add_0_r. split; [lia|]. split; [done|]. simpl. lia.
Qed.

(** [formatSizeBinary] returns for every [int64]: the index into
    ["KMGTPE"] stays within the string and the divisor does not overflow.
    Below 1024 it prints the bytes; from there on it scales by the largest
    power of 1024, from the first to the sixth, that is not above the
    size. *)
Theorem formatSizeBinary_scales b :
  min_int64 <= b <= max_int64 ->
  (b < 1024 ->
   rest.formatSizeBinary b = Some (rest.Bytes (fmt_d b +:+ " Bytes")))
  /\ (1024 <= b ->
      exists k c,
        0 <= k <= 5
        /\ rest.formatSizeBinary b = Some (rest.Scaled b (1024 ^ (k + 1)) c)
        /\ String.get (Z.to_nat k) "KMGTPE" = Some c
        /\ 1024 ^ (k + 1) <= b < 1024 ^ (k + 2)).
Proof.
  intros Hb. unfold rest.formatSizeBinary, rest.unit. split.
  - intros Hlt. destruct (b <? 1024) eqn:E; [done|lia].
  - intros Hge. destruct (b <? 1024) eqn:E; [lia|].
    assert (Hq : Z.quot b 1024 = b / 1024) by (apply Z.quot_div_nonneg; lia).
    rewrite Hq.
    destruct (formatSizeBinary_loop_spec 5 64 (b / 1024) 0) as (k & Hk & Hloop & Hbk);
      [lia|lia|lia| |].
    { split.
      - apply Z.div_le_lower_bound; lia.
      - apply Z.div_lt_upper_bound; [lia|].
        unfold max_int64 in Hb. change (1024 ^ Z.of_nat 6) with (2 ^ 60). lia. }
    change (1024 ^ (0 + 1)) with 1024 in Hloop. rewrite Hloop. cbv beta iota.
    rewrite !Z.add_0_l.
    destruct (k <? 0) eqn:Ek; [lia|].
    assert (Hc : exists c, String.get (Z.to_nat k) "KMGTPE" = Some c).
    { assert (Hcases : k = 0 \/ k = 1 \/ k = 2 \/ k = 3 \/ k = 4 \/ k = 5) by lia.
      destruct Hcases as [->|[->|[->|[->|[->| ->]]]]]; by eexists. }
    destruct Hc as (c & Hc). rewrite Hc. exists k, c.
    split; [lia|]. split; [done|]. split; [done|].
    replace (k + 2) with (k + 1 + 1) by lia.
    apply (pow_1024_bounds b k); [lia|lia|exact Hbk].
Qed.

Lemma formatSizeBinary_scales_witness :
  exists k c,
    0 <= k <= 5
    /\ rest.formatSizeBinary rest.defaultMaxMem
       = Some (rest.Scaled rest.defaultMaxMem (1024 ^ (k + 1)) c)
    /\ String.get (Z.to_nat k) "KMGTPE" = Some c
    /\ 1024 ^ (k + 1) <= rest.defaultMaxMem < 1024 ^ (k + 2).
Proof.
  apply (formatSizeBinary_scales rest.defaultMaxMem); by vm_compute.
Defined.
(** * The listen address *)

Lemma span_all f s t :
  all_chars f s = true ->
  match t with String c _ => f c = false | EmptyString => True end ->
  main.span f (s +:+ t) = (s, t).
Proof.
  intros Hs Ht. induction s as [|c s IH]; simpl.
  - rewrite app_nil_s. destruct t as [|c t]; [done|]. simpl. by rewrite Ht.
  - simpl in Hs. apply andb_prop in Hs as [Hc Hs].
    rewrite Hc. by rewrite (IH Hs).
Qed.

Lemma span_all_nil f s : all_chars f s = true -> main.span f s = (s, EmptyString).
Proof.
  intros Hs. pose proof (span_all f s EmptyString Hs I) as H.
  revert H. replace (s +:+ "")%string with s; [done|].
  clear. induction s as [|c s IH]; [done|]. rewrite app_String. by rewrite <- IH.
Qed.

Lemma span_run f s : all_chars f (main.span f s).1 = true.
Proof.
  induction s as [|c s IH]; simpl; [done|].
  destruct (f c) eqn:Hc; [|done].
  destruct (main.span f s) as [run rest]. simpl in *. by rewrite Hc.
Qed.

Lemma digit_is_host_char c : is_digit c = true -> main.host_char c = true.
Proof.
  unfold is_digit, main.host_char, main.word_char. intros ->. done.
Qed.

Lemma digits_are_host_chars s :
  all_chars is_digit s = true -> all_chars main.host_char s = true.
Proof.
  induction s as [|c s IH]; simpl; [done|].
  intros [Hc Hs]%andb_prop. rewrite (digit_is_host_char c Hc). by apply IH.
Qed.

Lemma string_eqb_app_colon host :
  all_chars main.host_char host = true ->
  String.eqb (host +:+ ":") "*:" = false.
Proof.
  intros Hh. apply String.eqb_neq. intros E.
  destruct host as [|c host]; [done|]. rewrite app_String in E.
  injection E as -> _. done.
Qed.

Lemma string_eqb_app_nonempty (s t : string) :
  t <> EmptyString -> String.eqb (s +:+ t) "" = false.
Proof.
  intros Ht. apply String.eqb_neq. intros E. apply Ht.
  destruct s as [|c s]; [by rewrite app_nil_s in E|].
  rewrite app_String in E. done.
Qed.

(** ** The two forms of a listen address *)

(** For a listen address of the form [<port>], digits only, the server
    listens at [0.0.0.0:<port>]; for one of the form [<address>:<port>],
    the address made of letters, digits, [_], [.] and [-], it listens at
    that address and port, and at port 8080 when the port is left out. *)
Theorem serverAddr_of_forms (address port : string) :
  all_chars is_digit port = true ->
  all_chars main.host_char address = true ->
  address <> EmptyString ->
  (port <> EmptyString -> main.serverAddr port = ("0.0.0.0:" +:+ port)%string)
  /\ (port <> EmptyString ->
      main.serverAddr (address +:+ ":" +:+ port)
      = (address +:+ ":" +:+ port)%string)
  /\ main.serverAddr (address +:+ ":") = (address +:+ ":8080")%string.
Proof.
  intros Hport Haddr Hne.
  assert (Hcolon : forall p, match (":" +:+ p)%string with
                             | String c _ => main.host_char c = false
                             | EmptyString => True
                             end) by done.
  split; [|split].
  - intros Hp. unfold main.serverAddr, main.FindStringSubmatch.
    rewrite (span_all_nil _ _ (digits_are_host_chars _ Hport)).
    assert (E : match port with
                | String _ _ => match EmptyString with
                                | String ":" rest' => (port +:+ ":", rest')
                                | _ => (EmptyString, port)
                                end
                | EmptyString => (EmptyString, port)
                end = (EmptyString, port)) by (by destruct port).
    simpl in E |- *. rewrite E. rewrite (span_all_nil _ _ Hport). simpl.
    destruct port as [|c port]; [done|]. done.
  - intros Hp. unfold main.serverAddr, main.FindStringSubmatch.
    rewrite (span_all _ address (":" +:+ port) Haddr (Hcolon port)).
    destruct address as [|c address]; [done|].
    rewrite app_String, app_nil_s. rewrite (span_all_nil _ _ Hport).
    cbn [fst]. rewrite string_eqb_app_nonempty by done.
    rewrite string_eqb_app_colon by done.
    destruct port as [|d port]; [done|].
    change (String.eqb (String d port) "") with false. cbv iota.
    by rewrite string_app_assoc.
  - unfold main.serverAddr, main.FindStringSubmatch.
    rewrite (span_all _ address ":" Haddr (Hcolon EmptyString)).
    destruct address as [|c address]; [done|]. simpl main.span. cbn [fst].
    rewrite string_eqb_app_nonempty by done.
    rewrite string_eqb_app_colon by done.
    simpl String.eqb. cbv iota.
    change (fmt_d main.defaultListenPort) with "8080"%string.
    by rewrite string_app_assoc.
Qed.

Lemma serverAddr_of_forms_witness :
  main.serverAddr "127.0.0.1:80" = "127.0.0.1:80"%string.
Proof.
  refine (proj1 (proj2 (serverAddr_of_forms "127.0.0.1" "80" _ _ _)) _);
    first [reflexivity|discriminate].
Defined.

(** ** Other listen addresses *)

(** The first group of [listenAddrRe] never is ["*:"], so that the branch
    of [main] for it is never taken; and a listen address that does not
    start with a letter, a digit, [_], [.] or [-], such as [*:9090] or
    [:9090], is set aside as a whole: the server listens at
    [0.0.0.0:8080]. *)
Theorem serverAddr_sets_aside (rawListenAddress : string) :
  (main.FindStringSubmatch rawListenAddress).1 <> "*:"%string
  /\ (match rawListenAddress with
      | String c _ => main.host_char c = false
      | EmptyString => True
      end ->
      main.serverAddr rawListenAddress = "0.0.0.0:8080"%string).
Proof.
  split.
  - unfold main.FindStringSubmatch.
    pose proof (span_run main.host_char rawListenAddress) as Hrun.
    destruct (main.span main.host_char rawListenAddress) as [run rest].
    simpl in Hrun. destruct run as [|c run]; [done|].
    destruct rest as [|c' rest]; [done|].
    destruct (Ascii.eqb c' ":") eqn:Ec.
    + apply Ascii.eqb_eq in Ec. subst c'. simpl. intros E.
      injection E as -> _. done.
    + assert (E : match c' with
                  | ":"%char => (String c run +:+ ":", rest)
                  | _ => (EmptyString, rawListenAddress)
                  end = (EmptyString, rawListenAddress)).
      { destruct c' as [[] [] [] [] [] [] [] []]; try done. }
      simpl in E |- *. by rewrite E.
  - intros Hc. unfold main.serverAddr, main.FindStringSubmatch.
    destruct rawListenAddress as [|c s]; [done|].
    assert (Hd : is_digit c = false).
    { destruct (is_digit c) eqn:E; [|done].
      by rewrite (digit_is_host_char c E) in Hc. }
    cbn [main.span]. rewrite Hc. cbn [main.span]. by rewrite Hd.
Qed.

Lemma serverAddr_sets_aside_witness :
  main.serverAddr "*:9090" = "0.0.0.0:8080"%string.
Proof.
  refine (proj2 (serverAddr_sets_aside "*:9090") _). reflexivity.
Defined.
